(** * The WordPress migration scripts: a shallow embedding

    Two programs are embedded here:
    - [src/migration/wp_migrate.py], the eight resumable migration steps
      (module [Migrate]);
    - [src/migration/wp_import_images.py], the featured-image importer
      (module [ImportImages]).

    Python values are modelled as the code has them: a [str] is a list of
    Unicode code points, a [dict] decoded from JSON is a finite map or an
    association list, the state ledger is a record, and every statement
    with an effect (an HTTP call, a write of the state file, a write of the
    media cache) is an action of a small state-and-exception monad that
    appends an event to a trace.  Console output and [time.sleep] are left
    out: no statement reads them back. *)

From Stdlib Require Import ZArith List Ascii String Uint63 PrimFloat FloatOps SpecFloat FloatAxioms.
From stdpp Require Import base option list gmap strings pretty.

Set Warnings "-register-all".
Open Scope Z_scope.

(** ** Python strings and JSON values *)

Module Py.

(** A Python [str]: the sequence of its code points, so that [len], slices
    and [str.isspace] count characters as Python does. *)
Abbreviation pystr := (list N).

(** An ASCII literal of the source as a [str]. *)
Definition py (s : string) : pystr :=
  (fun a => N.of_nat (nat_of_ascii a)) <$> list_ascii_of_string s.

(** [str(n)] for an [int]. *)
Definition str_int (z : Z) : pystr := py (pretty z).

(** What [json.load] and [resp.json()] return.  JSON numbers are the
    integers the services use as identifiers and counts. *)
Inductive json :=
| JNull
| JBool (b : bool)
| JNum (z : Z)
| JStr (s : pystr)
| JArr (xs : list json)
| JObj (kvs : list (pystr * json)).

(** Python truthiness ([if x:]). *)
Definition truthy (v : json) : bool :=
  match v with
  | JNull => false
  | JBool b => b
  | JNum z => negb (z =? 0)
  | JStr s => negb (bool_decide (s = []))
  | JArr xs => match xs with [] => false | _ => true end
  | JObj kvs => match kvs with [] => false | _ => true end
  end.

(** Lookup in an association list: the first binding of the key. *)
Fixpoint assoc {V} (k : pystr) (kvs : list (pystr * V)) : option V :=
  match kvs with
  | [] => None
  | (k', v) :: rest => if decide (k = k') then Some v else assoc k rest
  end.

(** [o.get(k, d)]: [None] stands for the [AttributeError] raised when [o]
    is not a [dict]. *)
Definition dict_get (o : json) (k : pystr) (d : json) : option json :=
  match o with
  | JObj kvs => Some (default d (assoc k kvs))
  | _ => None
  end.

(** [s[:n]] on a [str] or a [list]. *)
Definition slice_to {A} (n : Z) (s : list A) : list A :=
  if 0 <=? n then take (Z.to_nat n) s
  else take (length s - Z.to_nat (- n)) s.

(** [len(s)]. *)
Definition len (s : pystr) : Z := Z.of_nat (length s).

(** [sub in s]: [sub] occurs in [s] as a contiguous substring. *)
Fixpoint starts_with (p s : pystr) : bool :=
  match p, s with
  | [], _ => true
  | _ :: _, [] => false
  | a :: p', b :: s' => bool_decide (a = b) && starts_with p' s'
  end.

Fixpoint contains (sub s : pystr) : bool :=
  starts_with sub s ||
  match s with
  | [] => false
  | _ :: s' => contains sub s'
  end.

(** [a or b] on two [str] values. *)
Definition str_or (a b : pystr) : pystr :=
  match a with [] => b | _ => a end.

End Py.
Import Py.

(** ** Text helpers of wp_migrate.py *)

Module Text.

Definition space : N := 32.
Definition newline : N := 10.

(** The truncation marker ["..."]. *)
Definition marker : pystr := py "...".

(** [s.rsplit(sep, 1)[0]]: the text before the last occurrence of [sep],
    or all of [s] when [sep] does not occur. *)
Fixpoint before_last (sep : N) (s : pystr) : option pystr :=
  match s with
  | [] => None
  | c :: rest =>
      match before_last sep rest with
      | Some p => Some (c :: p)
      | None => if decide (c = sep) then Some [] else None
      end
  end.

Definition rsplit_head (sep : N) (s : pystr) : pystr :=
  default s (before_last sep s).

(** The characters [str.strip()] removes ([str.isspace]). *)
Definition is_space (c : N) : bool :=
  bool_decide (c ∈ [9; 10; 11; 12; 13; 28; 29; 30; 31; 32; 133; 160; 5760;
                    8192; 8193; 8194; 8195; 8196; 8197; 8198; 8199; 8200;
                    8201; 8202; 8232; 8233; 8239; 8287; 12288]%N).

Fixpoint lstrip (s : pystr) : pystr :=
  match s with
  | c :: rest => if is_space c then lstrip rest else s
  | [] => []
  end.

Definition strip (s : pystr) : pystr := reverse (lstrip (reverse (lstrip s))).

(** [re.sub(r"\n{3,}", "\n\n", text)]: [run] counts the newlines seen
    since the last other character; a run of three or more leaves two. *)
Fixpoint collapse_from (run : nat) (s : pystr) : pystr :=
  match s with
  | [] => replicate (Nat.min run 2) newline
  | c :: rest =>
      if decide (c = newline) then collapse_from (S run) rest
      else replicate (Nat.min run 2) newline ++ c :: collapse_from 0 rest
  end.

Definition collapse_newlines (s : pystr) : pystr := collapse_from 0 s.

(** What the scripts use of BeautifulSoup's [html.parser] tree: the calls
    are the library's, their composition is the scripts'. *)
Record soup := Soup {
  (** [BeautifulSoup(html, "html.parser").get_text()] *)
  get_text : pystr -> pystr;
  (** [BeautifulSoup(html, "html.parser").get_text(separator=" ", strip=True)] *)
  get_text_stripped : pystr -> pystr;
  (** [str(soup)] after the two passes of [wp_clean_html] over the tree:
      every [div] whose class matches [et_pb_] unwrapped, then every [div]
      without text and without an [img] decomposed (lines 183-195). *)
  cleaned_markup : pystr -> pystr;
}.

(** [wp_clean_html] (lines 179-197). *)
Definition wp_clean_html (B : soup) (html : pystr) : pystr :=
  match html with
  | [] => []
  | _ => strip (collapse_newlines (cleaned_markup B html))
  end.

(** [wp_extract_excerpt] (lines 200-208). *)
Definition wp_extract_excerpt (B : soup) (content : pystr) (max_len : Z) : pystr :=
  match content with
  | [] => []
  | _ =>
      let text := get_text_stripped B content in
      if max_len <? len text
      then rsplit_head space (slice_to max_len text) ++ marker
      else text
  end.

End Text.
Import Text.

(** ** Effects: mutable state, a trace, and uncaught exceptions *)

Module Eff.

(** How a call ends: with a value, or with an exception nothing catches
    (the process terminates there). *)
Inductive outcome (A : Type) :=
| Done (a : A)
| Raised.
Arguments Done {A} a.
Arguments Raised {A}.

(** A computation over a world [W]: the world is threaded through, and is
    kept as it stands when an exception escapes. *)
Definition eff (W A : Type) : Type := W -> outcome A * W.

Definition ret {W A} (a : A) : eff W A := fun w => (Done a, w).

Definition bind {W A B} (m : eff W A) (k : A -> eff W B) : eff W B :=
  fun w =>
    match m w with
    | (Done a, w') => k a w'
    | (Raised, w') => (Raised, w')
    end.

Definition raise {W A} : eff W A := fun w => (Raised, w).

(** A call that raises on [None]. *)
Definition lift {W A} (o : option A) : eff W A :=
  match o with
  | Some a => ret a
  | None => raise
  end.

(** [for x in xs: body(x)]. *)
Fixpoint for_each {W A} (xs : list A) (body : A -> eff W unit) : eff W unit :=
  match xs with
  | [] => ret tt
  | x :: rest => bind (body x) (fun _ => for_each rest body)
  end.

(** The world a computation leaves, and its result. *)
Definition final {W A} (m : eff W A) (w : W) : W := snd (m w).
Definition result {W A} (m : eff W A) (w : W) : outcome A := fst (m w).

End Eff.
Import Eff.

Notation "x <- m ;; k" := (bind m (fun x => k))
  (at level 100, m at next level, right associativity).
Notation "m ;;; k" := (bind m (fun _ => k))
  (at level 100, right associativity).


(** ** wp_migrate.py *)

Module Migrate.

(** [MigrationState.data] (lines 97-107). *)
Record data := Data {
  wp_categories : gmap pystr json;   (* wp_id -> wn_category_id *)
  wn_author_id : json;
  wp_posts : gmap pystr json;        (* wp_id -> wn_article_id *)
  wp_pages : gmap pystr json;        (* wp_id -> si_page_id *)
  wp_media_si : gmap pystr json;     (* wp_id -> si_media_id *)
  wp_media_wn : gmap pystr json;     (* wp_id -> wn_media_id *)
  si_menus : gmap pystr json;        (* location -> menu_id *)
  si_contacts : list json;
  completed_steps : list pystr;
}.

Definition empty_data : data :=
  Data ∅ JNull ∅ ∅ ∅ ∅ ∅ [] [].

Definition set_wp_categories (f : gmap pystr json -> gmap pystr json) (d : data) : data :=
  Data (f (wp_categories d)) (wn_author_id d) (wp_posts d) (wp_pages d)
       (wp_media_si d) (wp_media_wn d) (si_menus d) (si_contacts d) (completed_steps d).
Definition set_wn_author_id (v : json) (d : data) : data :=
  Data (wp_categories d) v (wp_posts d) (wp_pages d)
       (wp_media_si d) (wp_media_wn d) (si_menus d) (si_contacts d) (completed_steps d).
Definition set_wp_posts (f : gmap pystr json -> gmap pystr json) (d : data) : data :=
  Data (wp_categories d) (wn_author_id d) (f (wp_posts d)) (wp_pages d)
       (wp_media_si d) (wp_media_wn d) (si_menus d) (si_contacts d) (completed_steps d).
Definition set_wp_pages (f : gmap pystr json -> gmap pystr json) (d : data) : data :=
  Data (wp_categories d) (wn_author_id d) (wp_posts d) (f (wp_pages d))
       (wp_media_si d) (wp_media_wn d) (si_menus d) (si_contacts d) (completed_steps d).
Definition set_wp_media_si (f : gmap pystr json -> gmap pystr json) (d : data) : data :=
  Data (wp_categories d) (wn_author_id d) (wp_posts d) (wp_pages d)
       (f (wp_media_si d)) (wp_media_wn d) (si_menus d) (si_contacts d) (completed_steps d).
Definition set_wp_media_wn (f : gmap pystr json -> gmap pystr json) (d : data) : data :=
  Data (wp_categories d) (wn_author_id d) (wp_posts d) (wp_pages d)
       (wp_media_si d) (f (wp_media_wn d)) (si_menus d) (si_contacts d) (completed_steps d).
Definition set_si_menus (f : gmap pystr json -> gmap pystr json) (d : data) : data :=
  Data (wp_categories d) (wn_author_id d) (wp_posts d) (wp_pages d)
       (wp_media_si d) (wp_media_wn d) (f (si_menus d)) (si_contacts d) (completed_steps d).
Definition set_si_contacts (f : list json -> list json) (d : data) : data :=
  Data (wp_categories d) (wn_author_id d) (wp_posts d) (wp_pages d)
       (wp_media_si d) (wp_media_wn d) (si_menus d) (f (si_contacts d)) (completed_steps d).
Definition set_completed_steps (f : list pystr -> list pystr) (d : data) : data :=
  Data (wp_categories d) (wn_author_id d) (wp_posts d) (wp_pages d)
       (wp_media_si d) (wp_media_wn d) (si_menus d) (si_contacts d) (f (completed_steps d)).

(** The two target services. *)
Inductive backend := SI | WN.

(** The routes the script calls under [/api/v1]. *)
Inductive endpoint :=
| Categories
| Authors
| Articles
| ArticleWorkflow (article_id : json) (action : pystr)  (* editorial/articles/{id}/{action} *)
| Pages
| PageEstado (page_id : json)                            (* pages/{id}/estado *)
| Menus
| MenuItems (menu_id : json)                             (* menus/{id}/items *)
| Contacts.

(** What the process does to the outside, in order. *)
Inductive event :=
| WpFetch (resource : pystr)                             (* wp_fetch_all: GETs on the source *)
| HttpDownload (url : pystr)                             (* GET of a media asset *)
| HttpPost (b : backend) (e : endpoint) (body : json)
| HttpPatch (b : backend) (e : endpoint) (body : json)
| HttpUpload (b : backend) (file_name : pystr) (alt : pystr)  (* multipart POST /api/v1/media *)
| StateSaved (d : data).                                 (* STATE_FILE rewritten *)

(** A call that writes to a target service. *)
Definition is_remote_write (ev : event) : bool :=
  match ev with
  | HttpPost _ _ _ | HttpPatch _ _ _ | HttpUpload _ _ _ => true
  | _ => false
  end.

(** The process and the files it owns: the ledger in memory, [STATE_FILE]
    ([None]: no such file), [MEDIA_DIR] (file name to bytes), and the
    events so far, newest first. *)
Record world := World {
  mem : data;
  disk : option data;
  cache : gmap pystr (list N);
  trace : list event;
}.

(** [MigrationState()] (lines 96-114): the defaults, updated with the
    saved document. *)
Definition load (saved : option data) : data := default empty_data saved.

Definition boot (saved : option data) (files : gmap pystr (list N)) : world :=
  World (load saved) saved files [].

(** An HTTP reply: status code and body ([None]: not JSON), or an
    exception of [requests] (timeout, connection error). *)
Inductive response :=
| Reply (status : Z) (body : option json)
| NetError.

(** How a streamed download ends: completely; refused before the file is
    opened ([raise_for_status] or a connection error); or broken off
    after the file was opened and [partial] written. *)
Inductive transfer :=
| Transferred (content : list N)
| Refused
| Interrupted (partial : list N).

(** Source entities, as the WordPress REST API returns them. *)
Record category := Category {
  cat_id : Z;
  cat_slug : pystr;
  cat_name : pystr;
  cat_description : option pystr;
  cat_count : option Z;
}.

Record post := Post {
  post_id : Z;
  post_slug : pystr;
  post_title : pystr;              (* post["title"]["rendered"] *)
  post_content : pystr;            (* post["content"]["rendered"] *)
  post_excerpt : option pystr;     (* post.get("excerpt", {}).get("rendered", "") *)
  post_categories : list Z;        (* post.get("categories", []) *)
  post_featured_media : option Z;  (* post.get("featured_media") *)
}.

Record page := Page {
  page_id : Z;
  page_title : pystr;
  page_content : pystr;
  page_featured_media : option Z;
}.

Record media := Media {
  media_id : Z;
  media_source_url : pystr;        (* media.get("source_url", "") *)
  media_alt_text : pystr;          (* media.get("alt_text", "") *)
  media_title : pystr;             (* media.get("title", {}).get("rendered", "") *)
  media_mime_type : pystr;         (* media.get("mime_type", "") *)
}.

(** The literal dictionaries of the script whose text no statement
    inspects: the author payload (lines 346-354), the menu items (lines
    667-724 and 755-784), the contacts (lines 811-855) and the
    translations of the additional pages (lines 887-954), by slug. *)
Record tables := Tables {
  author_payload : json;
  header_items : list json;
  footer_items : list json;
  contacts : list json;
  additional_translations : pystr -> json;
}.

(** Everything outside the process.  [remote] and [asset] answer the
    request at the head of the history they are given; [source_*] is what
    [wp_fetch_all] returns for a resource ([None]: it raised). *)
Record env := Env {
  remote : list event -> response;
  asset : list event -> transfer;
  source_categories : option (list category);
  source_posts : option (list post);
  source_pages : option (list page);
  source_media : option (list media);
  html : soup;
  url_filename : pystr -> pystr;   (* Path(urlparse(url).path).name *)
  str_of : json -> pystr;          (* str(v) of a decoded JSON value *)
  literals : tables;
}.

Abbreviation prog := (eff world).

(** *** Primitive actions *)

Definition get_data : prog data := fun w => (Done (mem w), w).

Definition modify (f : data -> data) : prog unit :=
  fun w => (Done tt, World (f (mem w)) (disk w) (cache w) (trace w)).

Definition emit (ev : event) : prog unit :=
  fun w => (Done tt, World (mem w) (disk w) (cache w) (ev :: trace w)).

(** [state.save()] (lines 116-118). *)
Definition save : prog unit :=
  fun w => (Done tt, World (mem w) (Some (mem w)) (cache w) (StateSaved (mem w) :: trace w)).

(** [state.mark_step(step)] (lines 120-123). *)
Definition mark_step (step : pystr) : prog unit :=
  d <- get_data ;;
  if decide (step ∈ completed_steps d) then ret tt
  else modify (set_completed_steps (fun l => l ++ [step])) ;;; save.

(** [state.is_done(step)] (lines 125-126). *)
Definition is_done (step : pystr) : prog bool :=
  d <- get_data ;; ret (bool_decide (step ∈ completed_steps d)).

(** A request to a service: the reply, or the exception of [requests]. *)
Definition call (E : env) (ev : event) : prog (Z * option json) :=
  emit ev ;;;
  fun w =>
    match remote E (trace w) with
    | Reply status body => (Done (status, body), w)
    | NetError => (Raised, w)
    end.

(** [resp.status_code in (200, 201)]. *)
Definition status_ok (status : Z) : bool := (status =? 200) || (status =? 201).

(** [result = resp.json(); data = result.get("data", result)]. *)
Definition unwrap (body : option json) : option json :=
  result ← body; dict_get result (py "data") result.

(** [data.get("id")] of the unwrapped reply. *)
Definition created_id (body : option json) : option json :=
  data ← unwrap body; dict_get data (py "id") JNull.

(** [wp_fetch_all(endpoint)] (lines 154-176), as one read of the source. *)
Definition wp_fetch_all {A} (resource : pystr) (items : option (list A)) : prog (list A) :=
  emit (WpFetch resource) ;;; lift items.

(** *** Lookup tables (lines 50-88) *)

Record wn_category := WnCategory {
  nomePt : pystr; nomeEn : pystr; nomeDe : pystr; cor : pystr;
}.

Definition WP_CATEGORY_MAP : list (pystr * wn_category) :=
  [ (py "diplomacia", WnCategory (py "Diplomacia") (py "Diplomacy") (py "Diplomatie") (py "#1a237e"));
    (py "politica", WnCategory (py "Pol" ++ [237%N] ++ py "tica") (py "Politics") (py "Politik") (py "#b71c1c"));
    (py "economia", WnCategory (py "Economia") (py "Economy") (py "Wirtschaft") (py "#1b5e20"));
    (py "cultura", WnCategory (py "Cultura") (py "Culture") (py "Kultur") (py "#e65100"));
    (py "desporto", WnCategory (py "Desporto") (py "Sports") (py "Sport") (py "#0d47a1"));
    (py "turismo", WnCategory (py "Turismo") (py "Tourism") (py "Tourismus") (py "#00695c"));
    (py "diaspora", WnCategory (py "Angolanos na Di" ++ [225%N] ++ py "spora") (py "Angolans Abroad")
                               (py "Angolaner im Ausland") (py "#4a148c"));
    (py "reportagem", WnCategory (py "Reportagem") (py "Report") (py "Reportage") (py "#263238"));
    (py "responsabilidade-social", WnCategory (py "Responsabilidade Social") (py "Social Responsibility")
                               (py "Soziale Verantwortung") (py "#880e4f"));
    (py "webinares", WnCategory (py "Webinares") (py "Webinars") (py "Webinare") (py "#311b92"));
    (py "destaques", WnCategory (py "Destaques") (py "Highlights") (py "Highlights") (py "#cc092f")) ].

Record si_page := SiPage { pm_slug : pystr; pm_tipo : pystr; pm_sortOrder : Z }.

Definition WP_PAGE_MAP : list (Z * si_page) :=
  [ (3162, SiPage (py "presidente") (py "INSTITUTIONAL") 1);
    (3191, SiPage (py "poderes-executivo") (py "INSTITUTIONAL") 2);
    (3183, SiPage (py "poderes-legislativo") (py "INSTITUTIONAL") 3);
    (3178, SiPage (py "poderes-judicial") (py "INSTITUTIONAL") 4);
    (3200, SiPage (py "mirex") (py "INSTITUTIONAL") 5);
    (1274, SiPage (py "sobre-angola") (py "INSTITUTIONAL") 0);
    (1282, SiPage (py "demografia") (py "INSTITUTIONAL") 6);
    (1277, SiPage (py "geografia") (py "INSTITUTIONAL") 7);
    (1271, SiPage (py "historia") (py "INSTITUTIONAL") 8);
    (1236, SiPage (py "simbolos") (py "INSTITUTIONAL") 9);
    (1286, SiPage (py "economia") (py "INSTITUTIONAL") 10);
    (71, SiPage (py "embaixada") (py "INSTITUTIONAL") 0);
    (1793, SiPage (py "visto-consular") (py "SERVICE") 1);
    (1796, SiPage (py "visto-territorial") (py "SERVICE") 2);
    (5501, SiPage (py "bilhete-identidade") (py "SERVICE") 3);
    (1582, SiPage (py "impressum") (py "INSTITUTIONAL") 20);
    (1580, SiPage (py "politica-privacidade") (py "INSTITUTIONAL") 21);
    (1578, SiPage (py "politica-cookies") (py "INSTITUTIONAL") 22) ].

(** [WP_PAGE_MAP.get(wp_id)]. *)
Definition page_mapping (wp_id : Z) : option si_page :=
  snd <$> find (fun kv => bool_decide (fst kv = wp_id)) WP_PAGE_MAP.

(** A field set only when its value is truthy ([if v: payload[k] = v]). *)
Definition optional_field (k : pystr) (v : json) : list (pystr * json) :=
  if truthy v then [(k, v)] else [].

(** [state.data[map].get(str(fm))] guarded by [if fm and str(fm) in map]:
    the mapped media id of a featured-media reference, else [None]. *)
Definition featured_image (ids : gmap pystr json) (fm : option Z) : json :=
  match fm with
  | Some z => if z =? 0 then JNull else default JNull (ids !! str_int z)
  | None => JNull
  end.

(** [str(v)] as f-strings and [str()] give it; the [repr] of a list or a
    dict is the library's. *)
Definition py_str (E : env) (v : json) : pystr :=
  match v with
  | JNull => py "None"
  | JBool true => py "True"
  | JBool false => py "False"
  | JNum z => str_int z
  | JStr s => s
  | _ => str_of E v
  end.

(** *** Media download and upload (lines 213-271) *)

(** [download_media(url)]: the cached file when one exists, else a GET
    streamed into the cache; [None] when the GET fails. *)
Definition download_media (E : env) (url : pystr) : prog (option pystr) :=
  fun w =>
    let filename := url_filename E url in
    match cache w !! filename with
    | Some _ => (Done (Some filename), w)
    | None =>
        let history := HttpDownload url :: trace w in
        match asset E history with
        | Transferred content =>
            (Done (Some filename),
             World (mem w) (disk w) (<[filename := content]> (cache w)) history)
        | Refused =>
            (Done None, World (mem w) (disk w) (cache w) history)
        | Interrupted partial =>
            (Done None,
             World (mem w) (disk w) (<[filename := partial]> (cache w)) history)
        end
    end.

(** [upload_media_si] and [upload_media_wn]: the unwrapped reply on 200 or
    201, else [None]. *)
Definition upload_media (E : env) (b : backend) (file_name alt_pt : pystr)
  : prog (option json) :=
  r <- call E (HttpUpload b file_name alt_pt) ;;
  if status_ok (fst r) then
    data <- lift (unwrap (snd r)) ;; ret (Some data)
  else ret None.

(** *** Step 1: categories (lines 276-328) *)

Definition category_payload (cat : category) : json :=
  let mapping := assoc (cat_slug cat) WP_CATEGORY_MAP in
  JObj [ (py "slug", JStr (cat_slug cat));
         (py "nomePt", JStr (from_option nomePt (cat_name cat) mapping));
         (py "nomeEn", JStr (from_option nomeEn [] mapping));
         (py "nomeDe", JStr (from_option nomeDe [] mapping));
         (py "nomeCs", JStr []);
         (py "descricaoPt", JStr (default [] (cat_description cat)));
         (py "cor", JStr (from_option cor (py "#607d8b") mapping));
         (py "sortOrder", JNum (default 0 (cat_count cat))) ].

(** One turn of the loop over [wp_cats]. *)
Definition category_entity (E : env) (dry_run : bool) (cat : category) : prog unit :=
  if decide (cat_slug cat = py "uncategorized") then ret tt else
  d <- get_data ;;
  if decide (is_Some (wp_categories d !! str_int (cat_id cat))) then ret tt else
  let payload := category_payload cat in
  if dry_run then ret tt else
  r <- call E (HttpPost WN Categories payload) ;;
  if status_ok (fst r) then
    wn_id <- lift (created_id (snd r)) ;;
    modify (set_wp_categories (insert (str_int (cat_id cat)) wn_id)) ;;;
    save
  else ret tt.

Definition migrate_categories (E : env) (token : pystr) (dry_run : bool) : prog unit :=
  done <- is_done (py "categories") ;;
  if done then ret tt else
  wp_cats <- wp_fetch_all (py "categories") (source_categories E) ;;
  for_each wp_cats (category_entity E dry_run) ;;;
  if dry_run then ret tt else mark_step (py "categories").

(** *** Step 2: the author (lines 333-370) *)

Definition create_wn_author (E : env) (token : pystr) (dry_run : bool) : prog unit :=
  done <- is_done (py "author") ;;
  if done then ret tt else
  d <- get_data ;;
  if truthy (wn_author_id d) then mark_step (py "author") else
  let payload := author_payload (literals E) in
  if dry_run then ret tt else
  r <- call E (HttpPost WN Authors payload) ;;
  if status_ok (fst r) then
    author <- lift (created_id (snd r)) ;;
    modify (set_wn_author_id author) ;;;
    save ;;;
    mark_step (py "author")
  else ret tt.

(** *** Step 3: posts (lines 375-470) *)

(** The loop of lines 403-406: the target id of the first listed source
    category that has a mapping; [None] when the loop ends without one. *)
Fixpoint first_mapped_category (cats : gmap pystr json) (wp_cat_ids : list Z) : option json :=
  match wp_cat_ids with
  | [] => None
  | wc :: rest =>
      match cats !! str_int wc with
      | Some wn_id => Some wn_id
      | None => first_mapped_category cats rest
      end
  end.

Definition post_payload (E : env) (d : data) (author_id : json) (p : post) : json :=
  let title := get_text (html E) (post_title p) in
  let content := wp_clean_html (html E) (post_content p) in
  let excerpt_html := default [] (post_excerpt p) in
  let excerpt := wp_extract_excerpt (html E) (str_or excerpt_html content) 400 in
  let wn_category_id := default JNull (first_mapped_category (wp_categories d) (post_categories p)) in
  let featured_image_id := featured_image (wp_media_wn d) (post_featured_media p) in
  let slug := if 290 <? len (post_slug p) then slice_to 290 (post_slug p) else post_slug p in
  JObj ([ (py "slug", JStr slug);
          (py "tituloPt", JStr (slice_to 300 title));
          (py "conteudoPt", JStr content);
          (py "excertoPt", JStr (slice_to 500 excerpt));
          (py "metaTituloPt", JStr (slice_to 160 title));
          (py "metaDescricaoPt", JStr (slice_to 320 excerpt));
          (py "featured", JBool false) ]
        ++ optional_field (py "categoryId") wn_category_id
        ++ optional_field (py "authorId") author_id
        ++ optional_field (py "featuredImageId") featured_image_id).

Definition post_entity (E : env) (dry_run : bool) (author_id : json) (p : post) : prog unit :=
  d <- get_data ;;
  if decide (is_Some (wp_posts d !! str_int (post_id p))) then ret tt else
  let payload := post_payload E d author_id p in
  if dry_run then ret tt else
  r <- call E (HttpPost WN Articles payload) ;;
  if status_ok (fst r) then
    article_id <- lift (created_id (snd r)) ;;
    modify (set_wp_posts (insert (str_int (post_id p)) article_id)) ;;;
    save ;;;
    call E (HttpPatch WN (ArticleWorkflow article_id (py "submit")) JNull) ;;;
    call E (HttpPatch WN (ArticleWorkflow article_id (py "review")) JNull) ;;;
    call E (HttpPatch WN (ArticleWorkflow article_id (py "publish")) JNull) ;;;
    ret tt
  else ret tt.

Definition migrate_posts (E : env) (token : pystr) (dry_run : bool) : prog unit :=
  done <- is_done (py "posts") ;;
  if done then ret tt else
  wp_posts <- wp_fetch_all (py "posts") (source_posts E) ;;
  d <- get_data ;;
  let author_id := wn_author_id d in
  for_each wp_posts (post_entity E dry_run author_id) ;;;
  if dry_run then ret tt else mark_step (py "posts").

(** *** Step 4: pages (lines 475-556) *)

Definition page_payload (E : env) (d : data) (mapping : si_page) (p : page) : json :=
  let title := get_text (html E) (page_title p) in
  let content := wp_clean_html (html E) (page_content p) in
  let excerpt := wp_extract_excerpt (html E) content 400 in
  let featured_image_id := featured_image (wp_media_si d) (page_featured_media p) in
  JObj ([ (py "slug", JStr (pm_slug mapping));
          (py "tipo", JStr (pm_tipo mapping));
          (py "sortOrder", JNum (pm_sortOrder mapping));
          (py "translations",
           JArr [ JObj [ (py "idioma", JStr (py "PT"));
                         (py "titulo", JStr (slice_to 300 title));
                         (py "conteudo", JStr content);
                         (py "excerto", JStr (slice_to 500 excerpt));
                         (py "metaTitulo", JStr (slice_to 160 title));
                         (py "metaDescricao", JStr (slice_to 320 excerpt)) ] ]) ]
        ++ optional_field (py "featuredImageId") featured_image_id).

Definition published : json := JObj [ (py "estado", JStr (py "PUBLISHED")) ].

Definition page_entity (E : env) (dry_run : bool) (p : page) : prog unit :=
  d <- get_data ;;
  if decide (is_Some (wp_pages d !! str_int (page_id p))) then ret tt else
  match page_mapping (page_id p) with
  | None => ret tt
  | Some mapping =>
      let payload := page_payload E d mapping p in
      if dry_run then ret tt else
      r <- call E (HttpPost SI Pages payload) ;;
      if status_ok (fst r) then
        page_id' <- lift (created_id (snd r)) ;;
        modify (set_wp_pages (insert (str_int (page_id p)) page_id')) ;;;
        save ;;;
        call E (HttpPatch SI (PageEstado page_id') published) ;;;
        ret tt
      else ret tt
  end.

Definition migrate_pages (E : env) (token : pystr) (dry_run : bool) : prog unit :=
  done <- is_done (py "pages") ;;
  if done then ret tt else
  wp_pages <- wp_fetch_all (py "pages") (source_pages E) ;;
  for_each wp_pages (page_entity E dry_run) ;;;
  if dry_run then ret tt else mark_step (py "pages").

(** *** Step 5: media (lines 561-633) *)

(** The featured-media ids collected at lines 572-586; [fm] counts when it
    is truthy. *)
Definition referenced (fm : option Z) : list Z :=
  match fm with
  | Some z => if z =? 0 then [] else [z]
  | None => []
  end.

Definition post_media_ids (posts : list post) : list Z :=
  posts ≫= (fun p => referenced (post_featured_media p)).

Definition page_media_ids (pages : list page) : list Z :=
  pages ≫= (fun p => match page_mapping (page_id p) with
                      | Some _ => referenced (page_featured_media p)
                      | None => []
                      end).

(** One of the two blocks of the loop body (lines 606-616 and 619-629):
    download, upload to backend [b], record the new id. *)
Definition media_block (E : env) (dry_run : bool) (b : backend) (used_by : list Z)
    (ids : data -> gmap pystr json)
    (record : (gmap pystr json -> gmap pystr json) -> data -> data)
    (m : media) : prog unit :=
  d <- get_data ;;
  if bool_decide (media_id m ∈ used_by)
     && negb (bool_decide (is_Some (ids d !! str_int (media_id m))))
  then
    local_file <- download_media E (media_source_url m) ;;
    match local_file with
    | Some file_name =>
        if dry_run then ret tt else
        uploaded <- upload_media E b file_name (str_or (media_alt_text m) (get_text (html E) (media_title m))) ;;
        match uploaded with
        | Some data =>
            if truthy data then
              new_id <- lift (dict_get data (py "id") JNull) ;;
              modify (record (insert (str_int (media_id m)) new_id)) ;;;
              save
            else ret tt
        | None => ret tt
        end
    | None => ret tt
    end
  else ret tt.

Definition media_entity (E : env) (dry_run : bool) (for_posts for_pages : list Z)
    (m : media) : prog unit :=
  match media_source_url m with
  | [] => ret tt
  | _ =>
      if negb (starts_with (py "image/") (media_mime_type m)) then ret tt else
      media_block E dry_run WN for_posts wp_media_wn set_wp_media_wn m ;;;
      media_block E dry_run SI for_pages wp_media_si set_wp_media_si m
  end.

Definition migrate_media (E : env) (token : pystr) (dry_run : bool) : prog unit :=
  done <- is_done (py "media") ;;
  if done then ret tt else
  wp_media <- wp_fetch_all (py "media") (source_media E) ;;
  wp_posts <- wp_fetch_all (py "posts") (source_posts E) ;;
  wp_pages <- wp_fetch_all (py "pages") (source_pages E) ;;
  for_each wp_media
    (media_entity E dry_run (post_media_ids wp_posts) (page_media_ids wp_pages)) ;;;
  if dry_run then ret tt else mark_step (py "media").

(** *** Step 6: menus (lines 638-797) *)

(** The HEADER half and the FOOTER half are the same code: create the
    menu unless [si_menus] has the location, then post its items. *)
Definition menu_block (E : env) (dry_run : bool) (location nome : pystr)
    (items : list json) : prog unit :=
  d <- get_data ;;
  (if decide (is_Some (si_menus d !! location)) then ret tt else
   let payload := JObj [ (py "nome", JStr nome); (py "localizacao", JStr location) ] in
   if dry_run then ret tt else
   r <- call E (HttpPost SI Menus payload) ;;
   if status_ok (fst r) then
     menu_id <- lift (created_id (snd r)) ;;
     modify (set_si_menus (insert location menu_id)) ;;;
     save
   else ret tt) ;;;
  d <- get_data ;;
  let menu_id := default JNull (si_menus d !! location) in
  if truthy menu_id && negb dry_run then
    for_each items (fun item => call E (HttpPost SI (MenuItems menu_id) item) ;;; ret tt)
  else ret tt.

Definition create_si_menus (E : env) (token : pystr) (dry_run : bool) : prog unit :=
  done <- is_done (py "menus") ;;
  if done then ret tt else
  menu_block E dry_run (py "HEADER") (py "Menu Principal") (header_items (literals E)) ;;;
  menu_block E dry_run (py "FOOTER") (py "Menu Rodap" ++ [233%N]) (footer_items (literals E)) ;;;
  if dry_run then ret tt else mark_step (py "menus").

(** *** Step 7: contacts (lines 802-873) *)

Definition contact_entity (E : env) (dry_run : bool) (contact : json) : prog unit :=
  if dry_run then ret tt else
  r <- call E (HttpPost SI Contacts contact) ;;
  if status_ok (fst r) then
    contact_id <- lift (created_id (snd r)) ;;
    modify (set_si_contacts (fun l => l ++ [contact_id])) ;;;
    save
  else ret tt.

Definition create_si_contacts (E : env) (token : pystr) (dry_run : bool) : prog unit :=
  done <- is_done (py "contacts") ;;
  if done then ret tt else
  for_each (contacts (literals E)) (contact_entity E dry_run) ;;;
  if dry_run then ret tt else mark_step (py "contacts").

(** *** Step 8: additional pages (lines 878-984) *)

Definition additional_pages (E : env) : list (pystr * json) :=
  (fun st : pystr * pystr =>
     (fst st,
      JObj [ (py "slug", JStr (fst st));
             (py "tipo", JStr (snd st));
             (py "sortOrder", JNum 0);
             (py "translations", additional_translations (literals E) (fst st)) ]))
  <$> [ (py "sobre-angola", py "INSTITUTIONAL");
        (py "embaixador", py "INSTITUTIONAL");
        (py "relacoes-bilaterais", py "INSTITUTIONAL");
        (py "servicos-consulares", py "SERVICE") ].

(** [any(v for k, v in state.data["wp_pages"].items() if slug in str(v))]. *)
Definition possibly_exists (E : env) (d : data) (slug : pystr) : bool :=
  existsb (fun kv => contains slug (py_str E (snd kv)) && truthy (snd kv))
          (map_to_list (wp_pages d)).

Definition additional_page_entity (E : env) (dry_run : bool) (sp : pystr * json) : prog unit :=
  let slug := fst sp in
  let page_data := snd sp in
  d <- get_data ;;
  if possibly_exists E d slug then ret tt else
  if dry_run then ret tt else
  r <- call E (HttpPost SI Pages page_data) ;;
  if status_ok (fst r) then
    page_id' <- lift (created_id (snd r)) ;;
    modify (set_wp_pages (insert (py "additional_" ++ slug) page_id')) ;;;
    save ;;;
    call E (HttpPatch SI (PageEstado page_id') published) ;;;
    ret tt
  else ret tt.

Definition create_additional_si_pages (E : env) (token : pystr) (dry_run : bool) : prog unit :=
  done <- is_done (py "additional_pages") ;;
  if done then ret tt else
  for_each (additional_pages E) (additional_page_entity E dry_run) ;;;
  if dry_run then ret tt else mark_step (py "additional_pages").

(** *** The step table and the run (lines 989-1010 and 1058-1062) *)

Definition step_fn : Type := env -> pystr -> bool -> prog unit.

Definition STEPS : list (pystr * step_fn) :=
  [ (py "media", migrate_media);
    (py "categories", migrate_categories);
    (py "author", create_wn_author);
    (py "posts", migrate_posts);
    (py "pages", migrate_pages);
    (py "menus", create_si_menus);
    (py "contacts", create_si_contacts);
    (py "additional_pages", create_additional_si_pages) ].

Definition STEP_ORDER : list pystr :=
  [ py "categories"; py "author"; py "media"; py "posts"; py "pages";
    py "additional_pages"; py "menus"; py "contacts" ].

(** [STEPS[name](token, state, dry_run)]; [KeyError] for an unknown name. *)
Definition run_step (E : env) (token : pystr) (dry_run : bool) (name : pystr) : prog unit :=
  match assoc name STEPS with
  | Some step => step E token dry_run
  | None => raise
  end.

(** [for step_name in STEP_ORDER: STEPS[step_name](token, state, args.dry_run)]. *)
Definition run_all (E : env) (token : pystr) (dry_run : bool) : prog unit :=
  for_each STEP_ORDER (run_step E token dry_run).

End Migrate.

(** ** wp_import_images.py *)

Module ImportImages.

Definition MAX_WIDTH : Z := 1200.
Definition MAX_HEIGHT : Z := 800.

(** The state document (lines 51-58). *)
Record state := State {
  imported : gmap pystr pystr;   (* slug -> media id *)
  failed : list pystr;
  skipped : list pystr;
}.

Definition empty_state : state := State ∅ [] [].

(** A row of [fetch_articles_without_images] (lines 79-91). *)
Record article := Article {
  art_id : pystr;
  art_slug : pystr;
  art_title : option pystr;
}.

(** What [fetch_wp_featured_image] returns (lines 124-130). *)
Record wp_image := WpImage {
  img_url : pystr;
  img_alt_text : pystr;
}.

Inductive event :=
| DbSelect                                   (* the SELECT of fetch_articles_without_images *)
| WpLookup (slug : pystr)                     (* GET posts?slug=... *)
| ImageGet (url : pystr)                      (* GET of the image *)
| BucketExists
| MakeBucket
| PutObject (object_key : pystr) (size : Z)
| InsertMedia (media_id file_name object_key : pystr) (size width height : Z) (alt : pystr)
| LinkArticle (article_id media_id : pystr)
| Commit
| Rollback
| StateWritten (s : state).                   (* STATE_FILE rewritten *)

(** A write to the object store or to the database. *)
Definition is_remote_write (ev : event) : bool :=
  match ev with
  | MakeBucket | PutObject _ _ | InsertMedia _ _ _ _ _ _ _ | LinkArticle _ _ | Commit => true
  | _ => false
  end.

Record world := World {
  st : state;                         (* the dict [state] of main *)
  state_file : option state;          (* STATE_FILE; None: no such file *)
  media_cache : gmap pystr (list N);  (* MEDIA_DIR: file name -> bytes *)
  trace : list event;                 (* newest first *)
}.

(** [load_state()] (lines 51-54). *)
Definition load_state (saved : option state) : state := default empty_state saved.

Definition boot (saved : option state) (files : gmap pystr (list N)) : world :=
  World (load_state saved) saved files [].

Inductive transfer :=
| Transferred (content : list N)
| Refused
| Interrupted (partial : list N).

(** The answer of the object store to a call: done (for [bucket_exists]:
    yes), no, or an exception. *)
Inductive store_answer := StoreYes | StoreNo | StoreError.

(** Everything outside the process; each function answers the request at
    the head of the history it is given. *)
Record env := Env {
  db_articles : option (list article);          (* the SELECT; None: it raised *)
  wp_featured : list event -> option wp_image;  (* fetch_wp_featured_image *)
  image_asset : list event -> transfer;
  store : list event -> store_answer;
  db_ok : list event -> bool;                   (* false: the statement raised *)
  fresh_uuid : list event -> pystr;             (* str(uuid.uuid4()) *)
  url_suffix : pystr -> pystr;                  (* Path(urlparse(url).path).suffix *)
  decode : list N -> option (Z * Z);            (* Image.open(...).convert("RGB").size *)
  encode : list N -> Z * Z -> option (list N);  (* resize when the size differs, then the JPEG bytes *)
}.

Abbreviation prog := (eff world).

Definition get_state : prog state := fun w => (Done (st w), w).

Definition modify (f : state -> state) : prog unit :=
  fun w => (Done tt, World (f (st w)) (state_file w) (media_cache w) (trace w)).

Definition emit (ev : event) : prog unit :=
  fun w => (Done tt, World (st w) (state_file w) (media_cache w) (ev :: trace w)).

Definition history : prog (list event) := fun w => (Done (trace w), w).

Definition get_files : prog (gmap pystr (list N)) := fun w => (Done (media_cache w), w).

(** [save_state(state)] (lines 57-58). *)
Definition save_state : prog unit :=
  fun w => (Done tt, World (st w) (Some (st w)) (media_cache w) (StateWritten (st w) :: trace w)).

Definition add_failed (slug : pystr) (s : state) : state :=
  State (imported s) (failed s ++ [slug]) (skipped s).
Definition add_skipped (slug : pystr) (s : state) : state :=
  State (imported s) (failed s) (skipped s ++ [slug]).
Definition add_imported (slug media_id : pystr) (s : state) : state :=
  State (<[slug := media_id]> (imported s)) (failed s) (skipped s).

(** [MEDIA_DIR / f"{slug}{ext}"] with [ext] the URL's suffix or [".jpg"]
    (lines 140-141). *)
Definition cache_path (E : env) (url slug : pystr) : pystr :=
  slug ++ str_or (url_suffix E url) (py ".jpg").

(** [download_image(url, slug)] (lines 136-156). *)
Definition download_image (E : env) (url slug : pystr) : prog (option pystr) :=
  fun w =>
    let cache_path := cache_path E url slug in
    match media_cache w !! cache_path with
    | Some (_ :: _) => (Done (Some cache_path), w)
    | _ =>
        let h := ImageGet url :: trace w in
        match image_asset E h with
        | Transferred content =>
            (Done (Some cache_path),
             World (st w) (state_file w) (<[cache_path := content]> (media_cache w)) h)
        | Refused | Interrupted _ =>
            (* cache_path.unlink(missing_ok=True) *)
            (Done None,
             World (st w) (state_file w) (delete cache_path (media_cache w)) h)
        end
    end.

(** *** resize_image (lines 159-179) *)

(** [float(n)] for an [int] below 2^63. *)
Definition to_float (z : Z) : float := PrimFloat.of_uint63 (Uint63.of_Z z).

(** [int(x)]: truncation toward zero; [None] for an infinity or a NaN. *)
Definition int_of_float (x : float) : option Z :=
  match Prim2SF x with
  | S754_zero _ => Some 0
  | S754_finite s m e =>
      let v := if 0 <=? e then Z.pos m * 2 ^ e else Z.pos m / 2 ^ (- e) in
      Some (if s then - v else v)
  | _ => None
  end.

(** [min(a, b)] on two floats. *)
Definition float_min (a b : float) : float :=
  if PrimFloat.ltb b a then b else a.

(** The new size (lines 165-171), in IEEE binary64 as Python computes it;
    [None] is the [ZeroDivisionError] of a zero dimension. *)
Definition resize_dims (w h : Z) : option (Z * Z) :=
  if (MAX_WIDTH <? w) || (MAX_HEIGHT <? h) then
    if (w =? 0) || (h =? 0) then None else
    let ratio := float_min (PrimFloat.div (to_float MAX_WIDTH) (to_float w))
                           (PrimFloat.div (to_float MAX_HEIGHT) (to_float h)) in
    new_w ← int_of_float (PrimFloat.mul (to_float w) ratio);
    new_h ← int_of_float (PrimFloat.mul (to_float h) ratio);
    Some (new_w, new_h)
  else Some (w, h).

(** [resize_image(file_path)]: the encoded bytes and the new size, or
    [None] where the source returns [(None, 0, 0)]. *)
Definition resize_image (E : env) (content : list N) : option (list N * Z * Z) :=
  size ← decode E content;
  new_size ← resize_dims (fst size) (snd size);
  buf ← encode E content new_size;
  Some (buf, fst new_size, snd new_size).

(** *** The calls of the publish sequence (lines 182-216) *)

Definition ask_store (E : env) (ev : event) : prog store_answer :=
  emit ev ;;; h <- history ;; ret (store E h).

(** [upload_to_minio(client, image_buf, object_key, size)]: [false] when
    one of its calls raises. *)
Definition upload_to_minio (E : env) (object_key : pystr) (size : Z) : prog bool :=
  present <- ask_store E BucketExists ;;
  match present with
  | StoreError => ret false
  | StoreYes =>
      put <- ask_store E (PutObject object_key size) ;;
      ret (match put with StoreError => false | _ => true end)
  | StoreNo =>
      made <- ask_store E MakeBucket ;;
      match made with
      | StoreError => ret false
      | _ =>
          put <- ask_store E (PutObject object_key size) ;;
          ret (match put with StoreError => false | _ => true end)
      end
  end.

Definition ask_db (E : env) (ev : event) : prog bool :=
  emit ev ;;; h <- history ;; ret (db_ok E h).

(** Lines 295-305: insert, link, commit; on an exception, roll back.
    [false] when an exception was caught. *)
Definition insert_records (E : env) (a : article) (media_id file_name object_key : pystr)
    (size width height : Z) (alt : pystr) : prog bool :=
  inserted <- ask_db E (InsertMedia media_id file_name object_key size width height alt) ;;
  linked <- (if inserted then ask_db E (LinkArticle (art_id a) media_id) else ret false) ;;
  committed <- (if linked then ask_db E Commit else ret false) ;;
  if committed then ret true
  else
    rolled_back <- ask_db E Rollback ;;
    if rolled_back then ret false else raise.

(** *** main (lines 221-320) *)

(** One turn of the loop; [count] is the local [imported], returned
    updated. *)
Definition import_article (E : env) (dry_run : bool) (count : Z) (a : article) : prog Z :=
  let slug := art_slug a in
  s <- get_state ;;
  if decide (is_Some (imported s !! slug)) then ret count else
  emit (WpLookup slug) ;;;
  h <- history ;;
  match wp_featured E h with
  | None => modify (add_skipped slug) ;;; ret count
  | Some wp_img =>
      if dry_run then ret (count + 1) else
      local_path <- download_image E (img_url wp_img) slug ;;
      match local_path with
      | None => modify (add_failed slug) ;;; ret count
      | Some path =>
          files <- get_files ;;
          match resize_image E (default [] (files !! path)) with
          | None => modify (add_failed slug) ;;; ret count
          | Some (image_buf, width, height) =>
              let size := len image_buf in
              h <- history ;;
              let media_id := fresh_uuid E h in
              let file_name := media_id ++ py ".jpg" in
              let object_key := py "articles/" ++ file_name in
              uploaded <- upload_to_minio E object_key size ;;
              if negb uploaded then modify (add_failed slug) ;;; ret count else
              stored <- insert_records E a media_id file_name object_key size width height
                                       (img_alt_text wp_img) ;;
              if negb stored then modify (add_failed slug) ;;; ret count else
              modify (add_imported slug media_id) ;;;
              let count := count + 1 in
              (if count mod 10 =? 0 then save_state else ret tt) ;;;
              ret count
          end
      end
  end.

(** [for i, art in enumerate(articles, 1): ...]. *)
Fixpoint import_loop (E : env) (dry_run : bool) (count : Z) (articles : list article) : prog Z :=
  match articles with
  | [] => ret count
  | a :: rest =>
      count' <- import_article E dry_run count a ;;
      import_loop E dry_run count' rest
  end.

(** [main()] with [--dry-run] and [--limit] parsed. *)
Definition main (E : env) (dry_run : bool) (limit : Z) : prog unit :=
  emit DbSelect ;;;
  articles <- lift (db_articles E) ;;
  let articles := if 0 <? limit then slice_to limit articles else articles in
  import_loop E dry_run 0 articles ;;;
  save_state.

End ImportImages.

(** ** wp_fetch_all, page by page (lines 154-176) *)

Module WpSource.

(** The header [X-WP-TotalPages] of a reply: missing, not a number
    ([int()] raises), or a number. *)
Inductive total_pages_header :=
| HeaderAbsent
| HeaderNotInt
| HeaderInt (n : Z).

(** What the GET of one page comes to.  [RequestFailed] is every
    exception before the batch is in hand: [requests.get] raised,
    [raise_for_status] raised (an error status other than 400), or the
    body is no JSON.  [Batch items h] is a reply whose body decodes to
    the elements [items] (none when the body is empty or null). *)
Inductive page_reply (A : Type) :=
| RequestFailed
| PastLastPage
| Batch (items : list A) (total : total_pages_header).
Arguments RequestFailed {A}.
Arguments PastLastPage {A}.
Arguments Batch {A} items total.

(** [int(resp.headers.get("X-WP-TotalPages", 1))]; [None]: it raises. *)
Definition total_pages (h : total_pages_header) : option Z :=
  match h with
  | HeaderAbsent => Some 1
  | HeaderNotInt => None
  | HeaderInt n => Some n
  end.

(** The [while True] loop from page [page] on, with [items] collected so
    far; [fuel] bounds the number of requests, and [None] says that the
    loop has not ended within it. *)
Fixpoint wp_fetch_pages {A} (fuel : nat) (get : Z -> page_reply A) (page : Z)
    (items : list A) : option (outcome (list A)) :=
  match fuel with
  | O => None
  | S fuel' =>
      match get page with
      | RequestFailed => Some Raised
      | PastLastPage => Some (Done items)
      | Batch [] _ => Some (Done items)
      | Batch batch h =>
          match total_pages h with
          | None => Some Raised
          | Some total =>
              if total <=? page then Some (Done (items ++ batch))
              else wp_fetch_pages fuel' get (page + 1) (items ++ batch)
          end
      end
  end.

(** [wp_fetch_all(endpoint)]: the loop from page 1 with nothing collected. *)
Definition wp_fetch_all_pages {A} (fuel : nat) (get : Z -> page_reply A)
  : option (outcome (list A)) :=
  wp_fetch_pages fuel get 1 [].

End WpSource.

(** ** main of wp_migrate.py (lines 1013-1072) *)

Module MigrateMain.
Import Migrate.

(** The parsed command line. *)
Record args := Args {
  arg_step : option pystr;   (* --step *)
  arg_dry_run : bool;        (* --dry-run *)
  arg_reset : bool;          (* --reset *)
  arg_status : bool;         (* --status *)
}.

(** [STATE_FILE.unlink(missing_ok=True)]. *)
Definition unlink_state : prog unit :=
  fun w => (Done tt, World (mem w) None (cache w) (trace w)).

(** [main()] once [MigrationState()] has loaded the ledger.  [auth] is
    what [get_keycloak_token()] comes to: the token, or [None] when the
    request raises, when Keycloak refuses ([sys.exit(1)]) or when the
    reply holds no token. *)
Definition main (E : env) (auth : option pystr) (a : args) : prog unit :=
  if arg_reset a then unlink_state else
  if arg_status a then ret tt else
  token <- (if arg_dry_run a then ret (py "dry-run-token") else lift auth) ;;
  match arg_step a with
  | Some name => run_step E token (arg_dry_run a) name
  | None => run_all E token (arg_dry_run a)
  end.

End MigrateMain.

(** ** fetch_wp_featured_image (wp_import_images.py, lines 94-133) *)

Module Featured.

(** [v[0]]; [None] where Python raises ([IndexError], [KeyError] on a
    dict decoded from JSON, whose keys are strings, [TypeError]). *)
Definition index0 (v : json) : option json :=
  match v with
  | JArr (x :: _) => Some x
  | JStr (c :: _) => Some (JStr [c])
  | _ => None
  end.

(** [k in v] for a [str] [k]; [None] where Python raises [TypeError]. *)
Definition has_key (v : json) (k : pystr) : option bool :=
  match v with
  | JObj kvs => Some (bool_decide (is_Some (assoc k kvs)))
  | JArr xs => Some (existsb (fun x => match x with
                                       | JStr s => bool_decide (s = k)
                                       | _ => false
                                       end) xs)
  | JStr s => Some (contains k s)
  | _ => None
  end.

(** [v[k]] for a [str] [k]; [None] where Python raises. *)
Definition subscript (v : json) (k : pystr) : option json :=
  match v with
  | JObj kvs => assoc k kvs
  | _ => None
  end.

(** The loop of lines 118-122: the [source_url] of the first size of
    [keys] that [sizes] has, [best] when it has none of them. *)
Fixpoint pick_size (sizes : json) (best : json) (keys : list pystr) : option json :=
  match keys with
  | [] => Some best
  | k :: rest =>
      match has_key sizes k with
      | None => None
      | Some true => entry ← subscript sizes k; dict_get entry (py "source_url") best
      | Some false => pick_size sizes best rest
      end
  end.

Definition size_keys : list pystr := [py "medium_large"; py "large"; py "full"].

(** The dict the function returns. *)
Record featured := FeaturedImage {
  url : json;
  mime_type : json;
  alt_text : json;
  width : json;
  height : json;
}.

(** [fetch_wp_featured_image(slug)], as a function of the reply to its
    GET: [None] for [reply] when [requests.get] raised, the status with
    the body otherwise ([None]: [resp.json()] raises).  The result is
    [None] where the function returns [None], which it also does for
    every exception. *)
Definition fetch_wp_featured_image (reply : option (Z * option json)) : option featured :=
  r ← reply;
  if negb (fst r =? 200) then None else
  body ← snd r;
  if negb (truthy body) then None else
  post ← index0 body;
  embedded ← dict_get post (py "_embedded") (JObj []);
  media_list ← dict_get embedded (py "wp:featuredmedia") (JArr []);
  if negb (truthy media_list) then None else
  media ← index0 media_list;
  source_url ← dict_get media (py "source_url") JNull;
  if negb (truthy source_url) then None else
  details ← dict_get media (py "media_details") (JObj []);
  sizes ← dict_get details (py "sizes") (JObj []);
  best_url ← pick_size sizes source_url size_keys;
  mime ← dict_get media (py "mime_type") (JStr (py "image/jpeg"));
  alt ← dict_get media (py "alt_text") (JStr []);
  w ← dict_get details (py "width") JNull;
  h ← dict_get details (py "height") JNull;
  Some (FeaturedImage best_url mime alt w h).

End Featured.

(** ** Vocabulary of the statements *)

(** BeautifulSoup on text without markup: every extraction is the text. *)
Definition plain_text : soup := Soup (fun s => s) (fun s => s) (fun s => s).

(** A cut after [k] characters of [text] falls inside a word: the
    characters on both sides of the cut are not whitespace. *)
Definition cut_inside_word (text : pystr) (k : nat) : Prop :=
  exists a b, (0 < k)%nat /\ text !! (k - 1)%nat = Some a /\ text !! k = Some b
              /\ is_space a = false /\ is_space b = false.

(** The extracted text is longer than [max_len]. *)
Definition max_len_exceeded_by (text : pystr) (max_len : Z) : Prop :=
  (max_len <? len text) = true.

(** [s] holds no run of three newlines. *)
Definition calm (s : pystr) : Prop :=
  forall pre post, s <> pre ++ [newline; newline; newline] ++ post.

(** [payload[k]] of a request body, when it has the field. *)
Definition payload_field (k : pystr) (payload : json) : option json :=
  match payload with
  | JObj kvs => assoc k kvs
  | _ => None
  end.

(** The state file holds the ledger as it is in memory (no file: the
    ledger is still the empty one). *)
Definition ledger_on_disk (w : Migrate.world) : Prop :=
  Migrate.disk w = Some (Migrate.mem w)
  \/ (Migrate.disk w = None /\ Migrate.mem w = Migrate.empty_data).

(** The step named [name] is marked done in the ledger. *)
Definition marked (name : pystr) (w : Migrate.world) : Prop :=
  name ∈ Migrate.completed_steps (Migrate.mem w).

(** The calls made so far that write to a target service, newest first. *)
Definition remote_writes (w : Migrate.world) : list Migrate.event :=
  filter (fun ev => Migrate.is_remote_write ev = true) (Migrate.trace w).

(** A call to the object store; a statement sent to the database. *)
Definition is_store_call (ev : ImportImages.event) : bool :=
  match ev with
  | ImportImages.BucketExists | ImportImages.MakeBucket | ImportImages.PutObject _ _ => true
  | _ => false
  end.

Definition is_db_statement (ev : ImportImages.event) : bool :=
  match ev with
  | ImportImages.InsertMedia _ _ _ _ _ _ _ | ImportImages.LinkArticle _ _
  | ImportImages.Commit | ImportImages.Rollback => true
  | _ => false
  end.

(** *** Binary64 numbers *)

(** [m] is written with exactly [d] binary digits. *)
Definition bits (m d : Z) : Prop := 2 ^ (d - 1) <= m < 2 ^ d.

(** No one-bit has been shifted out, and none was pending. *)
Definition shr_exact (mrs : shr_record) : bool := negb (shr_r mrs || shr_s mrs).

(** What a location adds to the integer part: nothing when the number is
    the integer part, less than one unit otherwise. *)
Definition slack (lx : location) : Z :=
  match lx with loc_Exact => 0 | _ => 1 end.

(** The positive normal number [m * 2^e] is at most one. *)
Definition le_one (m : positive) (e : Z) : Prop :=
  e <= -52 /\ Zpos m <= 2 ^ (- e).

(** *** Vocabulary of the further properties *)

(** The calls that create an entity. *)
Definition is_post (ev : Migrate.event) : bool :=
  match ev with Migrate.HttpPost _ _ _ => true | _ => false end.

(** Every entry of the id maps stays, the two lists are extended at
    their end, and an author id on record is kept. *)
Definition ledger_grows (d d' : Migrate.data) : Prop :=
  Migrate.wp_categories d ⊆ Migrate.wp_categories d'
  /\ Migrate.wp_posts d ⊆ Migrate.wp_posts d'
  /\ Migrate.wp_media_si d ⊆ Migrate.wp_media_si d'
  /\ Migrate.wp_media_wn d ⊆ Migrate.wp_media_wn d'
  /\ Migrate.si_menus d ⊆ Migrate.si_menus d'
  /\ Migrate.si_contacts d `prefix_of` Migrate.si_contacts d'
  /\ Migrate.completed_steps d `prefix_of` Migrate.completed_steps d'
  /\ (truthy (Migrate.wn_author_id d) = true -> Migrate.wn_author_id d' = Migrate.wn_author_id d).

(** The payload has the text field [k], with at most [n] characters. *)
Definition text_field_within (k : pystr) (n : Z) (payload : json) : Prop :=
  exists s, payload_field k payload = Some (JStr s) /\ len s <= n.

(** A lookup of a featured image on the source. *)
Definition is_lookup (ev : ImportImages.event) : bool :=
  match ev with ImportImages.WpLookup _ => true | _ => false end.

(** The state has only been added to. *)
Definition state_grows (s s' : ImportImages.state) : Prop :=
  ImportImages.imported s ⊆ ImportImages.imported s'
  /\ ImportImages.failed s `prefix_of` ImportImages.failed s'
  /\ ImportImages.skipped s `prefix_of` ImportImages.skipped s'.

(** The number of lookups in a trace. *)
Definition lookups (t : list ImportImages.event) : nat :=
  length (filter (fun ev => is_lookup ev = true) t).

(** The order of two positive normal numbers [m * 2^e] with 53 digits. *)
Definition float_le (m : positive) (e : Z) (m' : positive) (e' : Z) : Prop :=
  e < e' \/ (e = e' /\ Zpos m <= Zpos m').

(** A source that holds [pages], none of them empty, and answers as the
    WordPress REST API does: page [p] with the total in the header, and
    status 400 past the last page. *)
Definition served {A} (pages : list (list A)) (p : Z) : WpSource.page_reply A :=
  if p <? 1 then WpSource.PastLastPage else
  match pages !! Z.to_nat (p - 1) with
  | Some batch => WpSource.Batch batch (WpSource.HeaderInt (Z.of_nat (length pages)))
  | None => WpSource.PastLastPage
  end.

(** The reply to the lookup of a post that has the featured media
    [media] embedded. *)
Definition post_with_media (media : json) : option (Z * option json) :=
  Some (200, Some (JArr [ JObj [ (py "id", JNum 1);
                                  (py "_embedded",
                                   JObj [ (py "wp:featuredmedia", JArr [media]) ]) ] ])).

(** A media object with its own URL and the given sizes. *)
Definition media_with_sizes (source_url : pystr) (sizes : list (pystr * json)) : json :=
  JObj [ (py "source_url", JStr source_url);
         (py "media_details", JObj [ (py "sizes", JObj sizes) ]) ].

(** *** Environments for the worked examples *)

Module Fixtures.
Import Migrate.

Definition no_tables : tables := Tables JNull [] [] [] (fun _ => JNull).

(** A world outside that gives every request the same reply and every
    download the same end; a URL names its own cache file. *)
Definition static_env (reply : response) (end_of_download : transfer)
    (cats : list category) (posts : list post) (pages : list page) (items : list media) : env :=
  Env (fun _ => reply) (fun _ => end_of_download)
      (Some cats) (Some posts) (Some pages) (Some items)
      plain_text (fun url => url) (fun _ => []) no_tables.

(** The reply [{"data": {"id": id}}] with status 201. *)
Definition created (id : pystr) : response :=
  Reply 201 (Some (JObj [ (py "data", JObj [ (py "id", JStr id) ]) ])).

End Fixtures.

Module ImageFixtures.
Import ImportImages.

(** A world outside with fixed answers: every lookup finds [featured],
    every download ends as [end_of_download], the store and the database
    always answer [store_answers] and [db_answers]; images decode to
    800x600 and encode to their own bytes; the n-th request gets the
    identifier ["uuid-n"]. *)
Definition static_env (rows : list article) (featured : option wp_image)
    (end_of_download : transfer) (store_answers : store_answer) (db_answers : bool) : env :=
  Env (Some rows) (fun _ => featured) (fun _ => end_of_download)
      (fun _ => store_answers) (fun _ => db_answers)
      (fun h => py "uuid-" ++ str_int (Z.of_nat (length h)))
      (fun _ => py ".jpg")
      (fun _ => Some (800, 600))
      (fun content _ => Some content).


End ImageFixtures.

(** * Proofs *)

(** ** Text helpers *)

Lemma before_last_Some sep s p :
  before_last sep s = Some p ->
  exists rest, s = p ++ sep :: rest /\ sep ∉ rest.
Proof.
  revert p. induction s as [|c s IH]; intros p; simpl; [discriminate|].
  destruct (before_last sep s) as [q|] eqn:Hq.
  - intros [= <-]. destruct (IH q eq_refl) as (rest & -> & Hrest).
    exists rest. split; [reflexivity | assumption].
  - destruct (decide (c = sep)) as [->|]; [|discriminate].
    intros [= <-]. exists s. split; [reflexivity|].
    clear IH. induction s as [|d s IHs]; [apply not_elem_of_nil|].
    simpl in Hq. destruct (before_last sep s); [discriminate|].
    destruct (decide (d = sep)); [discriminate|].
    apply not_elem_of_cons. split; [congruence | apply IHs; reflexivity].
Qed.

Lemma before_last_None sep s :
  before_last sep s = None <-> sep ∉ s.
Proof.
  induction s as [|c s IH]; simpl.
  - split; [intros _; apply not_elem_of_nil | reflexivity].
  - destruct (before_last sep s) as [q|].
    + split; [discriminate|]. intros Hn. exfalso.
      apply not_elem_of_cons in Hn as [_ Hn].
      destruct IH as [_ IH]. specialize (IH Hn). discriminate.
    + destruct (decide (c = sep)) as [->|Hne].
      * split; [discriminate|]. intros Hn. exfalso. apply Hn. left.
      * split; [|reflexivity]. intros _. apply not_elem_of_cons.
        split; [congruence | apply IH; reflexivity].
Qed.

Lemma rsplit_head_prefix sep s : rsplit_head sep s `prefix_of` s.
Proof.
  unfold rsplit_head. destruct (before_last sep s) as [p|] eqn:Hp; simpl.
  - destruct (before_last_Some _ _ _ Hp) as (rest & -> & _).
    by exists (sep :: rest).
  - reflexivity.
Qed.

Lemma marker_length : length marker = 3%nat.
Proof. reflexivity. Qed.

(** ** C7: excerpt truncation *)

(** C7, as the code has it.  When the extracted text is longer than
    [max_len], the excerpt is a prefix [kept] of the first [max_len]
    characters followed by the marker, so it has at most [max_len + 3]
    characters.  If those first [max_len] characters contain a space,
    [kept] stops right before the last such space: the cut is at a word
    boundary.  If they contain none, [kept] is all [max_len] characters:
    the text is cut where it stands. *)
Theorem excerpt_truncation (B : soup) (content : pystr) (max_len : Z) :
  content <> [] ->
  0 <= max_len ->
  max_len < len (get_text_stripped B content) ->
  let text := get_text_stripped B content in
  let cut := take (Z.to_nat max_len) text in
  exists kept,
    wp_extract_excerpt B content max_len = kept ++ marker
    /\ kept `prefix_of` cut
    /\ len (wp_extract_excerpt B content max_len) <= max_len + 3
    /\ (space ∈ cut ->
        text !! length kept = Some space
        /\ (space ∉ drop (S (length kept)) cut)
        /\ ~ cut_inside_word text (length kept))
    /\ (space ∉ cut -> kept = cut).
Proof.
  intros Hne Hpos Hlen text cut.
  assert (Hex : wp_extract_excerpt B content max_len = rsplit_head space cut ++ marker).
  { unfold wp_extract_excerpt. destruct content as [|c content]; [done|].
    fold text. destruct (max_len <? len text) eqn:Hlt;
      [|apply Z.ltb_ge in Hlt; unfold text in Hlt; lia].
    unfold slice_to. destruct (0 <=? max_len) eqn:Hle;
      [reflexivity | apply Z.leb_gt in Hle; lia]. }
  assert (Hcut : length cut = Z.to_nat max_len).
  { unfold cut. rewrite length_take. unfold len in Hlen. fold text in Hlen. lia. }
  exists (rsplit_head space cut). split; [exact Hex|].
  pose proof (rsplit_head_prefix space cut) as Hpre.
  split; [exact Hpre|]. split.
  { rewrite Hex. unfold len. rewrite length_app, marker_length.
    apply prefix_length in Hpre. lia. }
  unfold rsplit_head in *.
  destruct (before_last space cut) as [p|] eqn:Hp; simpl in *.
  - destruct (before_last_Some _ _ _ Hp) as (rest & Hsplit & Hrest).
    split.
    + intros _.
      assert (Hat : text !! length p = Some space).
      { assert (Hc : cut !! length p = Some space).
        { rewrite Hsplit. by rewrite list_lookup_middle. }
        unfold cut in Hc. apply lookup_take_Some in Hc. tauto. }
      split; [exact Hat|]. split.
      * rewrite Hsplit, cons_middle, app_assoc.
        rewrite drop_app_length'; [exact Hrest|].
        rewrite length_app. simpl. lia.
      * intros (a & b & _ & _ & Hb & _ & Hsp). rewrite Hat in Hb.
        injection Hb as <-. discriminate.
    + intros Hn. exfalso. apply Hn. rewrite Hsplit.
      apply elem_of_app. right. left.
  - split.
    + intros Hin. apply before_last_None in Hp. contradiction.
    + reflexivity.
Qed.

(** The witness of C7: ["ab cd ef"] cut at 4 keeps ["ab"]. *)
Lemma excerpt_truncation_witness :
  exists kept,
    wp_extract_excerpt plain_text (py "ab cd ef") 4 = kept ++ marker
    /\ kept `prefix_of` take 4 (py "ab cd ef")
    /\ len (wp_extract_excerpt plain_text (py "ab cd ef") 4) <= 4 + 3
    /\ (space ∈ take 4 (py "ab cd ef") ->
        py "ab cd ef" !! length kept = Some space
        /\ (space ∉ drop (S (length kept)) (take 4 (py "ab cd ef")))
        /\ ~ cut_inside_word (py "ab cd ef") (length kept))
    /\ (space ∉ take 4 (py "ab cd ef") -> kept = take 4 (py "ab cd ef")).
Proof.
  apply (excerpt_truncation plain_text (py "ab cd ef") 4).
  - discriminate.
  - lia.
  - vm_compute. reflexivity.
Defined.

(** C7 as stated fails: a text whose first [max_len] characters hold no
    space is cut in the middle of the word. *)
Lemma excerpt_cuts_unbroken_word :
  wp_extract_excerpt plain_text (py "abcdef") 3 = py "abc" ++ marker
  /\ max_len_exceeded_by (py "abcdef") 3
  /\ cut_inside_word (py "abcdef") 3.
Proof.
  split; [reflexivity|]. split; [vm_compute; reflexivity|].
  exists 99%N, 100%N. repeat split; try reflexivity. lia.
Qed.

(** ** Reasoning about computations *)

(** [m] keeps [P]: whatever the outcome, also when an exception escapes. *)
Definition preserves {W A} (P : W -> Prop) (m : eff W A) : Prop :=
  forall w, P w -> P (final m w).

(** [m] establishes [Q] when it returns. *)
Definition ensures {W A} (m : eff W A) (Q : W -> Prop) : Prop :=
  forall w a w', m w = (Done a, w') -> Q w'.


Lemma bind_done {W A B} (m : eff W A) (k : A -> eff W B) w a w' :
  m w = (Done a, w') -> bind m k w = k a w'.
Proof. unfold bind. intros ->. reflexivity. Qed.

Lemma bind_raised {W A B} (m : eff W A) (k : A -> eff W B) w w' :
  m w = (Raised, w') -> bind m k w = (Raised, w').
Proof. unfold bind. intros ->. reflexivity. Qed.

Lemma bind_inv {W A B} (m : eff W A) (k : A -> eff W B) w b w' :
  bind m k w = (Done b, w') ->
  exists a w1, m w = (Done a, w1) /\ k a w1 = (Done b, w').
Proof.
  unfold bind. destruct (m w) as [[a|] w1]; [|discriminate].
  intros H. exists a, w1. split; [reflexivity | exact H].
Qed.

Lemma preserves_ret {W A} (P : W -> Prop) (a : A) : preserves P (ret a).
Proof. intros w H. exact H. Qed.

Lemma preserves_raise {W A} (P : W -> Prop) : preserves P (@raise W A).
Proof. intros w H. exact H. Qed.

Lemma preserves_lift {W A} (P : W -> Prop) (o : option A) : preserves P (lift o).
Proof. destruct o; [apply preserves_ret | apply preserves_raise]. Qed.

Lemma preserves_bind {W A B} (P : W -> Prop) (m : eff W A) (k : A -> eff W B) :
  preserves P m -> (forall a, preserves P (k a)) -> preserves P (bind m k).
Proof.
  intros Hm Hk w Hw. unfold final, bind. specialize (Hm w Hw). unfold final in Hm.
  destruct (m w) as [[a|] w1]; simpl in *; [|exact Hm].
  apply (Hk a w1 Hm).
Qed.

Lemma preserves_for_each {W A} (P : W -> Prop) (xs : list A) (body : A -> eff W unit) :
  (forall x, preserves P (body x)) -> preserves P (for_each xs body).
Proof.
  intros Hb. induction xs as [|x xs IH]; simpl.
  - apply preserves_ret.
  - apply preserves_bind; [apply Hb | intros _; exact IH].
Qed.

Lemma ensures_bind {W A B} (m : eff W A) (k : A -> eff W B) (Q : W -> Prop) :
  (forall a, ensures (k a) Q) -> ensures (bind m k) Q.
Proof.
  intros Hk w b w' H. apply bind_inv in H as (a & w1 & _ & H).
  exact (Hk a w1 b w' H).
Qed.


Module MigrateFacts.
Import Migrate.

(** ** C10: mark_step *)

Lemma mark_step_present step w :
  step ∈ completed_steps (mem w) -> mark_step step w = (Done tt, w).
Proof.
  intros H. unfold mark_step, bind, get_data. simpl.
  destruct (decide (step ∈ completed_steps (mem w))); [reflexivity | contradiction].
Qed.

Lemma mark_step_absent step w :
  step ∉ completed_steps (mem w) ->
  mark_step step w =
    (Done tt,
     let d := set_completed_steps (fun l => l ++ [step]) (mem w) in
     World d (Some d) (cache w) (StateSaved d :: trace w)).
Proof.
  intros H. unfold mark_step, bind, get_data. simpl.
  destruct (decide (step ∈ completed_steps (mem w))); [contradiction | reflexivity].
Qed.

Lemma mark_step_marks step w :
  step ∈ completed_steps (mem (final (mark_step step) w)).
Proof.
  unfold final. destruct (decide (step ∈ completed_steps (mem w))) as [H|H].
  - rewrite (mark_step_present _ _ H). exact H.
  - rewrite (mark_step_absent _ _ H). simpl. apply elem_of_app. right. by left.
Qed.

(** C10.  [mark_step] appends the name only when it is absent; a second
    call for the same name changes neither the ledger, nor the state file,
    nor the trace; a ledger without duplicates stays without duplicates,
    and so any sequence of [mark_step] calls on a fresh ledger leaves
    [completed_steps] duplicate-free. *)
Theorem mark_step_idempotent (step : pystr) (w : world) :
  let w1 := final (mark_step step) w in
  completed_steps (mem w1) =
    (if decide (step ∈ completed_steps (mem w))
     then completed_steps (mem w)
     else completed_steps (mem w) ++ [step])
  /\ mark_step step w1 = (Done tt, w1)
  /\ (NoDup (completed_steps (mem w)) -> NoDup (completed_steps (mem w1)))
  /\ (forall steps files,
        NoDup (completed_steps (mem (final (for_each steps mark_step) (boot None files))))).
Proof.
  assert (Hnodup : forall s v, NoDup (completed_steps (mem v)) ->
                          NoDup (completed_steps (mem (final (mark_step s) v)))).
  { intros s v Hv. unfold final.
    destruct (decide (s ∈ completed_steps (mem v))) as [H|H].
    - rewrite (mark_step_present _ _ H). exact Hv.
    - rewrite (mark_step_absent _ _ H). simpl.
      apply NoDup_app. split; [exact Hv|]. split.
      + intros x Hx Hx'. apply list_elem_of_singleton in Hx'. subst. contradiction.
      + apply NoDup_singleton. }
  intros w1. split; [|split; [|split]].
  - unfold w1, final. destruct (decide (step ∈ completed_steps (mem w))) as [H|H].
    + rewrite (mark_step_present _ _ H). reflexivity.
    + rewrite (mark_step_absent _ _ H). reflexivity.
  - apply mark_step_present. apply mark_step_marks.
  - apply Hnodup.
  - intros steps files.
    apply (preserves_for_each (fun v => NoDup (completed_steps (mem v)))).
    + intros s v. apply Hnodup.
    + simpl. apply NoDup_nil_2.
Qed.

(** The witness of C10: marking ["posts"] on a ledger that has ["categories"]. *)
Lemma mark_step_idempotent_witness :
  NoDup (completed_steps (mem (final (mark_step (py "posts"))
           (World (set_completed_steps (fun _ => [py "categories"]) empty_data) None ∅ [])))).
Proof.
  apply (proj1 (proj2 (proj2 (mark_step_idempotent (py "posts")
           (World (set_completed_steps (fun _ => [py "categories"]) empty_data) None ∅ []))))).
  apply NoDup_singleton.
Defined.


(** ** C9: the category of an article *)

Lemma assoc_app {V} k (l1 l2 : list (pystr * V)) :
  assoc k (l1 ++ l2) = match assoc k l1 with Some v => Some v | None => assoc k l2 end.
Proof.
  induction l1 as [|[k' v] l1 IH]; simpl; [reflexivity|].
  destruct (decide (k = k')); [reflexivity | exact IH].
Qed.

Lemma assoc_optional_same k v (rest : list (pystr * json)) :
  assoc k (optional_field k v ++ rest) = if truthy v then Some v else assoc k rest.
Proof.
  unfold optional_field. destruct (truthy v); simpl; [|reflexivity].
  destruct (decide (k = k)); [reflexivity | contradiction].
Qed.

Lemma assoc_optional_other k k' v (rest : list (pystr * json)) :
  k <> k' -> assoc k (optional_field k' v ++ rest) = assoc k rest.
Proof.
  intros Hne. unfold optional_field. destruct (truthy v); simpl; [|reflexivity].
  destruct (decide (k = k')); [contradiction | reflexivity].
Qed.

Lemma first_mapped_Some cats ids v :
  first_mapped_category cats ids = Some v <->
  exists before wc after,
    ids = before ++ wc :: after
    /\ Forall (fun c => cats !! str_int c = None) before
    /\ cats !! str_int wc = Some v.
Proof.
  induction ids as [|c ids IH]; simpl.
  - split; [discriminate|]. intros (before & wc & after & H & _).
    destruct before; discriminate.
  - destruct (cats !! str_int c) as [u|] eqn:Hc.
    + split.
      * intros [= ->]. exists [], c, ids. repeat split; [constructor | exact Hc].
      * intros (before & wc & after & H & Hall & Hwc).
        destruct before as [|b before]; simpl in H; injection H as -> ->.
        -- congruence.
        -- apply Forall_cons in Hall as [Hb _]. congruence.
    + rewrite IH. split.
      * intros (before & wc & after & -> & Hall & Hwc).
        exists (c :: before), wc, after. repeat split; [constructor; assumption | exact Hwc].
      * intros (before & wc & after & H & Hall & Hwc).
        destruct before as [|b before]; simpl in H; injection H as -> ->.
        -- congruence.
        -- apply Forall_cons in Hall as [_ Hall].
           exists before, wc, after. repeat split; assumption.
Qed.

Lemma first_mapped_None cats ids :
  first_mapped_category cats ids = None <->
  Forall (fun c => cats !! str_int c = None) ids.
Proof.
  induction ids as [|c ids IH]; simpl.
  - split; [constructor | reflexivity].
  - destruct (cats !! str_int c) as [u|] eqn:Hc.
    + split; [discriminate|]. intros H. apply Forall_cons in H as [H _]. congruence.
    + rewrite IH. split; [intros H; constructor; assumption|].
      intros H. apply Forall_cons in H as [_ H]. exact H.
Qed.

(** C9.  The loop of [migrate_posts] finds the target id of the first
    listed source category that has a mapping (the listed ones before it
    have none), and finds nothing exactly when no listed category has
    one.  The payload carries that id as [categoryId]; with nothing found
    the field is left out, and the payload is built all the same.  ([if
    wn_category_id:] also leaves out a null, zero or empty id; the
    services hand out none.) *)
Theorem post_category_first_found (E : env) (d : data) (author_id : json) (p : post) :
  let found := first_mapped_category (wp_categories d) (post_categories p) in
  (forall v, found = Some v <->
     exists before wc after,
       post_categories p = before ++ wc :: after
       /\ Forall (fun c => wp_categories d !! str_int c = None) before
       /\ wp_categories d !! str_int wc = Some v)
  /\ (found = None <-> Forall (fun c => wp_categories d !! str_int c = None) (post_categories p))
  /\ payload_field (py "categoryId") (post_payload E d author_id p)
     = (v ← found; if truthy v then Some v else None)
  /\ (forall v, found = Some v -> truthy v = true ->
        payload_field (py "categoryId") (post_payload E d author_id p) = Some v)
  /\ (found = None ->
        payload_field (py "categoryId") (post_payload E d author_id p) = None).
Proof.
  intros found.
  assert (Hfield : payload_field (py "categoryId") (post_payload E d author_id p)
                   = (v ← found; if truthy v then Some v else None)).
  { unfold post_payload, payload_field. fold found.
    rewrite assoc_app.
    match goal with |- match ?x with _ => _ end = _ =>
      replace x with (@None json) by (vm_compute; reflexivity) end.
    rewrite assoc_optional_same.
    destruct found as [v|]; simpl.
    - destruct (truthy v); [reflexivity|].
      rewrite assoc_optional_other by (intros H; vm_compute in H; discriminate).
      rewrite <- (app_nil_r (optional_field _ _)).
      rewrite assoc_optional_other by (intros H; vm_compute in H; discriminate).
      reflexivity.
    - rewrite assoc_optional_other by (intros H; vm_compute in H; discriminate).
      rewrite <- (app_nil_r (optional_field _ _)).
      rewrite assoc_optional_other by (intros H; vm_compute in H; discriminate).
      reflexivity. }
  split; [intros v; apply first_mapped_Some|].
  split; [apply first_mapped_None|].
  split; [exact Hfield|]. split.
  - intros v Hv Ht. rewrite Hfield, Hv. simpl. rewrite Ht. reflexivity.
  - intros Hv. rewrite Hfield, Hv. reflexivity.
Qed.

(** The scenario of the spec: two source categories, only the second one
    mapped; the article gets the second one's target id. *)
Lemma post_category_first_found_example :
  payload_field (py "categoryId")
    (post_payload (Fixtures.static_env NetError Refused [] [] [] [])
       (set_wp_categories (fun _ => {[ str_int 5 := JStr (py "wn-5") ]}) empty_data)
       JNull
       (Post 77 (py "visita") (py "Visita") (py "texto") None [3; 5] None))
  = Some (JStr (py "wn-5")).
Proof.
  apply (proj1 (proj2 (proj2 (proj2 (post_category_first_found _ _ _ _))))).
  - vm_compute. reflexivity.
  - reflexivity.
Defined.

(** ** C5: the media cache of wp_migrate.py *)

(** C5, at the input where [download_media] departs from it: a cached
    file of zero bytes is returned as a cache hit, without a download. *)
Theorem download_media_reuses_empty_file (E : env) (url : pystr) (d : data)
    (saved : option data) (files : gmap pystr (list N)) (tr : list event) :
  let w := World d saved (<[url_filename E url := []]> files) tr in
  download_media E url w = (Done (Some (url_filename E url)), w).
Proof.
  intros w. unfold download_media, w. simpl.
  rewrite lookup_insert_eq. reflexivity.
Qed.

(** How such a file comes to be: a transfer that breaks off before the
    first chunk leaves it behind, and the next call takes it for the
    asset. *)
Lemma download_media_interrupted_then_hit :
  let E := Fixtures.static_env NetError (Interrupted []) [] [] [] [] in
  let url := py "logo.png" in
  let w1 := final (download_media E url) (boot None ∅) in
  result (download_media E url) (boot None ∅) = Done None
  /\ cache w1 !! url = Some []
  /\ download_media E url w1 = (Done (Some url), w1).
Proof. vm_compute. repeat split; reflexivity. Qed.


(** ** Invariants of the steps *)

(** A property of the ledger and the state file alone. *)
Definition ledger_only (P : world -> Prop) : Prop :=
  forall d dk c t c' t', P (World d dk c t) -> P (World d dk c' t').

Lemma preserves_get_data P : preserves P get_data.
Proof. intros w H. exact H. Qed.

Lemma preserves_is_done P name : preserves P (is_done name).
Proof. intros w H. exact H. Qed.

Lemma preserves_emit P ev :
  (forall w, P w -> P (World (mem w) (disk w) (cache w) (ev :: trace w))) ->
  preserves P (emit ev).
Proof. intros H w Hw. apply H, Hw. Qed.

Lemma preserves_call P E ev :
  (forall w, P w -> P (World (mem w) (disk w) (cache w) (ev :: trace w))) ->
  preserves P (call E ev).
Proof.
  intros H w Hw. unfold final, call, bind, emit. simpl.
  destruct (remote E (ev :: trace w)); simpl; apply H, Hw.
Qed.

Lemma preserves_modify P f :
  (forall w, P w -> P (World (f (mem w)) (disk w) (cache w) (trace w))) ->
  preserves P (modify f).
Proof. intros H w Hw. apply H, Hw. Qed.

Lemma preserves_save P :
  (forall w, P w -> P (World (mem w) (Some (mem w)) (cache w) (StateSaved (mem w) :: trace w))) ->
  preserves P save.
Proof. intros H w Hw. apply H, Hw. Qed.

Lemma preserves_wp_fetch_all {A} P resource (items : option (list A)) :
  (forall w, P w -> P (World (mem w) (disk w) (cache w) (WpFetch resource :: trace w))) ->
  preserves P (wp_fetch_all resource items).
Proof.
  intros H. unfold wp_fetch_all. apply preserves_bind.
  - apply preserves_emit, H.
  - intros _. apply preserves_lift.
Qed.

Lemma preserves_download_media P E url :
  (forall w c, P w -> P (World (mem w) (disk w) c (HttpDownload url :: trace w))) ->
  preserves P (download_media E url).
Proof.
  intros H w Hw. unfold final, download_media.
  destruct (cache w !! url_filename E url); simpl; [exact Hw|].
  destruct (asset E (HttpDownload url :: trace w)); simpl; apply H, Hw.
Qed.

Lemma ledger_only_frame P w c t :
  ledger_only P -> P w -> P (World (mem w) (disk w) c t).
Proof. intros HP Hw. destruct w as [d dk c0 t0]. simpl. exact (HP _ _ _ _ _ _ Hw). Qed.

(** Takes a computation apart along its syntax; [leaf] closes the goals
    about single actions. *)
Ltac pres_walk leaf :=
  repeat first
    [ progress cbv beta iota zeta
    | leaf
    | apply preserves_ret
    | apply preserves_raise
    | apply preserves_lift
    | apply preserves_get_data
    | apply preserves_is_done
    | apply preserves_for_each; intros ?
    | apply preserves_bind; [|intros ?]
    | match goal with
      | |- preserves _ (if ?c then _ else _) => destruct c
      | |- preserves _ (match ?x with _ => _ end) => destruct x
      end ].

(** *** The state file follows the ledger *)

Lemma ledger_on_disk_ledger_only : ledger_only ledger_on_disk.
Proof. intros d dk c t c' t' H. exact H. Qed.
















(** *** A mark in the ledger stays *)



(** *** A step that returns has marked itself *)

Lemma ensures_mark_step name : ensures (mark_step name) (marked name).
Proof.
  intros w a w' H. pose proof (mark_step_marks name w) as Hm.
  unfold final in Hm. rewrite H in Hm. exact Hm.
Qed.

Lemma ensures_guarded name (rest : prog unit) :
  ensures rest (marked name) ->
  ensures (done <- is_done name ;; if done then ret tt else rest) (marked name).
Proof.
  intros Hrest w a w' H. unfold bind, is_done, get_data, ret in H. simpl in H.
  destruct (bool_decide (name ∈ completed_steps (mem w))) eqn:Hd.
  - injection H as _ <-. apply bool_decide_eq_true in Hd. exact Hd.
  - exact (Hrest w a w' H).
Qed.

Ltac marks_walk :=
  apply ensures_guarded;
  repeat (cbv beta iota;
          lazymatch goal with
          | |- ensures (mark_step _) _ => fail
          | |- ensures (bind _ _) _ => apply ensures_bind; intros ?
          end);
  apply ensures_mark_step.

Lemma step_marks_itself E token name step :
  (name, step) ∈ STEPS -> name <> py "author" ->
  ensures (step E token false) (marked name).
Proof.
  intros H Hna. unfold STEPS in H.
  repeat (apply elem_of_cons in H as [H|H]; [injection H as -> ->|]);
    try (by apply elem_of_nil in H); try contradiction;
    [ unfold migrate_media | unfold migrate_categories
    | unfold migrate_posts | unfold migrate_pages | unfold create_si_menus
    | unfold create_si_contacts | unfold create_additional_si_pages ];
    marks_walk.
Qed.

(** *** A step already marked does nothing *)






(** *** An entity already mapped is passed over *)


Lemma post_entity_mapped E dry author p w :
  is_Some (wp_posts (mem w) !! str_int (post_id p)) ->
  post_entity E dry author p w = (Done tt, w).
Proof.
  intros H. unfold post_entity, bind, get_data. simpl.
  destruct (decide (is_Some (wp_posts (mem w) !! str_int (post_id p))));
    [reflexivity | contradiction].
Qed.

Lemma page_entity_mapped E dry p w :
  is_Some (wp_pages (mem w) !! str_int (page_id p)) ->
  page_entity E dry p w = (Done tt, w).
Proof.
  intros H. unfold page_entity, bind, get_data. simpl.
  destruct (decide (is_Some (wp_pages (mem w) !! str_int (page_id p))));
    [reflexivity | contradiction].
Qed.



(** *** A completed run leaves nothing to a second one *)

Lemma assoc_elem_of {V} k (l : list (pystr * V)) v :
  assoc k l = Some v -> (k, v) ∈ l.
Proof.
  induction l as [|[k' v'] l IH]; simpl; [discriminate|].
  destruct (decide (k = k')) as [->|].
  - intros [= ->]. by left.
  - intros H. right. exact (IH H).
Qed.




(** ** C1: a second run *)




(** ** Dry runs of wp_migrate.py *)

Ltac dry_leaf :=
  first
    [ progress (simpl negb; rewrite ?andb_false_r)
    | apply preserves_emit; intros [? ? ? ?] ?; assumption
    | apply preserves_wp_fetch_all; intros [? ? ? ?] ?; assumption
    | apply preserves_download_media; intros [? ? ? ?] ? ?; assumption
    | apply preserves_save; intros [? ? ? ?] ?; assumption
    | apply preserves_modify; intros [? ? ? ?] ?; assumption ].

Ltac unfold_steps :=
  unfold migrate_media, media_entity, media_block, upload_media,
         migrate_categories, category_entity, create_wn_author,
         migrate_posts, post_entity, migrate_pages, page_entity,
         create_si_menus, menu_block, create_si_contacts, contact_entity,
         create_additional_si_pages, additional_page_entity, mark_step.

(** No step of a dry run calls a target service. *)
Lemma dry_run_makes_no_remote_write E token name step (ws : list event) :
  (name, step) ∈ STEPS ->
  preserves (fun w => remote_writes w = ws) (step E token true).
Proof.
  intros H. unfold STEPS in H.
  repeat (apply elem_of_cons in H as [H|H]; [injection H as _ ->|]);
    try (by apply elem_of_nil in H);
    unfold_steps; pres_walk dry_leaf.
Qed.

(** Except for the author step, a dry run leaves the ledger and the state
    file as they are. *)
Lemma dry_run_keeps_ledger E token name step (d : data) (dk : option data) :
  (name, step) ∈ STEPS -> name <> py "author" ->
  preserves (fun w => mem w = d /\ disk w = dk) (step E token true).
Proof.
  intros H Hna. unfold STEPS in H.
  repeat (apply elem_of_cons in H as [H|H]; [injection H as -> ->|]);
    try (by apply elem_of_nil in H); try contradiction;
    unfold_steps;
    pres_walk ltac:(first
      [ progress (simpl negb; rewrite ?andb_false_r)
      | apply preserves_emit; intros [? ? ? ?] ?; assumption
      | apply preserves_wp_fetch_all; intros [? ? ? ?] ?; assumption
      | apply preserves_download_media; intros [? ? ? ?] ? ?; assumption ]).
Qed.


(** A dry run of the author step on a ledger that has the author id but
    not the mark: the mark is added and the state file rewritten. *)
Lemma dry_run_author_marks_and_saves :
  let E := Fixtures.static_env NetError Refused [] [] [] [] in
  let d := set_wn_author_id (JStr (py "a-1")) empty_data in
  let d' := set_completed_steps (fun _ => [py "author"]) d in
  create_wn_author E (py "dry-run-token") true (World d (Some d) ∅ [])
  = (Done tt, World d' (Some d') ∅ [StateSaved d']).
Proof. vm_compute. reflexivity. Qed.

End MigrateFacts.

Module ImportImagesFacts.
Import ImportImages.

Local Arguments py : simpl never.
Local Arguments cache_path : simpl never.
Local Arguments resize_image : simpl never.
Local Arguments len : simpl never.
Local Arguments from_option : simpl never.

(** Runs the computation in [H : m w = (r, w')] symbolically, one goal
    per path through it; [H] becomes the equation of the result and [w']
    the world the path leaves. *)
Ltac exec H :=
  unfold import_article, upload_to_minio, insert_records, ask_store, ask_db,
         download_image, bind, ret, raise, lift, get_state, get_files,
         modify, emit, history, save_state in H;
  simpl in H;
  repeat (match type of H with
          | context [match ?x with _ => _ end] =>
              lazymatch x with
              | context [match _ with _ => _ end] => fail
              | _ => destruct x eqn:?; simpl in H
              end
          end);
  first [ discriminate H | apply pair_equal_spec in H as [H <-] ].

(** The events of [l] down to the old trace [t]. *)
Ltac events_since l t :=
  lazymatch l with
  | t => constr:(@nil event)
  | ?x :: ?l' => let p := events_since l' t in constr:(x :: p)
  end.

Lemma cons_eq_inv {A} (x y : A) (l k : list A) :
  x :: l = y :: k -> x = y /\ l = k.
Proof. intros [= -> ->]. split; reflexivity. Qed.

(** Finds where [ev] sits in a literal list [later ++ ev :: earlier]:
    one goal per position, [Heq] equating the event there with [ev]. *)
Ltac locate Heq later :=
  repeat (destruct later as [|? later]; simpl in Heq;
          [ | apply cons_eq_inv in Heq as [<- Heq] ]);
  try (destruct later; discriminate Heq);
  apply cons_eq_inv in Heq as [Heq <-].

(** ** C4: the publish sequence *)

(** C4.  [new] is what one turn of the loop adds to the trace, newest
    first.  An [InsertMedia] in it comes right after the [PutObject] of
    the same object key, and the store accepted that put; a call to the
    store that raises is the last event of the turn, so no insert
    follows it.  When the store or the database raises, when the
    download does not complete, or when the image cannot be transformed,
    the [imported] map is what it was; it gains the article's slug only
    in a turn whose [Commit] succeeded. *)
Theorem publish_sequence (E : env) (count : Z) (a : article) (w : world) :
  let w' := final (import_article E false count a) w in
  exists new,
    trace w' = new ++ trace w
    /\ (forall later id f key size wd ht alt earlier,
          new = later ++ InsertMedia id f key size wd ht alt :: earlier ->
          exists rest, earlier = PutObject key size :: rest
                       /\ store E (earlier ++ trace w) <> StoreError)
    /\ (forall later ev earlier,
          new = later ++ ev :: earlier ->
          is_store_call ev = true -> store E (ev :: earlier ++ trace w) = StoreError ->
          later = [] /\ imported (st w') = imported (st w))
    /\ (forall later ev earlier,
          new = later ++ ev :: earlier ->
          is_db_statement ev = true -> db_ok E (ev :: earlier ++ trace w) = false ->
          imported (st w') = imported (st w))
    /\ (forall later url earlier,
          new = later ++ ImageGet url :: earlier ->
          (forall content, image_asset E (ImageGet url :: earlier ++ trace w) <> Transferred content) ->
          later = [] /\ imported (st w') = imported (st w))
    /\ (forall img,
          wp_featured E (WpLookup (art_slug a) :: trace w) = Some img ->
          resize_image E (default [] (media_cache w' !! cache_path E (img_url img) (art_slug a))) = None ->
          imported (st w') = imported (st w))
    /\ (imported (st w') = imported (st w)
        \/ exists id rest,
             imported (st w') = <[art_slug a := id]> (imported (st w))
             /\ (new = Commit :: rest \/ exists s, new = StateWritten s :: Commit :: rest)
             /\ db_ok E (Commit :: rest ++ trace w) = true).
Proof.
  intros w'. subst w'. unfold final.
  destruct (import_article E false count a w) as [r w'] eqn:H. simpl snd.
  exec H.
  all: simpl.
  all: match goal with
       | |- exists new, ?l = new ++ ?t /\ _ => let p := events_since l t in exists p
       end.
  all: split; [reflexivity|].
  all: split;
    [ intros later id f key size wd ht alt earlier Heq; locate Heq later;
      try discriminate Heq; inversion Heq; subst;
      (eexists; split; [reflexivity | simpl; congruence]) |].
  all: split;
    [ intros later ev earlier Heq Hcall Herr; locate Heq later; subst ev;
      simpl in *; first [ discriminate Hcall | congruence | split; reflexivity ] |].
  all: split;
    [ intros later ev earlier Heq Hcall Herr; locate Heq later; subst ev;
      simpl in *; first [ discriminate Hcall | congruence | reflexivity ] |].
  all: split;
    [ intros later url earlier Heq Hno; locate Heq later;
      try discriminate Heq; inversion Heq; subst;
      first [ by (exfalso; eapply Hno; simpl; eassumption) | split; reflexivity ] |].
  all: split;
    [ intros img Himg Hres; simplify_eq; first [ reflexivity | congruence ] |].
  all: first
    [ left; reflexivity
    | right; eexists _, _; split; [reflexivity|]; split;
      [ first [ left; reflexivity | right; eexists; reflexivity ] | simpl; assumption ] ].
Qed.





(** ** The state file of wp_import_images.py *)

(** After a turn that returns, the state file has been rewritten exactly
    when the turn imported an image for real and the count of imports
    reached a multiple of ten. *)
Lemma import_article_save_schedule E dry count a w c' w' :
  import_article E dry count a w = (Done c', w') ->
  (c' = count \/ c' = count + 1)
  /\ state_file w' =
       (if negb dry && (c' =? count + 1) && (c' mod 10 =? 0)
        then Some (st w') else state_file w).
Proof.
  intros H. exec H.
  all: injection H as <-.
  all: split; [lia|].
  all: simpl.
  all: rewrite ?Z.eqb_refl.
  all: try replace (count =? count + 1) with false by (symmetry; apply Z.eqb_neq; lia).
  all: rewrite ?andb_false_r; simpl.
  all: try match goal with Hm : (_ mod 10 =? 0) = _ |- _ => rewrite Hm end.
  all: reflexivity.
Qed.

Lemma import_loop_returns E dry count articles w c' w' :
  import_loop E dry count articles w = (Done c', w') ->
  state_file w' = state_file w
  \/ exists s, state_file w' = Some s.
Proof.
  revert count w. induction articles as [|a rest IH]; intros count w H; simpl in H.
  - injection H as _ <-. left. reflexivity.
  - apply bind_inv in H as (c1 & w1 & Ha & Hrest).
    apply import_article_save_schedule in Ha as [_ Ha].
    destruct (IH _ _ Hrest) as [Heq|[s Hs]].
    + rewrite Heq, Ha. destruct (negb dry && _ && _); [right; eauto | left; reflexivity].
    + right. eauto.
Qed.



(** ** C2: a dry run of the importer *)

(** C2, at an input where the importer departs from it: a dry run over
    one article that has no featured image appends the slug to
    [skipped] and rewrites the state file. *)
Theorem dry_run_writes_the_state :
  let E := ImageFixtures.static_env [Article (py "7") (py "sem-imagem") None]
                                    None Refused StoreError false in
  let s := State ∅ [] [py "sem-imagem"] in
  main E true 0 (boot None ∅)
  = (Done tt, World s (Some s) ∅ [StateWritten s; WpLookup (py "sem-imagem"); DbSelect]).
Proof. vm_compute. reflexivity. Qed.

(** The dry run makes no call that writes to the store or the database. *)
Lemma dry_run_turn_writes_nothing_remote E count a w :
  let w' := final (import_article E true count a) w in
  filter (fun ev => is_remote_write ev = true) (trace w')
  = filter (fun ev => is_remote_write ev = true) (trace w).
Proof.
  intros w'. subst w'. unfold final.
  destruct (import_article E true count a w) as [r w'] eqn:H. simpl snd.
  exec H; reflexivity.
Qed.

(** ** C3: when the importer saves *)


(** ** The cache of the importer *)

(** [download_image] returns without a download exactly when the cached
    file exists and is not empty. *)
Lemma download_image_cache_hit E url slug w :
  (exists c cs, media_cache w !! cache_path E url slug = Some (c :: cs))
  <-> download_image E url slug w = (Done (Some (cache_path E url slug)), w).
Proof.
  unfold download_image. split.
  - intros (c & cs & ->). reflexivity.
  - destruct (media_cache w !! cache_path E url slug) as [[|c cs]|]; [|eauto|];
      destruct (image_asset E (ImageGet url :: trace w)); intros H;
      try discriminate H;
      injection H as H; apply (f_equal trace) in H; simpl in H;
      apply (f_equal length) in H; simpl in H; lia.
Qed.

(** An empty cached file is downloaded again. *)
Lemma download_image_ignores_empty_file E url slug w content :
  media_cache w !! cache_path E url slug = Some [] ->
  image_asset E (ImageGet url :: trace w) = Transferred content ->
  download_image E url slug w
  = (Done (Some (cache_path E url slug)),
     World (st w) (state_file w) (<[cache_path E url slug := content]> (media_cache w))
           (ImageGet url :: trace w)).
Proof. intros Hc Ha. unfold download_image. rewrite Hc, Ha. reflexivity. Qed.

End ImportImagesFacts.

(** ** C3: when a new mapping reaches the state file *)



(** ** The new size of an image *)

(** Within both bounds the size is kept. *)
Lemma resize_dims_within_bounds (w h : Z) :
  w <= ImportImages.MAX_WIDTH -> h <= ImportImages.MAX_HEIGHT ->
  ImportImages.resize_dims w h = Some (w, h).
Proof.
  intros Hw Hh. unfold ImportImages.resize_dims.
  destruct (ImportImages.MAX_WIDTH <? w) eqn:Hlw; [apply Z.ltb_lt in Hlw; lia|].
  destruct (ImportImages.MAX_HEIGHT <? h) eqn:Hlh; [apply Z.ltb_lt in Hlh; lia|].
  reflexivity.
Qed.

(** 2400x1600 becomes exactly 1200x800, in binary64 arithmetic. *)
Lemma resize_dims_2400_1600 :
  ImportImages.resize_dims 2400 1600 = Some (1200, 800).
Proof. vm_compute. reflexivity. Qed.

(** 800x600 keeps its size. *)
Lemma resize_dims_800_600 :
  ImportImages.resize_dims 800 600 = Some (800, 600).
Proof. vm_compute. reflexivity. Qed.

(** The ratio of the scaled branch is the smaller of the two quotients:
    for 2401x1601 the height decides, and truncation shortens the width
    to 1199. *)
Lemma resize_dims_2401_1601 :
  ImportImages.resize_dims 2401 1601 = Some (1199, 800).
Proof. vm_compute. reflexivity. Qed.

(** ** Binary64 arithmetic of the new size *)

(** [resize_dims] computes in IEEE binary64.  The Standard Library
    specifies the primitive operations through [SpecFloat]: a quotient or
    a product is the exact result rounded to nearest, ties to even, by
    [binary_round_aux].  The lemmas below follow that function on normal
    positive numbers and show that rounding never crosses a bound that
    lies on the grid of the result: a quotient [A / w] with [A <= w] is
    not rounded above one, and a product with a ratio at most one is not
    rounded above the other factor. *)

Module ResizeFacts.
Import ImportImages.

(** *** Binary digits *)

Lemma digits2_pos_size p : digits2_pos p = Pos.size p.
Proof. induction p; simpl; congruence. Qed.

Lemma Zdigits2_bits p : bits (Zpos p) (Zdigits2 (Zpos p)).
Proof.
  unfold bits. simpl. rewrite digits2_pos_size.
  pose proof (Pos.size_gt p) as Hgt. pose proof (Pos.size_le p) as Hle.
  split.
  - assert (2 ^ Zpos (Pos.size p) <= 2 * Zpos p).
    { change (2 * Zpos p) with (Zpos p~0). rewrite <- Pos2Z.inj_pow. apply Pos2Z.pos_le_pos, Hle. }
    replace (Zpos (Pos.size p)) with (Zpos (Pos.size p) - 1 + 1) in H by lia.
    rewrite Z.pow_add_r in H by lia. lia.
  - rewrite <- Pos2Z.inj_pow. apply Pos2Z.pos_lt_pos, Hgt.
Qed.

Lemma bits_unique m d d' : 0 < d -> 0 < d' -> bits m d -> bits m d' -> d = d'.
Proof.
  unfold bits. intros Hd Hd' [H1 H2] [H3 H4].
  assert (d - 1 < d') by (apply (Z.pow_lt_mono_r_iff 2); lia).
  assert (d' - 1 < d) by (apply (Z.pow_lt_mono_r_iff 2); lia).
  lia.
Qed.

Lemma Zdigits2_unique p d : 0 < d -> bits (Zpos p) d -> Zdigits2 (Zpos p) = d.
Proof.
  intros Hd Hb. apply (bits_unique (Zpos p)); [simpl; lia | exact Hd | apply Zdigits2_bits | exact Hb].
Qed.

(** *** Shifting right *)

Lemma iter_pos_nat {A} (f : A -> A) p x :
  SpecFloat.iter_pos f p x = Nat.iter (Pos.to_nat p) f x.
Proof.
  revert x. induction p as [p IH|p IH|]; intros x.
  - change (SpecFloat.iter_pos f p~1 x)
      with (SpecFloat.iter_pos f p (SpecFloat.iter_pos f p (f x))).
    rewrite !IH, Pos2Nat.inj_xI, Nat.iter_succ_r.
    replace (2 * Pos.to_nat p)%nat with (Pos.to_nat p + Pos.to_nat p)%nat by lia.
    by rewrite Nat.iter_add.
  - change (SpecFloat.iter_pos f p~0 x)
      with (SpecFloat.iter_pos f p (SpecFloat.iter_pos f p x)).
    rewrite !IH, Pos2Nat.inj_xO.
    replace (2 * Pos.to_nat p)%nat with (Pos.to_nat p + Pos.to_nat p)%nat by lia.
    by rewrite Nat.iter_add.
  - reflexivity.
Qed.

Lemma shr_1_m mrs : 0 <= shr_m mrs -> shr_m (shr_1 mrs) = shr_m mrs / 2.
Proof.
  destruct mrs as [m r s]. simpl. intros Hm.
  destruct m as [|[p|p|]|p]; simpl; try reflexivity; try lia.
  - rewrite Pos2Z.inj_xI. apply Z.div_unique with 1; lia.
  - rewrite Pos2Z.inj_xO. apply Z.div_unique with 0; lia.
Qed.

Lemma shr_1_exact mrs :
  0 <= shr_m mrs ->
  shr_exact (shr_1 mrs) = true <-> shr_exact mrs = true /\ shr_m mrs mod 2 = 0.
Proof.
  destruct mrs as [m r s]. unfold shr_exact. simpl. intros Hm. rewrite Zmod_odd.
  destruct m as [|[p|p|]|p]; try lia; destruct r, s; simpl;
    split; intros H; try discriminate H; try (destruct H; discriminate);
    try (split; reflexivity); reflexivity.
Qed.

Lemma shr_iter_spec n mrs :
  0 <= shr_m mrs ->
  let res := Nat.iter n shr_1 mrs in
  shr_m res = shr_m mrs / 2 ^ Z.of_nat n
  /\ (shr_exact res = true <-> shr_exact mrs = true /\ shr_m mrs mod 2 ^ Z.of_nat n = 0).
Proof.
  intros Hm. induction n as [|n IH]; intros res.
  - subst res. simpl. rewrite Z.div_1_r. split; [reflexivity|].
    rewrite Z.mod_1_r. tauto.
  - subst res. simpl in *. destruct IH as [IHm IHe].
    set (prev := Nat.iter n shr_1 mrs) in *.
    assert (Hp : 0 < 2 ^ Z.of_nat n) by (apply Z.pow_pos_nonneg; lia).
    assert (Hprev : 0 <= shr_m prev).
    { rewrite IHm. apply Z.div_pos; [exact Hm | exact Hp]. }
    rewrite Nat2Z.inj_succ, Z.pow_succ_r by lia.
    split.
    + rewrite shr_1_m by exact Hprev. rewrite IHm.
      rewrite Z.div_div by lia. f_equal. lia.
    + rewrite shr_1_exact by exact Hprev. rewrite IHe, IHm.
      rewrite (Z.mul_comm 2), Z.rem_mul_r by lia.
      pose proof (Z.mod_pos_bound (shr_m mrs) (2 ^ Z.of_nat n) Hp) as Hb1.
      pose proof (Z.mod_pos_bound (shr_m mrs / 2 ^ Z.of_nat n) 2 ltac:(lia)) as Hb2.
      split.
      * intros [[He Hz] Hz']. split; [exact He|]. rewrite Hz, Hz'. lia.
      * intros [He Hz]. split; [split; [exact He|]|]; nia.
Qed.

(** *** Rounding to nearest *)

Lemma fexp_normal e : -1021 <= e -> fexp prec emax e = e - 53.
Proof. intros H. unfold fexp, SpecFloat.emin, prec, emax. lia. Qed.

(** Rounding moves the integer part up by at most one, and not at all
    when nothing is left over. *)
Lemma round_nearest_even_bounds m l :
  m <= round_nearest_even m l <= m + 1
  /\ (l = loc_Exact -> round_nearest_even m l = m).
Proof.
  destruct l as [|[]]; simpl; try destruct (Z.even m); split; try lia; try reflexivity;
    discriminate.
Qed.

Lemma loc_of_shr_record_exact mrs :
  loc_of_shr_record mrs = loc_Exact <-> shr_exact mrs = true.
Proof. destruct mrs as [m [] []]; unfold shr_exact; simpl; split; congruence. Qed.

Lemma shr_record_of_loc_spec m l :
  shr_m (shr_record_of_loc m l) = m
  /\ (shr_exact (shr_record_of_loc m l) = true <-> l = loc_Exact).
Proof. destruct l as [|[]]; unfold shr_exact; simpl; split; try reflexivity; split; congruence. Qed.

(** [shr_fexp] on a number of [d >= 53] digits drops the [d - 53] lowest
    ones, and reports an exact result only when nothing was dropped. *)
Lemma shr_fexp_spec m e l :
  0 < m -> 53 <= Zdigits2 m -> -1021 <= Zdigits2 m + e ->
  let n := Zdigits2 m - 53 in
  exists mrs,
    shr_fexp prec emax m e l = (mrs, e + n)
    /\ shr_m mrs = m / 2 ^ n
    /\ (shr_exact mrs = true <-> l = loc_Exact /\ m mod 2 ^ n = 0).
Proof.
  intros Hm Hd Hrange n. unfold shr_fexp. rewrite fexp_normal by exact Hrange.
  replace (Zdigits2 m + e - 53 - e) with n by (unfold n; lia).
  destruct (shr_record_of_loc_spec m l) as [Hrm Hre].
  unfold shr. destruct n as [|p|p] eqn:Hn; try lia.
  - eexists. split; [f_equal; lia|]. rewrite Z.div_1_r, Z.mod_1_r.
    split; [exact Hrm|]. rewrite Hre. tauto.
  - rewrite iter_pos_nat.
    destruct (shr_iter_spec (Pos.to_nat p) (shr_record_of_loc m l)) as [H1 H2]; [lia|].
    rewrite positive_nat_Z, Hrm in *.
    eexists. split; [reflexivity|]. split; [exact H1|]. rewrite H2, Hre. tauto.
Qed.

Lemma pow2_pos k : 0 <= k -> 0 < 2 ^ k.
Proof. intros. apply Z.pow_pos_nonneg; lia. Qed.

Lemma bits_shift m d n :
  0 <= n -> n < d -> bits m d -> bits (m / 2 ^ n) (d - n).
Proof.
  unfold bits. intros Hn Hd [Hlo Hhi].
  pose proof (pow2_pos n Hn) as Hp.
  split.
  - apply Z.div_le_lower_bound; [exact Hp|].
    rewrite <- Z.pow_add_r by lia. replace (n + (d - n - 1)) with (d - 1) by lia. exact Hlo.
  - apply Z.div_lt_upper_bound; [exact Hp|].
    rewrite <- Z.pow_add_r by lia. replace (n + (d - n)) with d by lia. exact Hhi.
Qed.

(** Rounding a positive number, given as [mx] units of [2^ex] plus what
    [lx] says of the rest, when [mx] has at least 53 digits and the
    result is a normal number: the result has 53 digits, and it is at
    most every [K] that bounds the number from above in the same units
    and lies on the grid of the result. *)
Lemma binary_round_aux_le sx mx ex lx :
  0 < mx ->
  53 <= Zdigits2 mx ->
  -1021 <= Zdigits2 mx + ex -> Zdigits2 mx + ex <= 1000 ->
  exists m e,
    binary_round_aux prec emax sx mx ex lx = S754_finite sx m e
    /\ bits (Zpos m) 53
    /\ ex + (Zdigits2 mx - 53) <= e <= ex + (Zdigits2 mx - 53) + 1
    /\ forall K, K mod 2 ^ (Zdigits2 mx - 53) = 0 -> mx + slack lx <= K ->
               Zpos m * 2 ^ (e - ex) <= K.
Proof.
  intros Hmx Hd Hlo Hhi.
  set (d := Zdigits2 mx) in *. set (n := d - 53) in *.
  assert (Hn : 0 <= n) by (unfold n; lia).
  pose proof (pow2_pos n Hn) as Hpn.
  unfold binary_round_aux.
  destruct (shr_fexp_spec mx ex lx Hmx Hd Hlo) as (mrs & -> & Hm' & He').
  fold d in Hm', He' |- *. fold n in Hm', He' |- *.
  remember (shr_m mrs) as m' eqn:Em'. clear Em'.
  assert (Hbits : bits m' 53).
  { rewrite Hm'. replace 53 with (d - n) by (unfold n; lia).
    apply bits_shift; [lia | unfold n; lia |].
    destruct mx as [|p|p]; try lia. apply Zdigits2_bits. }
  destruct (round_nearest_even_bounds m' (loc_of_shr_record mrs)) as [[Hr1 Hr2] Hr3].
  set (m'' := round_nearest_even m' (loc_of_shr_record mrs)) in *.
  (* the bound on the rounded mantissa *)
  assert (Hbound : forall K, K mod 2 ^ n = 0 -> mx + slack lx <= K -> m'' * 2 ^ n <= K).
  { intros K HK Hle.
    assert (HKn : K = 2 ^ n * (K / 2 ^ n)).
    { apply Z.div_exact; [lia | exact HK]. }
    assert (Hmxn : mx = 2 ^ n * m' + mx mod 2 ^ n).
    { rewrite Hm'. apply Z.div_mod. lia. }
    pose proof (Z.mod_pos_bound mx (2 ^ n) Hpn) as Hmod.
    destruct (shr_exact mrs) eqn:Hex.
    - destruct (proj1 He' eq_refl) as [Hlx Hz].
      rewrite Hr3 by (apply loc_of_shr_record_exact; exact Hex).
      subst lx. simpl in Hle. lia.
    - assert (Hlt : mx < K).
      { destruct lx; simpl in Hle; try lia.
        destruct (Z.eq_dec (mx mod 2 ^ n) 0) as [Hz|Hnz].
        - pose proof (proj2 He' (conj eq_refl Hz)) as Habs. discriminate Habs.
        - assert (mx <> K) by (intros ->; contradiction). lia. }
      assert (m' < K / 2 ^ n).
      { rewrite Hm'. apply Z.div_lt_upper_bound; [exact Hpn|]. lia. }
      nia. }
  (* the second normalisation *)
  assert (Hm''pos : 0 < m'').
  { unfold bits in Hbits. pose proof (pow2_pos 52 ltac:(lia)). simpl in *. lia. }
  destruct (Z_lt_le_dec m'' (2 ^ 53)) as [Hsmall|Hbig].
  - assert (Hb'' : bits m'' 53) by (unfold bits in *; simpl in *; lia).
    destruct m'' as [|p|p] eqn:Hp; try lia.
    assert (Hd'' : Zdigits2 (Zpos p) = 53) by (apply Zdigits2_unique; [lia | exact Hb'']).
    destruct (shr_fexp_spec (Zpos p) (ex + n) loc_Exact) as (mrs2 & -> & Hm2 & _);
      [lia | lia | lia |].
    rewrite Hd'' in *. replace (53 - 53) with 0 in * by lia.
    rewrite Z.div_1_r in Hm2. rewrite Hm2.
    replace (ex + n + 0 <=? emax - prec) with true
      by (symmetry; apply Z.leb_le; unfold emax, prec; lia).
    exists p, (ex + n + 0). split; [reflexivity|]. split; [exact Hb''|].
    split; [lia|]. replace (ex + n + 0 - ex) with n by lia. exact Hbound.
  - assert (Heq : m'' = 2 ^ 53) by (unfold bits in Hbits; simpl in *; lia).
    assert (Hb'' : bits m'' 54) by (rewrite Heq; unfold bits; simpl; lia).
    destruct m'' as [|p|p] eqn:Hp; try lia.
    assert (Hd'' : Zdigits2 (Zpos p) = 54) by (apply Zdigits2_unique; [lia | exact Hb'']).
    destruct (shr_fexp_spec (Zpos p) (ex + n) loc_Exact) as (mrs2 & -> & Hm2 & _);
      [lia | lia | lia |].
    rewrite Hd'' in *. replace (54 - 53) with 1 in * by lia.
    rewrite Heq in Hm2. change (2 ^ 53 / 2 ^ 1) with (2 ^ 52) in Hm2. rewrite Hm2.
    change (2 ^ 52) with (Zpos (2 ^ 52)%positive).
    replace (ex + n + 1 <=? emax - prec) with true
      by (symmetry; apply Z.leb_le; unfold emax, prec; lia).
    exists (2 ^ 52)%positive, (ex + n + 1). split; [reflexivity|].
    split; [unfold bits; simpl; lia|]. split; [lia|].
    intros K HK Hle. specialize (Hbound K HK Hle).
    replace (ex + n + 1 - ex) with (n + 1) by lia.
    rewrite Z.pow_add_r by lia. rewrite Heq in Hbound.
    change (Zpos (2 ^ 52)%positive) with (2 ^ 52).
    change (2 ^ 53) with (2 ^ 52 * 2) in Hbound. change (2 ^ 1) with 2. lia.
Qed.

(** The same, with the number of digits given. *)
Lemma binary_round_aux_bits sx mx ex lx d :
  bits mx d -> 53 <= d ->
  -1021 <= d + ex -> d + ex <= 1000 ->
  exists m e,
    binary_round_aux prec emax sx mx ex lx = S754_finite sx m e
    /\ bits (Zpos m) 53
    /\ ex + (d - 53) <= e <= ex + (d - 53) + 1
    /\ forall K, K mod 2 ^ (d - 53) = 0 -> mx + slack lx <= K ->
               Zpos m * 2 ^ (e - ex) <= K.
Proof.
  intros Hb Hd Hlo Hhi.
  assert (Hpos : 0 < mx).
  { destruct Hb as [Hb _]. pose proof (pow2_pos (d - 1) ltac:(lia)). lia. }
  destruct mx as [|p|p]; try lia.
  assert (Hdig : Zdigits2 (Zpos p) = d) by (apply Zdigits2_unique; [lia | exact Hb]).
  rewrite <- Hdig in *. by apply binary_round_aux_le.
Qed.

(** A number with 53 digits and nothing pending is its own rounding. *)
Lemma binary_round_aux_id sx m e :
  bits (Zpos m) 53 -> -1074 <= e -> e <= 900 ->
  binary_round_aux prec emax sx (Zpos m) e loc_Exact = S754_finite sx m e.
Proof.
  intros Hb Hlo Hhi.
  assert (Hd : Zdigits2 (Zpos m) = 53) by (apply Zdigits2_unique; [lia | exact Hb]).
  unfold binary_round_aux.
  destruct (shr_fexp_spec (Zpos m) e loc_Exact) as (mrs & -> & Hm & Hex); try lia.
  rewrite Hd in *. change (53 - 53) with 0 in *. change (2 ^ 0) with 1 in *.
  rewrite Z.div_1_r in Hm. rewrite Z.mod_1_r in Hex.
  destruct (round_nearest_even_bounds (shr_m mrs) (loc_of_shr_record mrs)) as [_ Hr].
  rewrite Hr by (apply loc_of_shr_record_exact, Hex; done).
  rewrite Hm.
  destruct (shr_fexp_spec (Zpos m) (e + 0) loc_Exact) as (mrs2 & -> & Hm2 & _); try lia.
  rewrite Hd in *. change (53 - 53) with 0 in *. change (2 ^ 0) with 1 in *.
  rewrite Z.div_1_r in Hm2. rewrite Hm2, !Z.add_0_r.
  replace (e <=? emax - prec) with true
    by (symmetry; apply Z.leb_le; unfold emax, prec; lia).
  reflexivity.
Qed.

(** *** Conversion from an integer *)

Lemma iter_xO_pow p k : Zpos (Pos.iter xO p k) = Zpos p * 2 ^ Zpos k.
Proof.
  change (Pos.iter xO p k) with (shift_pos k p).
  rewrite Zpower.shift_pos_correct, Z.pow_pos_fold. lia.
Qed.

(** [float(z)] is [z] itself, written with 53 digits. *)
Lemma to_float_spec z :
  0 < z < 2 ^ 53 ->
  exists m d,
    Prim2SF (to_float z) = S754_finite false m (d - 53)
    /\ bits (Zpos m) 53 /\ bits z d /\ 1 <= d <= 53
    /\ Zpos m = z * 2 ^ (53 - d).
Proof.
  intros Hz. unfold to_float.
  rewrite of_uint63_spec, Uint63.of_Z_spec.
  rewrite Z.mod_small by (change wB with (2 ^ 63); split; [lia|];
    apply Z.lt_trans with (2 ^ 53); [lia | reflexivity]).
  destruct z as [|p|p]; try lia.
  pose proof (Zdigits2_bits p) as Hb. set (d := Zdigits2 (Zpos p)) in *.
  assert (Hd : 1 <= d <= 53).
  { destruct Hb as [Hb1 Hb2]. split.
    - unfold d. simpl. lia.
    - destruct (Z_le_gt_dec d 53) as [|Hgt]; [done|].
      assert (2 ^ 53 <= 2 ^ (d - 1)) by (apply Z.pow_le_mono_r; lia). lia. }
  unfold binary_normalize, binary_round.
  change (Zpos (digits2_pos p)) with d.
  rewrite fexp_normal by lia. unfold shl_align.
  destruct (d + 0 - 53 - 0) as [|k|k] eqn:Hk; try lia.
  - assert (d = 53) by lia.
    exists p, d. rewrite binary_round_aux_id; try lia.
    + replace (d - 53) with 0 by lia.
      split; [done|]. replace (53 - d) with 0 by lia. rewrite Z.mul_1_r.
      split; [by replace 53 with d by lia|]. split; [done|]. split; [lia|done].
    + by replace 53 with d by lia.
  - assert (Hkd : Zpos k = 53 - d) by lia.
    assert (Hb53 : bits (Zpos (Pos.iter xO p k)) 53).
    { rewrite iter_xO_pow, Hkd. destruct Hb as [Hb1 Hb2]. unfold bits. split.
      + replace (53 - 1) with (d - 1 + (53 - d)) by lia. rewrite Z.pow_add_r by lia.
        apply Z.mul_le_mono_nonneg_r; [apply Z.pow_nonneg; lia | done].
      + replace 53 with (d + (53 - d)) at 2 by lia. rewrite Z.pow_add_r by lia.
        apply Z.mul_lt_mono_pos_r; [apply pow2_pos; lia | done]. }
    exists (Pos.iter xO p k), d. rewrite binary_round_aux_id; try lia; [|done].
    replace (d + 0 - 53) with (d - 53) by lia.
    split; [done|]. split; [done|]. split; [done|]. split; [lia|].
    by rewrite iter_xO_pow, Hkd.
Qed.

(** *** Division *)

Lemma pow2_mod a b : 0 <= b <= a -> 2 ^ a mod 2 ^ b = 0.
Proof.
  intros H. replace a with (a - b + b) by lia.
  rewrite Z.pow_add_r by lia. apply Z.mod_mul. pose proof (pow2_pos b). lia.
Qed.

Lemma pow2_le_inv a b : 0 <= b -> 2 ^ a <= 2 ^ b -> a <= b.
Proof. intros Hb H. apply (Z.pow_le_mono_r_iff 2); lia. Qed.

Lemma slack_new_location n r :
  slack (new_location n r) = if r =? 0 then 0 else 1.
Proof.
  unfold new_location, new_location_even, new_location_odd.
  destruct (Z.even n), (r =? 0); reflexivity.
Qed.

(** The quotient of two 53-digit numbers before rounding: 53 more digits
    of the dividend, the integer quotient and what the remainder says. *)
Lemma SFdiv_core_binary_spec m1 e1 m2 e2 :
  bits (Zpos m1) 53 -> bits (Zpos m2) 53 -> -900 <= e1 - e2 ->
  SFdiv_core_binary prec emax (Zpos m1) e1 (Zpos m2) e2 =
    (Zpos m1 * 2 ^ 53 / Zpos m2, e1 - e2 - 53,
     new_location (Zpos m2) ((Zpos m1 * 2 ^ 53) mod Zpos m2)).
Proof.
  intros H1 H2 He. unfold SFdiv_core_binary.
  rewrite !(Zdigits2_unique _ 53) by (done || lia).
  rewrite fexp_normal by lia.
  rewrite Z.min_l by lia.
  replace (e1 - e2 - (53 + e1 - (53 + e2) - 53)) with 53 by lia.
  rewrite Z.shiftl_mul_pow2 by lia.
  unfold Z.div, Z.modulo.
  destruct (Z.div_eucl (Zpos m1 * 2 ^ 53) (Zpos m2)) as [q r].
  f_equal. f_equal. lia.
Qed.

Lemma bits_le_digits a da b db :
  0 < da -> 0 < db -> bits a da -> bits b db -> a <= b -> da <= db.
Proof.
  intros Hda Hdb [Ha _] [_ Hb] Hab.
  assert (da - 1 < db) by (apply (Z.pow_lt_mono_r_iff 2); lia). lia.
Qed.

Lemma le_one_intro m e e' :
  bits (Zpos m) 53 -> e' <= 0 -> e' <= e ->
  Zpos m * 2 ^ (e - e') <= 2 ^ (- e') -> le_one m e.
Proof.
  intros [Hb _] He' Hee H. change (53 - 1) with 52 in Hb.
  pose proof (pow2_pos (e - e') ltac:(lia)) as Hp.
  assert (He : e <= -52).
  { assert (2 ^ (52 + (e - e')) <= 2 ^ (- e')).
    { rewrite Z.pow_add_r by lia. nia. }
    apply pow2_le_inv in H0; lia. }
  split; [exact He|].
  replace (- e') with (- e + (e - e')) in H by lia.
  rewrite Z.pow_add_r in H by lia.
  apply Z.mul_le_mono_pos_r in H; done.
Qed.

(** A quotient of normal positive numbers is one, and it is at most one
    when the dividend is at most the divisor. *)
Lemma SFdiv_pos m1 e1 m2 e2 :
  bits (Zpos m1) 53 -> bits (Zpos m2) 53 ->
  -900 <= e1 - e2 -> e1 - e2 <= 900 ->
  exists m e,
    SFdiv prec emax (S754_finite false m1 e1) (S754_finite false m2 e2)
      = S754_finite false m e
    /\ bits (Zpos m) 53
    /\ e1 - e2 - 53 <= e <= e1 - e2 - 51
    /\ (e1 <= e2 -> Zpos m1 <= Zpos m2 * 2 ^ (e2 - e1) -> le_one m e).
Proof.
  intros H1 H2 Hlo Hhi. unfold SFdiv.
  rewrite SFdiv_core_binary_spec by done.
  set (a := Zpos m1 * 2 ^ 53). set (b := Zpos m2).
  set (e' := e1 - e2 - 53).
  assert (Hb : 0 < b) by done.
  pose proof (Z.div_mod a b ltac:(lia)) as Hdm.
  pose proof (Z.mod_pos_bound a b Hb) as Hr.
  set (q := a / b) in *. set (r := a mod b) in *.
  assert (Hq : 2 ^ 52 <= q < 2 ^ 54).
  { destruct H1 as [H1a H1b], H2 as [H2a H2b]. change (53 - 1) with 52 in *.
    fold b in H2a, H2b. unfold a in Hdm. nia. }
  assert (Hd : exists d, 53 <= d <= 54 /\ bits q d).
  { destruct (Z_lt_le_dec q (2 ^ 53)).
    - exists 53. split; [lia|]. unfold bits. change (53 - 1) with 52. lia.
    - exists 54. split; [lia|]. unfold bits. change (54 - 1) with 53. lia. }
  destruct Hd as (d & Hd & Hbq).
  destruct (binary_round_aux_bits (xorb false false) q e' (new_location b r) d)
    as (m & e & -> & Hm & He & Hle); try (done || unfold e'; lia).
  exists m, e. split; [done|]. split; [done|]. split; [unfold e' in *; lia|].
  intros Hee Hone.
  apply (le_one_intro m e e'); [done | unfold e'; lia | lia |].
  apply Hle.
  - apply pow2_mod. unfold e'. lia.
  - rewrite slack_new_location.
    assert (HK : a <= 2 ^ (- e') * b).
    { unfold a, e'. replace (- (e1 - e2 - 53)) with (53 + (e2 - e1)) by lia.
      rewrite Z.pow_add_r by lia. fold b in Hone.
      pose proof (pow2_pos 53 ltac:(lia)). nia. }
    pose proof (pow2_pos (- e') ltac:(unfold e'; lia)).
    destruct (r =? 0) eqn:Hr0.
    + apply Z.eqb_eq in Hr0. nia.
    + apply Z.eqb_neq in Hr0. nia.
Qed.

(** [A / w] on two integers below 2^53. *)
Lemma div_to_float A w :
  0 < A < 2 ^ 53 -> 0 < w < 2 ^ 53 ->
  exists m e,
    Prim2SF (to_float A / to_float w) = S754_finite false m e
    /\ bits (Zpos m) 53
    /\ -105 <= e <= 1
    /\ (A <= w -> le_one m e).
Proof.
  intros HA Hw.
  destruct (to_float_spec A HA) as (mA & dA & EA & HbA & HdA & HrA & HmA).
  destruct (to_float_spec w Hw) as (mw & dw & Ew & Hbw & Hdw & Hrw & Hmw).
  rewrite div_spec, EA, Ew. unfold SF64div.
  destruct (SFdiv_pos mA (dA - 53) mw (dw - 53)) as (m & e & -> & Hm & He & Hone);
    try (done || lia).
  exists m, e. split; [done|]. split; [done|]. split; [lia|].
  intros HAw.
  assert (dA <= dw) by (apply (bits_le_digits A dA w dw); (done || lia)).
  apply Hone; [lia|].
  rewrite HmA, Hmw.
  replace (dw - 53 - (dA - 53)) with (dw - dA) by lia.
  rewrite <- Z.mul_assoc, <- Z.pow_add_r by lia.
  replace (53 - dw + (dw - dA)) with (53 - dA) by lia.
  apply Z.mul_le_mono_nonneg_r; [|done]. apply Z.pow_nonneg. lia.
Qed.

(** *** The smaller of two ratios *)

Lemma le_one_below m e m' e' :
  bits (Zpos m) 53 -> le_one m' e' -> e < e' -> le_one m e.
Proof.
  intros [_ Hm] [He' _] Hlt. split; [lia|].
  apply Z.le_trans with (2 ^ 53); [lia|]. apply Z.pow_le_mono_r; lia.
Qed.

(** [min(a, b)] is at most one as soon as one of the two is. *)
Lemma float_min_le_one a b ma ea mb eb :
  Prim2SF a = S754_finite false ma ea -> Prim2SF b = S754_finite false mb eb ->
  bits (Zpos ma) 53 -> bits (Zpos mb) 53 ->
  le_one ma ea \/ le_one mb eb ->
  exists m e,
    Prim2SF (float_min a b) = S754_finite false m e
    /\ bits (Zpos m) 53 /\ le_one m e /\ Z.min ea eb <= e.
Proof.
  intros Ea Eb Ha Hb Hone. unfold float_min.
  rewrite ltb_spec, Ea, Eb. unfold SFltb, SFcompare.
  destruct (Z.compare_spec eb ea) as [Heq|Hlt|Hgt].
  - subst eb. change (Pos.compare_cont Eq mb ma) with (Pos.compare mb ma).
    destruct (Pos.compare_spec mb ma) as [Hm|Hm|Hm].
    + subst mb. exists ma, ea. split; [done|]. split; [done|]. split; [tauto|lia].
    + exists mb, ea. split; [done|]. split; [done|]. split; [|lia].
      destruct Hone as [[He Hle]|]; [|done]. split; [done|]. lia.
    + exists ma, ea. split; [done|]. split; [done|]. split; [|lia].
      destruct Hone as [|[He Hle]]; [done|]. split; [done|]. lia.
  - exists mb, eb. split; [done|]. split; [done|]. split; [|lia].
    destruct Hone as [H1|]; [|done]. by apply (le_one_below mb eb ma ea).
  - exists ma, ea. split; [done|]. split; [done|]. split; [|lia].
    destruct Hone as [|H1]; [done|]. by apply (le_one_below ma ea mb eb).
Qed.

(** *** Multiplication by a ratio at most one *)

(** The rounded product of [m1 * 2^e1] with a ratio at most one is at
    most [m1 * 2^e1], here in units of [2^(e1 + er)]. *)
Lemma SFmul_le m1 e1 mr er :
  bits (Zpos m1) 53 -> bits (Zpos mr) 53 -> le_one mr er ->
  -500 <= e1 + er -> e1 <= 0 ->
  exists m e,
    SFmul prec emax (S754_finite false m1 e1) (S754_finite false mr er)
      = S754_finite false m e
    /\ e1 + er + 52 <= e
    /\ Zpos m * 2 ^ (e - (e1 + er)) <= Zpos m1 * 2 ^ (- er).
Proof.
  intros [H1a H1b] [Hra Hrb] [Her Hone] Hlo He1. change (53 - 1) with 52 in *.
  unfold SFmul. rewrite Pos2Z.inj_mul.
  set (P := Zpos m1 * Zpos mr).
  assert (HP : 2 ^ 104 <= P < 2 ^ 106).
  { change (2 ^ 104) with (2 ^ 52 * 2 ^ 52). change (2 ^ 106) with (2 ^ 53 * 2 ^ 53).
    unfold P. nia. }
  assert (Hd : exists d, 105 <= d <= 106 /\ bits P d).
  { destruct (Z_lt_le_dec P (2 ^ 105)).
    - exists 105. split; [lia|]. unfold bits. change (105 - 1) with 104. lia.
    - exists 106. split; [lia|]. unfold bits. change (106 - 1) with 105. lia. }
  destruct Hd as (d & Hd & HbP).
  destruct (binary_round_aux_bits (xorb false false) P (e1 + er) loc_Exact d)
    as (m & e & -> & Hm & He & Hle); try (done || lia).
  exists m, e. split; [done|]. split; [lia|].
  pose proof (pow2_pos (- er) ltac:(lia)) as Hp.
  assert (HPK : P <= Zpos m1 * 2 ^ (- er)) by (unfold P; nia).
  apply Hle; [|simpl; lia].
  assert (Hdr : d - 53 <= - er).
  { assert (2 ^ (d - 1) < 2 ^ (53 + - er)).
    { rewrite Z.pow_add_r by lia. destruct HbP as [HbP _]. nia. }
    apply Z.pow_lt_mono_r_iff in H; lia. }
  replace (- er) with (- er - (d - 53) + (d - 53)) by lia.
  rewrite Z.pow_add_r, Z.mul_assoc by lia.
  apply Z.mod_mul. pose proof (pow2_pos (d - 53) ltac:(lia)). lia.
Qed.

(** [int()] of such a product of the integer [z] is between 0 and [z]. *)
Lemma truncation_le z m1 e1 er m e :
  Zpos m1 = z * 2 ^ (- e1) -> e1 <= 0 -> er <= 0 -> e1 + er <= e ->
  Zpos m * 2 ^ (e - (e1 + er)) <= Zpos m1 * 2 ^ (- er) ->
  0 <= (if 0 <=? e then Zpos m * 2 ^ e else Zpos m / 2 ^ (- e)) <= z.
Proof.
  intros Hz He1 Her He H. rewrite Hz in H.
  rewrite <- Z.mul_assoc, <- Z.pow_add_r in H by lia.
  destruct (0 <=? e) eqn:He0.
  - apply Z.leb_le in He0. split; [apply Z.mul_nonneg_nonneg; [lia | apply Z.pow_nonneg; lia]|].
    replace (e - (e1 + er)) with (e + (- e1 + - er)) in H by lia.
    rewrite Z.pow_add_r, Z.mul_assoc in H by lia.
    apply Z.mul_le_mono_pos_r in H; [done|]. apply pow2_pos. lia.
  - apply Z.leb_gt in He0. pose proof (pow2_pos (- e) ltac:(lia)) as Hp.
    split; [apply Z.div_pos; lia|].
    replace (- e1 + - er) with (- e + (e - (e1 + er))) in H by lia.
    rewrite Z.pow_add_r, Z.mul_assoc in H by lia.
    apply Z.mul_le_mono_pos_r in H; [|apply pow2_pos; lia].
    apply Z.div_le_upper_bound; [done|]. lia.
Qed.

(** [int(z * ratio)] for a ratio at most one. *)
Lemma scaled_le z r mr er :
  0 < z < 2 ^ 53 ->
  Prim2SF r = S754_finite false mr er -> bits (Zpos mr) 53 -> le_one mr er ->
  -400 <= er ->
  exists n, int_of_float (to_float z * r) = Some n /\ 0 <= n <= z.
Proof.
  intros Hz Er Hr Hone Hlo.
  destruct (to_float_spec z Hz) as (mz & dz & Ez & Hbz & Hdz & Hrz & Hmz).
  unfold int_of_float. rewrite mul_spec, Ez, Er. unfold SF64mul.
  destruct (SFmul_le mz (dz - 53) mr er) as (m & e & -> & He & Hle);
    try (done || lia).
  eexists. split; [reflexivity|].
  apply (truncation_le z mz (dz - 53) er m e); try (done || lia).
  - rewrite Hmz. f_equal. f_equal. lia.
  - destruct Hone. lia.
Qed.

(** The new size exists and is at most the old one. *)
Lemma resize_dims_never_upsizes (w h : Z) :
  0 < w < 2 ^ 53 -> 0 < h < 2 ^ 53 ->
  exists new_w new_h,
    resize_dims w h = Some (new_w, new_h)
    /\ 0 <= new_w <= w /\ 0 <= new_h <= h.
Proof.
  intros Hw Hh. unfold resize_dims.
  destruct ((MAX_WIDTH <? w) || (MAX_HEIGHT <? h)) eqn:Hguard;
    [|exists w, h; split; [done|lia]].
  replace ((w =? 0) || (h =? 0)) with false
    by (symmetry; apply orb_false_intro; apply Z.eqb_neq; lia).
  destruct (div_to_float MAX_WIDTH w) as (ma & ea & Ea & Hba & Hea & Hone_a);
    [done | done |].
  destruct (div_to_float MAX_HEIGHT h) as (mb & eb & Eb & Hbb & Heb & Hone_b);
    [done | done |].
  destruct (float_min_le_one _ _ ma ea mb eb Ea Eb Hba Hbb) as (m & e & Er & Hb & Hone & He).
  { apply orb_prop in Hguard as [H|H]; apply Z.ltb_lt in H;
      [left; apply Hone_a | right; apply Hone_b]; lia. }
  destruct (scaled_le w _ m e Hw Er Hb Hone) as (nw & -> & Hnw); [lia|].
  destruct (scaled_le h _ m e Hh Er Hb Hone) as (nh & -> & Hnh); [lia|].
  exists nw, nh. done.
Qed.

(** C8.  For an image of [w] by [h] pixels (both positive and below
    2^53, so that [float(w)] is exact) [resize_dims] returns a size, and
    that size is never larger than the old one in either dimension.
    Within both bounds the size is the old one; beyond a bound both
    dimensions are the truncated products with one ratio, the smaller of
    [1200 / w] and [800 / h] in binary64 arithmetic.  2400x1600 becomes
    exactly 1200x800, 800x600 stays 800x600, and [resize_image] hands
    the image to the encoder whatever size was computed. *)
Theorem resize_never_upsizes (w h : Z) :
  0 < w < 2 ^ 53 -> 0 < h < 2 ^ 53 ->
  exists new_w new_h,
    resize_dims w h = Some (new_w, new_h)
    /\ (0 <= new_w <= w /\ 0 <= new_h <= h)
    /\ (w <= MAX_WIDTH -> h <= MAX_HEIGHT -> new_w = w /\ new_h = h)
    /\ (MAX_WIDTH < w \/ MAX_HEIGHT < h ->
        let ratio := float_min (to_float MAX_WIDTH / to_float w)
                               (to_float MAX_HEIGHT / to_float h) in
        int_of_float (to_float w * ratio) = Some new_w
        /\ int_of_float (to_float h * ratio) = Some new_h)
    /\ (forall E content,
          decode E content = Some (w, h) ->
          resize_image E content =
            (buf ← encode E content (new_w, new_h); Some (buf, new_w, new_h)))
    /\ resize_dims 2400 1600 = Some (1200, 800)
    /\ resize_dims 800 600 = Some (800, 600).
Proof.
  intros Hw Hh.
  destruct (resize_dims_never_upsizes w h Hw Hh) as (nw & nh & Hr & Hnw & Hnh).
  exists nw, nh. split; [exact Hr|]. split; [done|].
  split; [|split; [|split; [|split]]].
  - intros Hlw Hlh. rewrite resize_dims_within_bounds in Hr by done.
    by injection Hr as <- <-.
  - intros Hguard. cbv zeta. revert Hr. unfold resize_dims.
    replace ((MAX_WIDTH <? w) || (MAX_HEIGHT <? h)) with true
      by (symmetry; apply orb_true_iff; destruct Hguard; [left|right]; by apply Z.ltb_lt).
    replace ((w =? 0) || (h =? 0)) with false
      by (symmetry; apply orb_false_intro; apply Z.eqb_neq; lia).
    cbv zeta.
    destruct (int_of_float (to_float w * _)) as [a|]; [|discriminate].
    destruct (int_of_float (to_float h * _)) as [b|]; [|discriminate].
    simpl. intros [= <- <-]. done.
  - intros E content Hdec. unfold resize_image. rewrite Hdec. simpl.
    rewrite Hr. reflexivity.
  - vm_compute. reflexivity.
  - vm_compute. reflexivity.
Qed.

(** 2401x1601: the height decides the ratio, and the new size is at most
    the old one. *)
Lemma resize_never_upsizes_witness :
  exists new_w new_h,
    resize_dims 2401 1601 = Some (new_w, new_h)
    /\ new_w <= 2401 /\ new_h <= 1601.
Proof.
  destruct (resize_never_upsizes 2401 1601) as (nw & nh & Hr & [Hnw Hnh] & _).
  - split; reflexivity.
  - split; reflexivity.
  - exists nw, nh. split; [exact Hr|]. split; [apply Hnw | apply Hnh].
Defined.

End ResizeFacts.

(** ** The text pass of wp_clean_html *)

Lemma calm_app_r pre s : calm (pre ++ s) -> calm s.
Proof.
  intros H p q ->. apply (H (pre ++ p) q). by rewrite <- app_assoc.
Qed.

Lemma calm_reverse s : calm s -> calm (reverse s).
Proof.
  intros H p q Heq. apply (H (reverse q) (reverse p)).
  apply (f_equal reverse) in Heq. rewrite reverse_involutive in Heq.
  rewrite Heq, !reverse_app. simpl. by rewrite <- app_assoc.
Qed.

Lemma calm_short s : (length s < 3)%nat -> calm s.
Proof.
  intros Hl p q ->. rewrite !length_app in Hl. simpl in Hl. lia.
Qed.

Lemma calm_after_break j c s :
  (j <= 2)%nat -> c <> newline -> calm s -> calm (replicate j newline ++ c :: s).
Proof.
  intros Hj Hc Hs p q Heq.
  destruct j as [|[|[|j]]]; [| | |lia]; simpl in Heq.
  - destruct p as [|x p]; simplify_eq/=. by apply (Hs p q).
  - destruct p as [|x [|y p]]; simplify_eq/=. by apply (Hs p q).
  - destruct p as [|x [|y [|z p]]]; simplify_eq/=. by apply (Hs p q).
Qed.

Lemma collapse_from_calm run s : calm (collapse_from run s).
Proof.
  revert run. induction s as [|c s IH]; intros run; simpl.
  - apply calm_short. rewrite length_replicate. lia.
  - destruct (decide (c = newline)); [apply IH|].
    apply calm_after_break; [lia | assumption | apply IH].
Qed.

Lemma collapse_from_fixed run s :
  (run <= 2)%nat -> calm (replicate run newline ++ s) ->
  collapse_from run s = replicate run newline ++ s.
Proof.
  revert run. induction s as [|c s IH]; intros run Hrun Hc; simpl.
  - rewrite app_nil_r, Nat.min_l by exact Hrun. reflexivity.
  - destruct (decide (c = newline)) as [->|Hne].
    + assert (run <> 2%nat).
      { intros ->. by apply (Hc [] s). }
      rewrite IH; [| lia |].
      * by rewrite replicate_S_end, <- app_assoc.
      * by rewrite replicate_S_end, <- app_assoc.
    + rewrite Nat.min_l by exact Hrun. f_equal. f_equal.
      apply (IH 0%nat); [lia|]. simpl.
      apply (calm_app_r (replicate run newline ++ [c])).
      by rewrite <- app_assoc.
Qed.

Lemma lstrip_suffix s : exists pre, s = pre ++ lstrip s.
Proof.
  induction s as [|c s [pre IH]]; simpl; [by exists []|].
  destruct (is_space c); [|by exists []].
  exists (c :: pre). simpl. by f_equal.
Qed.

Lemma lstrip_head s c rest : lstrip s = c :: rest -> is_space c = false.
Proof.
  induction s as [|d s IH]; simpl; [discriminate|].
  destruct (is_space d) eqn:Hd; [exact IH|]. by intros [= <- _].
Qed.

Lemma lstrip_fixed s : (forall c rest, s = c :: rest -> is_space c = false) -> lstrip s = s.
Proof.
  destruct s as [|c s]; [reflexivity|]. intros H. simpl.
  by rewrite (H c s eq_refl).
Qed.

Lemma strip_calm s : calm s -> calm (strip s).
Proof.
  intros H. unfold strip. apply calm_reverse.
  destruct (lstrip_suffix (reverse (lstrip s))) as [pre Hpre].
  apply (calm_app_r pre). rewrite <- Hpre. apply calm_reverse.
  destruct (lstrip_suffix s) as [pre' Hpre'].
  apply (calm_app_r pre'). by rewrite <- Hpre'.
Qed.

Lemma strip_idempotent s : strip (strip s) = strip s.
Proof.
  unfold strip.
  set (u := lstrip s). set (v := lstrip (reverse u)).
  assert (Hv : lstrip (reverse v) = reverse v).
  { apply lstrip_fixed. intros c rest Hc.
    destruct (lstrip_suffix (reverse u)) as [pre Hpre]. fold v in Hpre.
    assert (Hu : u = reverse v ++ reverse pre).
    { apply (f_equal reverse) in Hpre.
      by rewrite reverse_involutive, reverse_app in Hpre. }
    rewrite Hc in Hu. simpl in Hu. exact (lstrip_head s c _ Hu). }
  rewrite Hv, reverse_involutive. f_equal.
  apply lstrip_fixed. intros c rest Hc. exact (lstrip_head _ c rest Hc).
Qed.

(** The text pass (lines 196-197) is idempotent. *)
Lemma text_pass_idempotent s :
  strip (collapse_newlines (strip (collapse_newlines s))) = strip (collapse_newlines s).
Proof.
  unfold collapse_newlines at 1.
  rewrite (collapse_from_fixed 0); [apply strip_idempotent | lia |].
  simpl. apply strip_calm, collapse_from_calm.
Qed.

(** What is left of C6 once the text pass is settled: [wp_clean_html] is
    idempotent at [x] as soon as BeautifulSoup gives back the cleaned
    markup of [x] unchanged when it parses and serialises it again. *)
Lemma wp_clean_html_idempotent_when_reparse_is_stable (B : soup) (x : pystr) :
  cleaned_markup B (wp_clean_html B x) = wp_clean_html B x ->
  wp_clean_html B (wp_clean_html B x) = wp_clean_html B x.
Proof.
  intros Hstable. unfold wp_clean_html at 1.
  destruct (wp_clean_html B x) as [|c out] eqn:Hout; [reflexivity|].
  rewrite Hstable. unfold wp_clean_html in Hout.
  destruct x as [|d x]; [discriminate|].
  rewrite <- Hout. apply text_pass_idempotent.
Qed.

(** On text without markup the whole function is idempotent. *)
Lemma wp_clean_html_idempotent_on_plain_text (x : pystr) :
  wp_clean_html plain_text (wp_clean_html plain_text x) = wp_clean_html plain_text x.
Proof. apply wp_clean_html_idempotent_when_reparse_is_stable. reflexivity. Qed.

(** * Further properties of the two scripts *)

(** ** wp_migrate.py: dry runs, exceptions and marks *)

Module MigrateMore.
Import Migrate MigrateFacts.

(** ** Dry runs, step by step *)

Lemma dry_run_step_no_remote_write E token name ws :
  preserves (fun w => remote_writes w = ws) (run_step E token true name).
Proof.
  unfold run_step. destruct (assoc name STEPS) as [step|] eqn:Hs.
  - eapply dry_run_makes_no_remote_write. exact (assoc_elem_of _ _ _ Hs).
  - apply preserves_raise.
Qed.

(** X1.  In a dry run no step sends a POST, a PATCH or an upload to a
    target service: the remote writes in the trace are those that were
    there before, for a single step under any name and for the whole
    sequence. *)
Theorem dry_run_calls_no_service (E : env) (token : pystr) (w : world) :
  (forall name, remote_writes (final (run_step E token true name) w) = remote_writes w)
  /\ remote_writes (final (run_all E token true) w) = remote_writes w.
Proof.
  split.
  - intros name. by apply (dry_run_step_no_remote_write E token name (remote_writes w) w).
  - apply (preserves_for_each (fun w' => remote_writes w' = remote_writes w)); [|done].
    intros name. apply dry_run_step_no_remote_write.
Qed.

(** The author step of a dry run on a ledger that has the mark, or has
    no author id. *)
Lemma dry_run_author_keeps_ledger E token w :
  (truthy (wn_author_id (mem w)) = true -> marked (py "author") w) ->
  create_wn_author E token true w = (Done tt, w).
Proof.
  intros H. unfold create_wn_author, bind, is_done, get_data, ret. simpl.
  destruct (bool_decide (py "author" ∈ completed_steps (mem w))) eqn:Hd; [reflexivity|].
  destruct (truthy (wn_author_id (mem w))); [|reflexivity].
  apply bool_decide_eq_false in Hd. destruct Hd. by apply H.
Qed.

(** X2.  A dry run of a step leaves the ledger in memory and the state
    file as they are; for the author step this needs that the ledger
    holds no author id, or has the step marked already. *)
Theorem dry_run_keeps_the_ledger (E : env) (token name : pystr) (w : world) :
  (name = py "author" -> truthy (wn_author_id (mem w)) = true -> marked (py "author") w) ->
  let w' := final (run_step E token true name) w in
  mem w' = mem w /\ disk w' = disk w.
Proof.
  intros Hauthor w'. subst w'. unfold run_step.
  destruct (assoc name STEPS) as [step|] eqn:Hs; [|done].
  destruct (decide (name = py "author")) as [->|Hna].
  - injection Hs as <-. unfold final.
    rewrite dry_run_author_keeps_ledger by (by apply Hauthor). done.
  - by apply (dry_run_keeps_ledger E token name step (mem w) (disk w)
                (assoc_elem_of _ _ _ Hs) Hna w).
Qed.

Lemma dry_run_keeps_the_ledger_witness :
  let E := Fixtures.static_env NetError Refused
             [Category 5 (py "diplomacia") (py "Diplomacia") None None] [] [] [] in
  let w' := final (run_step E (py "dry-run-token") true (py "categories")) (boot None ∅) in
  mem w' = empty_data /\ disk w' = None.
Proof.
  intros E. apply (dry_run_keeps_the_ledger E (py "dry-run-token") (py "categories") (boot None ∅)).
  intros H. discriminate H.
Defined.


(** ** A step that ends with an exception *)

(** [m] never touches the list of completed steps. *)
Definition keeps_marks {A} (m : prog A) : Prop :=
  forall l, preserves (fun w => completed_steps (mem w) = l) m.

(** When [m] raises, the list of completed steps is what it was. *)
Definition raises_unmarked {A} (m : prog A) : Prop :=
  forall w w', m w = (Raised, w') -> completed_steps (mem w') = completed_steps (mem w).

Lemma raises_unmarked_ret {A} (a : A) : raises_unmarked (ret a : prog A).
Proof. intros w w' H. discriminate H. Qed.

Lemma raises_unmarked_mark_step name : raises_unmarked (mark_step name).
Proof.
  intros w w' H. unfold mark_step, bind, get_data, modify, save, ret in H. simpl in H.
  destruct (decide (name ∈ completed_steps (mem w))); discriminate H.
Qed.

Lemma raises_unmarked_bind {A B} (m : prog A) (k : A -> prog B) :
  keeps_marks m -> (forall a, raises_unmarked (k a)) -> raises_unmarked (bind m k).
Proof.
  intros Hm Hk w w' H. unfold bind in H.
  pose proof (Hm (completed_steps (mem w)) w eq_refl) as Hkeep. unfold final in Hkeep.
  destruct (m w) as [[a|] w1]; simpl in Hkeep.
  - rewrite <- Hkeep. exact (Hk a w1 w' H).
  - injection H as <-. exact Hkeep.
Qed.

Ltac keeps_leaf :=
  first
    [ apply preserves_call; intros [? ? ? ?] ?; assumption
    | apply preserves_emit; intros [? ? ? ?] ?; assumption
    | apply preserves_wp_fetch_all; intros [? ? ? ?] ?; assumption
    | apply preserves_download_media; intros [? ? ? ?] ? ?; assumption
    | apply preserves_save; intros [? ? ? ?] ?; assumption
    | apply preserves_modify; intros [[? ? ? ? ? ? ? ? ?] ? ? ?] ?; assumption ].

Ltac unfold_bodies :=
  unfold migrate_media, media_entity, media_block, upload_media,
         migrate_categories, category_entity, create_wn_author,
         migrate_posts, post_entity, migrate_pages, page_entity,
         create_si_menus, menu_block, create_si_contacts, contact_entity,
         create_additional_si_pages, additional_page_entity.

Ltac unmarked_walk :=
  repeat first
    [ progress cbv beta iota zeta
    | apply raises_unmarked_ret
    | apply raises_unmarked_mark_step
    | apply raises_unmarked_bind; [ intros ?; solve [ pres_walk keeps_leaf ] | intros ? ]
    | match goal with
      | |- raises_unmarked (if ?c then _ else _) => destruct c
      | |- raises_unmarked (match ?x with _ => _ end) => destruct x
      end ].

Lemma step_raises_unmarked E token dry name step :
  (name, step) ∈ STEPS -> raises_unmarked (step E token dry).
Proof.
  intros H. unfold STEPS in H.
  repeat (apply elem_of_cons in H as [H|H]; [injection H as _ ->|]);
    try (by apply elem_of_nil in H);
    unfold_bodies; unmarked_walk.
Qed.

(** X3.  A step that ends with an exception has marked nothing: the list
    of completed steps is the one it started with, so the next run takes
    the step up again. *)
Theorem failed_step_stays_unmarked (E : env) (token name : pystr) (dry : bool)
    (w w' : world) :
  run_step E token dry name w = (Raised, w') ->
  completed_steps (mem w') = completed_steps (mem w).
Proof.
  unfold run_step. destruct (assoc name STEPS) as [step|] eqn:Hs.
  - apply (step_raises_unmarked E token dry name step), (assoc_elem_of _ _ _ Hs).
  - intros [= <-]. reflexivity.
Qed.

Lemma failed_step_stays_unmarked_witness :
  let E := Fixtures.static_env NetError Refused
             [Category 5 (py "diplomacia") (py "Diplomacia") None None] [] [] [] in
  completed_steps (mem (final (run_step E (py "t") false (py "categories")) (boot None ∅))) = [].
Proof.
  intros E.
  destruct (run_step E (py "t") false (py "categories") (boot None ∅)) as [r w'] eqn:H.
  assert (Hr : r = Raised) by (apply (f_equal fst) in H; vm_compute in H; congruence).
  subst r. unfold final. rewrite H. simpl.
  exact (failed_step_stays_unmarked E (py "t") (py "categories") false _ _ H).
Defined.

(** ** A step that returns *)

(** X4.  Outside a dry run, a step other than the author step that
    returns has marked itself, whatever the services answered to its
    requests.  The author step returns without its mark only when the
    service refused the creation, and then the ledger is untouched. *)
Theorem returned_step_is_marked (E : env) (token name : pystr) (w w' : world) :
  run_step E token false name w = (Done tt, w') ->
  (name <> py "author" -> marked name w')
  /\ (name = py "author" -> marked name w' \/ mem w' = mem w).
Proof.
  unfold run_step. destruct (assoc name STEPS) as [step|] eqn:Hs; [|discriminate].
  intros H. split.
  - intros Hna. exact (step_marks_itself E token name step (assoc_elem_of _ _ _ Hs) Hna w tt w' H).
  - intros ->. injection Hs as <-. revert H.
    unfold create_wn_author, bind, is_done, get_data, ret. simpl.
    destruct (bool_decide (py "author" ∈ completed_steps (mem w))) eqn:Hd.
    { intros [= <-]. left. by apply bool_decide_eq_true in Hd. }
    destruct (truthy (wn_author_id (mem w))).
    { intros H. left. exact (ensures_mark_step _ _ _ _ H). }
    unfold call, bind, emit. simpl.
    destruct (remote E _) as [status body|]; [|discriminate].
    simpl. destruct (status_ok status).
    + destruct (created_id body) as [author|]; [|discriminate]. simpl.
      intros H. left. exact (ensures_mark_step _ _ _ _ H).
    + intros [= <-]. right. reflexivity.
Qed.

Lemma returned_step_is_marked_witness :
  let E := Fixtures.static_env (Reply 500 None) Refused
             [Category 5 (py "diplomacia") (py "Diplomacia") None None] [] [] [] in
  let w' := final (run_step E (py "t") false (py "categories")) (boot None ∅) in
  marked (py "categories") w' /\ wp_categories (mem w') = ∅.
Proof.
  intros E w'. split; [|vm_compute; reflexivity].
  apply (returned_step_is_marked E (py "t") (py "categories") (boot None ∅) w').
  - vm_compute. reflexivity.
  - discriminate.
Defined.

End MigrateMore.

(** ** wp_migrate.py: the ledger only grows *)

Module LedgerGrowth.
Import Migrate MigrateFacts.

Local Arguments py : simpl never.
Local Arguments str_int : simpl never.
Local Arguments truthy : simpl never.
Local Arguments status_ok : simpl never.
Local Arguments created_id : simpl never.
Local Arguments unwrap : simpl never.
Local Arguments dict_get : simpl never.
Local Arguments category_payload : simpl never.
Local Arguments post_payload : simpl never.
Local Arguments page_payload : simpl never.
Local Arguments page_mapping : simpl never.
Local Arguments possibly_exists : simpl never.
Local Arguments starts_with : simpl never.
Local Arguments str_or : simpl never.
Local Arguments get_text : simpl never.

Lemma ledger_grows_refl d : ledger_grows d d.
Proof. unfold ledger_grows. repeat split; try reflexivity. Qed.

Lemma ledger_grows_trans d1 d2 d3 :
  ledger_grows d1 d2 -> ledger_grows d2 d3 -> ledger_grows d1 d3.
Proof.
  intros (A1 & A2 & A3 & A4 & A5 & A6 & A7 & A8) (B1 & B2 & B3 & B4 & B5 & B6 & B7 & B8).
  unfold ledger_grows. repeat split; try (etrans; eassumption).
  intros Ht. rewrite <- (A8 Ht) in Ht |- *. rewrite (B8 Ht). reflexivity.
Qed.

(** The ledger has grown, and with [pages] set the page map too. *)
Definition grown (pages : bool) (d d' : data) : Prop :=
  ledger_grows d d' /\ (pages = true -> wp_pages d ⊆ wp_pages d').

Lemma grown_refl pages d : grown pages d d.
Proof. split; [apply ledger_grows_refl | reflexivity]. Qed.

Lemma grown_trans pages d1 d2 d3 :
  grown pages d1 d2 -> grown pages d2 d3 -> grown pages d1 d3.
Proof.
  intros [A1 A2] [B1 B2]. split; [by eapply ledger_grows_trans|].
  intros Hp. etrans; [by apply A2 | by apply B2].
Qed.

(** [m] only adds to the ledger. *)
Definition grows {A} (pages : bool) (m : prog A) : Prop :=
  forall w, grown pages (mem w) (mem (final m w)).

Lemma grows_preserves {A} pages (m : prog A) d0 :
  grows pages m -> preserves (fun w => grown pages d0 (mem w)) m.
Proof. intros Hm w Hw. exact (grown_trans _ _ _ _ Hw (Hm w)). Qed.

(** Runs the computation in [H : m w = (r, w')] symbolically, one goal
    per path. *)
Ltac run H :=
  unfold category_entity, post_entity, page_entity, media_block, menu_block,
         contact_entity, additional_page_entity, create_wn_author, upload_media,
         download_media, mark_step, is_done, call, bind, ret, raise, lift, get_data,
         modify, emit, save in H;
  simpl in H;
  repeat (match type of H with
          | context [match ?x with _ => _ end] =>
              lazymatch x with
              | context [match _ with _ => _ end] => fail
              | _ => destruct x eqn:?; simpl in H
              end
          end);
  first [ discriminate H | apply pair_equal_spec in H as [H <-] ].

Lemma absent {V} (m : gmap pystr V) k : ~ is_Some (m !! k) -> m !! k = None.
Proof. intros H. by apply eq_None_not_Some. Qed.

Lemma absent_bool {V} (m : gmap pystr V) k :
  bool_decide (is_Some (m !! k)) = false -> m !! k = None.
Proof. intros H. apply absent. by apply bool_decide_eq_false in H. Qed.

Ltac grows_done :=
  simpl; unfold grown, ledger_grows; simpl;
  repeat split; try reflexivity; try congruence; try discriminate;
  try (intros _);
  try reflexivity;
  try (apply insert_subseteq; first [ apply absent; assumption | apply absent_bool; assumption ]);
  try (by apply prefix_app_r).

Ltac grows_by_run f :=
  let H := fresh "H" in
  intros w; unfold final;
  match goal with |- grown _ _ (mem (snd (?m w))) =>
    destruct (m w) as [r w'] eqn:H; simpl snd end;
  run H; grows_done.

Lemma grows_category_entity pages E dry cat : grows pages (category_entity E dry cat).
Proof. grows_by_run H. Qed.

Lemma grows_post_entity pages E dry author p : grows pages (post_entity E dry author p).
Proof. grows_by_run H. Qed.

Lemma grows_page_entity pages E dry p : grows pages (page_entity E dry p).
Proof. grows_by_run H. Qed.

Lemma grows_media_block_wn pages E dry used m :
  grows pages (media_block E dry WN used wp_media_wn set_wp_media_wn m).
Proof.
  grows_by_run H.
  all: match goal with Hc : _ && _ = true |- _ =>
         apply andb_prop in Hc as [_ Hc]; apply negb_true_iff in Hc end.
  all: apply insert_subseteq, absent_bool; assumption.
Qed.

Lemma grows_media_block_si pages E dry used m :
  grows pages (media_block E dry SI used wp_media_si set_wp_media_si m).
Proof.
  grows_by_run H.
  all: match goal with Hc : _ && _ = true |- _ =>
         apply andb_prop in Hc as [_ Hc]; apply negb_true_iff in Hc end.
  all: apply insert_subseteq, absent_bool; assumption.
Qed.

Lemma grows_bind_at {A B} pages (m : prog A) (k : A -> prog B) w :
  grown pages (mem w) (mem (final m w)) -> (forall a, grows pages (k a)) ->
  grown pages (mem w) (mem (final (bind m k) w)).
Proof.
  unfold final, bind. intros Hm Hk. destruct (m w) as [[a|] w1]; simpl in *; [|exact Hm].
  exact (grown_trans _ _ _ _ Hm (Hk a w1)).
Qed.

Lemma grows_get_data {B} pages (k : data -> prog B) :
  (forall w, grown pages (mem w) (mem (final (k (mem w)) w))) -> grows pages (bind get_data k).
Proof. intros H w. exact (H w). Qed.

(** [m] leaves the ledger in memory as it is. *)
Definition keeps_ledger {A} (m : prog A) : Prop :=
  forall d, preserves (fun w => mem w = d) m.

Lemma grows_of_keeps {A} pages (m : prog A) : keeps_ledger m -> grows pages m.
Proof. intros H w. rewrite (H (mem w) w eq_refl). apply grown_refl. Qed.

Ltac ledger_leaf :=
  first
    [ apply preserves_call; intros [? ? ? ?] ?; assumption
    | apply preserves_emit; intros [? ? ? ?] ?; assumption
    | apply preserves_wp_fetch_all; intros [? ? ? ?] ?; assumption
    | apply preserves_download_media; intros [? ? ? ?] ? ?; assumption ].

Lemma grows_menu_block pages E dry location nome items :
  grows pages (menu_block E dry location nome items).
Proof.
  unfold menu_block. apply grows_get_data. intros w. apply grows_bind_at.
  - unfold final.
    match goal with |- grown _ _ (mem (snd (?m w))) =>
      destruct (m w) as [r w'] eqn:H; simpl snd end.
    run H; grows_done.
  - intros _. apply grows_of_keeps. intros d. pres_walk ledger_leaf.
Qed.

Lemma grows_contact_entity pages E dry contact : grows pages (contact_entity E dry contact).
Proof. grows_by_run H. Qed.

Lemma grows_additional_page_entity E dry sp : grows false (additional_page_entity E dry sp).
Proof. grows_by_run H. Qed.

Lemma grows_mark_step pages name : grows pages (mark_step name).
Proof. grows_by_run H. Qed.

Lemma grows_create_wn_author pages E token dry : grows pages (create_wn_author E token dry).
Proof. grows_by_run H. Qed.

Ltac grows_leaf :=
  first
    [ apply grows_preserves;
      first [ apply grows_category_entity | apply grows_post_entity | apply grows_page_entity
            | apply grows_media_block_wn | apply grows_media_block_si | apply grows_menu_block
            | apply grows_contact_entity | apply grows_additional_page_entity
            | apply grows_mark_step ]
    | ledger_leaf ].

Lemma grows_step pages E token dry name step :
  (name, step) ∈ STEPS -> (pages = true -> name <> py "additional_pages") ->
  grows pages (step E token dry).
Proof.
  intros H Hp w.
  cut (preserves (fun w' => grown pages (mem w) (mem w')) (step E token dry));
    [intros Hpres; exact (Hpres w (grown_refl pages (mem w)))|].
  unfold STEPS in H.
  repeat (apply elem_of_cons in H as [H|H]; [injection H as -> ->|]);
    try (by apply elem_of_nil in H).
  8: { destruct pages; [by destruct Hp|].
       unfold create_additional_si_pages. pres_walk grows_leaf. }
  3: { apply grows_preserves, grows_create_wn_author. }
  all: unfold migrate_media, media_entity, migrate_categories, migrate_posts, migrate_pages,
              create_si_menus, create_si_contacts;
       pres_walk grows_leaf.
Qed.

Lemma grows_run_step pages E token dry name :
  (pages = true -> name <> py "additional_pages") ->
  grows pages (run_step E token dry name).
Proof.
  intros Hp. unfold run_step. destruct (assoc name STEPS) as [step|] eqn:Hs.
  - exact (grows_step pages E token dry name step (assoc_elem_of _ _ _ Hs) Hp).
  - intros w. apply grown_refl.
Qed.

(** X5.  The ledger is append-only.  Whatever a step does and however it
    ends, every entry of the category, post, media and menu maps that was
    there is still there with its value, the lists of contacts and of
    completed steps have only been extended at their end, and an author
    id on record is kept; the same holds for the whole sequence.  The
    page map is kept likewise by every step but [additional_pages], which
    writes its keys without looking them up. *)
Theorem ledger_is_append_only (E : env) (token name : pystr) (dry : bool) (w : world) :
  ledger_grows (mem w) (mem (final (run_step E token dry name) w))
  /\ (name <> py "additional_pages" ->
      wp_pages (mem w) ⊆ wp_pages (mem (final (run_step E token dry name) w)))
  /\ ledger_grows (mem w) (mem (final (run_all E token dry) w)).
Proof.
  split; [|split].
  - apply (grows_run_step false); discriminate.
  - intros Hn. by apply (grows_run_step true E token dry name (fun _ => Hn) w).
  - cut (preserves (fun w' => grown false (mem w) (mem w')) (run_all E token dry)).
    { intros Hpres. exact (proj1 (Hpres w (grown_refl false (mem w)))). }
    apply preserves_for_each. intros n. apply grows_preserves, grows_run_step. discriminate.
Qed.

(** ** A creation that was accepted, then an exception *)

(** X6.  When the turn of a post or of a page ends with an exception,
    either nothing was recorded, or the creation had been accepted and
    its mapping is in the ledger and in the state file: the exception
    came from a later workflow call.  Every later run then passes the
    entity over, so the script does not send the missing workflow calls
    again. *)
Theorem accepted_entity_stays_mapped (E : env) (w w' : world) :
  (forall author p,
     post_entity E false author p w = (Raised, w') ->
     mem w' = mem w
     \/ (is_Some (wp_posts (mem w') !! str_int (post_id p))
         /\ disk w' = Some (mem w')
         /\ forall E' dry' author', post_entity E' dry' author' p w' = (Done tt, w')))
  /\ (forall p,
        page_entity E false p w = (Raised, w') ->
        mem w' = mem w
        \/ (is_Some (wp_pages (mem w') !! str_int (page_id p))
            /\ disk w' = Some (mem w')
            /\ forall E' dry', page_entity E' dry' p w' = (Done tt, w'))).
Proof.
  split.
  - intros author p H.
    run H; try discriminate H;
      first [ left; reflexivity
            | right; simpl; split; [rewrite lookup_insert_eq; by eexists|];
              split; [reflexivity|];
              intros; apply post_entity_mapped; simpl; rewrite lookup_insert_eq; by eexists ].
  - intros p H.
    run H; try discriminate H;
      first [ left; reflexivity
            | right; simpl; split; [rewrite lookup_insert_eq; by eexists|];
              split; [reflexivity|];
              intros; apply page_entity_mapped; simpl; rewrite lookup_insert_eq; by eexists ].
Qed.

Lemma accepted_entity_stays_mapped_witness :
  let E := Env (fun h => match h with
                         | HttpPost _ _ _ :: _ => Fixtures.created (py "art-1")
                         | _ => NetError
                         end)
               (fun _ => Refused) None None None None
               plain_text (fun url => url) (fun _ => []) Fixtures.no_tables in
  let p := Post 7 (py "s") (py "T") (py "c") None [] None in
  let w' := final (post_entity E false JNull p) (boot None ∅) in
  is_Some (wp_posts (mem w') !! str_int 7)
  /\ post_entity E false JNull p w' = (Done tt, w').
Proof.
  intros E p w'.
  destruct (proj1 (accepted_entity_stays_mapped E (boot None ∅) w') JNull p) as [H|(H1 & _ & H3)].
  - vm_compute. reflexivity.
  - exfalso. apply (f_equal (fun d => wp_posts d !! str_int 7)) in H.
    vm_compute in H. discriminate H.
  - split; [exact H1 | apply H3].
Defined.

End LedgerGrowth.

(** ** wp_migrate.py: entities, cache and contacts *)

Module MigrateEntities.
Import Migrate MigrateFacts.

(** X7.  Entities the script filters out cause no request and no change:
    the category [uncategorized]; a page whose id is not in
    [WP_PAGE_MAP]; a media item without URL, one that is not an image,
    and one that no post and no mapped page refers to. *)
Theorem filtered_entities_cause_nothing (E : env) (dry : bool) (w : world) :
  (forall cat, cat_slug cat = py "uncategorized" ->
               category_entity E dry cat w = (Done tt, w))
  /\ (forall p, page_mapping (page_id p) = None -> page_entity E dry p w = (Done tt, w))
  /\ (forall for_posts for_pages m,
        media_source_url m = []
        \/ starts_with (py "image/") (media_mime_type m) = false
        \/ ((media_id m ∉ for_posts) /\ (media_id m ∉ for_pages)) ->
        media_entity E dry for_posts for_pages m w = (Done tt, w)).
Proof.
  split; [|split].
  - intros cat Hs. unfold category_entity.
    destruct (decide (cat_slug cat = py "uncategorized")); [reflexivity | contradiction].
  - intros p Hp. unfold page_entity, bind, get_data. simpl. rewrite Hp.
    destruct (decide _); reflexivity.
  - intros for_posts for_pages m H. unfold media_entity.
    destruct (media_source_url m) as [|c url] eqn:Hurl; [reflexivity|].
    destruct H as [H|[H|[H1 H2]]]; [discriminate H | by rewrite H |].
    destruct (negb _); [reflexivity|].
    unfold media_block, bind, get_data. simpl.
    rewrite (bool_decide_eq_false_2 _ H1), (bool_decide_eq_false_2 _ H2). reflexivity.
Qed.

(** ** The media cache of wp_migrate.py *)



(** ** The contacts step when it is taken up again *)

Lemma contact_entity_posts E contact w w' :
  contact_entity E false contact w = (Done tt, w') ->
  filter (fun ev => is_post ev = true) (trace w')
  = HttpPost SI Contacts contact :: filter (fun ev => is_post ev = true) (trace w).
Proof.
  unfold contact_entity, call, bind, emit, lift, modify, save, ret. simpl.
  destruct (remote E _) as [status body|]; [|discriminate]. simpl.
  destruct (status_ok status).
  - destruct (created_id body); [|discriminate]. simpl. intros [= <-]. reflexivity.
  - intros [= <-]. reflexivity.
Qed.

Lemma contacts_loop_posts E contacts w w' :
  for_each contacts (contact_entity E false) w = (Done tt, w') ->
  filter (fun ev => is_post ev = true) (trace w')
  = reverse (HttpPost SI Contacts <$> contacts) ++ filter (fun ev => is_post ev = true) (trace w).
Proof.
  revert w. induction contacts as [|c cs IH]; intros w; simpl.
  - intros [= <-]. reflexivity.
  - intros H. apply bind_inv in H as ([] & w1 & H1 & H2).
    rewrite (IH _ H2), (contact_entity_posts _ _ _ _ H1), reverse_cons, <- app_assoc.
    reflexivity.
Qed.

(** X9.  The contacts step keeps no record it consults: when it is not
    marked, a run that returns has posted every contact of the list
    once, in order, whatever [si_contacts] already holds. *)
Theorem contacts_step_posts_every_contact (E : env) (token : pystr) (w w' : world) :
  ~ marked (py "contacts") w ->
  create_si_contacts E token false w = (Done tt, w') ->
  filter (fun ev => is_post ev = true) (trace w')
  = reverse (HttpPost SI Contacts <$> contacts (literals E))
    ++ filter (fun ev => is_post ev = true) (trace w).
Proof.
  intros Hm H. unfold create_si_contacts in H.
  unfold bind at 1 in H. unfold is_done, bind, get_data, ret in H. simpl in H.
  rewrite (bool_decide_eq_false_2 _ Hm) in H.
  fold (@bind world unit unit) in H.
  destruct (for_each (contacts (literals E)) (contact_entity E false) w) as [[[]|] w1] eqn:Hloop;
    [|discriminate].
  rewrite <- (contacts_loop_posts _ _ _ _ Hloop).
  unfold mark_step, bind, get_data, modify, save, ret in H. simpl in H.
  destruct (decide _); injection H as <-; reflexivity.
Qed.

Lemma contacts_step_posts_every_contact_witness :
  let E := Env (fun _ => Reply 500 None) (fun _ => Refused) None None None None
               plain_text (fun url => url) (fun _ => [])
               (Tables JNull [] [] [JStr (py "a"); JStr (py "b")] (fun _ => JNull)) in
  let w := boot (Some (set_si_contacts (fun _ => [JStr (py "c-1")]) empty_data)) ∅ in
  filter (fun ev => is_post ev = true)
         (trace (final (create_si_contacts E (py "t") false) w))
  = [HttpPost SI Contacts (JStr (py "b")); HttpPost SI Contacts (JStr (py "a"))].
Proof.
  intros E w.
  apply (contacts_step_posts_every_contact E (py "t") w).
  - unfold marked. simpl. apply not_elem_of_nil.
  - vm_compute. reflexivity.
Defined.

End MigrateEntities.

(** ** wp_migrate.py: the article payload *)

Module PayloadFacts.
Import Migrate MigrateFacts.

Lemma slice_to_length {A} n (s : list A) : 0 <= n -> Z.of_nat (length (slice_to n s)) <= n.
Proof.
  intros Hn. unfold slice_to. rewrite (proj2 (Z.leb_le 0 n) Hn), length_take. lia.
Qed.

Lemma slice_to_all {A} n (s : list A) : Z.of_nat (length s) <= n -> slice_to n s = s.
Proof.
  intros Hn. unfold slice_to. rewrite (proj2 (Z.leb_le 0 n)) by lia.
  apply take_ge. lia.
Qed.

(** The excerpt has at most [max_len + 3] characters, cut or not. *)
Lemma excerpt_length B content max_len :
  0 <= max_len -> len (wp_extract_excerpt B content max_len) <= max_len + 3.
Proof.
  intros Hn. unfold wp_extract_excerpt, len.
  destruct content as [|c content]; [simpl; lia|].
  destruct (max_len <? _) eqn:Hlt.
  - rewrite length_app, marker_length.
    pose proof (prefix_length _ _ (rsplit_head_prefix space (slice_to max_len (get_text_stripped B (c :: content))))).
    pose proof (slice_to_length max_len (get_text_stripped B (c :: content)) Hn).
    lia.
  - apply Z.ltb_ge in Hlt. unfold len in Hlt. lia.
Qed.

Lemma assoc_cons_eq {V} k (v : V) l : assoc k ((k, v) :: l) = Some v.
Proof. simpl. by rewrite decide_True. Qed.

Lemma assoc_cons_ne {V} k k' (v : V) l : k <> k' -> assoc k ((k', v) :: l) = assoc k l.
Proof. intros H. simpl. by rewrite decide_False. Qed.

Ltac field :=
  unfold post_payload, payload_field; cbn [app];
  repeat first [ rewrite assoc_cons_eq
               | rewrite assoc_cons_ne by (intros Hk; vm_compute in Hk; discriminate Hk) ].

(** X10.  The article payload fits the limits the script cuts for: the
    slug has at most 290 characters, the title 300, the meta title 160
    and the meta description 320.  The excerpt field is the excerpt as
    [wp_extract_excerpt] returned it, at most 403 characters: the cut at
    500 never removes anything. *)
Theorem post_payload_fits (E : env) (d : data) (author_id : json) (p : post) :
  let payload := post_payload E d author_id p in
  text_field_within (py "slug") 290 payload
  /\ text_field_within (py "tituloPt") 300 payload
  /\ text_field_within (py "metaTituloPt") 160 payload
  /\ text_field_within (py "metaDescricaoPt") 320 payload
  /\ text_field_within (py "excertoPt") 403 payload
  /\ payload_field (py "excertoPt") payload
     = Some (JStr (wp_extract_excerpt (html E)
                     (str_or (default [] (post_excerpt p))
                             (wp_clean_html (html E) (post_content p))) 400)).
Proof.
  intros payload. subst payload.
  assert (Hex : forall c, slice_to 500 (wp_extract_excerpt (html E) c 400)
                          = wp_extract_excerpt (html E) c 400).
  { intros c. apply slice_to_all. pose proof (excerpt_length (html E) c 400). unfold len in *. lia. }
  repeat split.
  - eexists. split; [field; reflexivity|].
    destruct (290 <? len (post_slug p)) eqn:Hl.
    + apply slice_to_length. lia.
    + by apply Z.ltb_ge in Hl.
  - eexists. split; [field; reflexivity|]. apply slice_to_length. lia.
  - eexists. split; [field; reflexivity|]. apply slice_to_length. lia.
  - eexists. split; [field; reflexivity|]. apply slice_to_length. lia.
  - eexists. split; [field; reflexivity|]. rewrite Hex. apply (excerpt_length _ _ 400). lia.
  - field. by rewrite Hex.
Qed.

End PayloadFacts.

(** ** wp_migrate.py: what wp_clean_html returns *)

Lemma strip_first s c rest : strip s = c :: rest -> is_space c = false.
Proof.
  unfold strip. intros H.
  destruct (lstrip_suffix (reverse (lstrip s))) as [pre Hpre].
  apply (f_equal reverse) in Hpre.
  rewrite reverse_involutive, reverse_app, H in Hpre. simpl in Hpre.
  exact (lstrip_head s c _ Hpre).
Qed.

Lemma strip_last s init c : strip s = init ++ [c] -> is_space c = false.
Proof.
  unfold strip. intros H. apply (f_equal reverse) in H.
  rewrite reverse_involutive, reverse_app in H. simpl in H.
  exact (lstrip_head _ c _ H).
Qed.

(** X11.  Whatever BeautifulSoup hands back, what [wp_clean_html] returns
    holds no run of three newlines, neither starts nor ends with white
    space, and the pass over the text (newline runs, then strip) leaves
    it as it is. *)
Theorem clean_html_output_is_tidy (B : soup) (x : pystr) :
  let out := wp_clean_html B x in
  calm out
  /\ (forall c rest, out = c :: rest -> is_space c = false)
  /\ (forall init c, out = init ++ [c] -> is_space c = false)
  /\ strip (collapse_newlines out) = out.
Proof.
  intros out. subst out. unfold wp_clean_html.
  destruct x as [|c x].
  - split; [by apply calm_short; simpl; lia|].
    split; [discriminate|]. split; [|reflexivity].
    intros [|? ?] ? H; discriminate H.
  - split; [apply strip_calm, collapse_from_calm|].
    split; [intros ? ?; apply strip_first|].
    split; [intros ? ?; apply strip_last | apply text_pass_idempotent].
Qed.

(** ** wp_migrate.py: the pages of wp_fetch_all *)

Module WpSourceFacts.
Import WpSource.

Lemma wp_fetch_pages_more_fuel {A} (get : Z -> page_reply A) n m page items r :
  wp_fetch_pages n get page items = Some r -> (n <= m)%nat ->
  wp_fetch_pages m get page items = Some r.
Proof.
  revert m page items. induction n as [|n IH]; intros m page items H Hle; [discriminate|].
  destruct m as [|m]; [lia|]. simpl in *.
  destruct (get page) as [| |[|x batch] h]; try exact H.
  destruct (total_pages h) as [total|]; [|exact H].
  destruct (total <=? page); [exact H|]. apply IH; [exact H | lia].
Qed.

Lemma served_lookup {A} (done_ : list (list A)) batch rest :
  served (done_ ++ batch :: rest) (Z.of_nat (length done_) + 1)
  = Batch batch (HeaderInt (Z.of_nat (length (done_ ++ batch :: rest)))).
Proof.
  unfold served.
  replace (Z.of_nat (length done_) + 1 <? 1) with false by (symmetry; apply Z.ltb_ge; lia).
  replace (Z.to_nat (Z.of_nat (length done_) + 1 - 1)) with (length done_ + 0)%nat by lia.
  rewrite lookup_app_r by lia.
  replace (length done_ + 0 - length done_)%nat with 0%nat by lia. reflexivity.
Qed.

Lemma fetch_served_from {A} (rest done_ : list (list A)) items :
  Forall (fun b => b <> []) rest -> rest <> [] ->
  wp_fetch_pages (length rest) (served (done_ ++ rest)) (Z.of_nat (length done_) + 1) items
  = Some (Done (items ++ concat rest)).
Proof.
  revert done_ items. induction rest as [|batch rest IH]; intros done_ items Hne Hrest; [done|].
  apply Forall_cons in Hne as [Hb Hne]. simpl wp_fetch_pages.
  rewrite served_lookup. destruct batch as [|x batch]; [done|]. simpl total_pages. cbv iota.
  rewrite length_app. simpl length.
  destruct rest as [|b2 rest].
  - simpl. destruct (_ <=? _) eqn:Hc; [|apply Z.leb_gt in Hc; lia].
    by rewrite app_nil_r.
  - destruct (_ <=? _) eqn:Hc; [apply Z.leb_le in Hc; simpl in Hc; lia|].
    specialize (IH (done_ ++ [x :: batch]) (items ++ x :: batch) Hne ltac:(done)).
    rewrite <- app_assoc in IH. simpl in IH.
    rewrite length_app in IH. simpl in IH.
    replace (Z.of_nat (length done_ + 1) + 1) with (Z.of_nat (length done_) + 1 + 1) in IH by lia.
    simpl. simpl in IH. rewrite IH. by rewrite <- app_assoc.
Qed.

(** X12.  Against a source that serves its pages as the REST API does,
    [wp_fetch_all] returns all items of all pages, in order, with one
    request per page (one request when there is no page at all); more
    fuel changes nothing. *)
Theorem wp_fetch_all_takes_every_page {A} (pages : list (list A)) (fuel : nat) :
  Forall (fun batch => batch <> []) pages ->
  (Nat.max 1 (length pages) <= fuel)%nat ->
  wp_fetch_all_pages fuel (served pages) = Some (Done (concat pages)).
Proof.
  intros Hne Hfuel. unfold wp_fetch_all_pages.
  apply (wp_fetch_pages_more_fuel _ (Nat.max 1 (length pages))); [|exact Hfuel].
  destruct pages as [|b rest]; [reflexivity|].
  replace (Nat.max 1 (length (b :: rest))) with (length (b :: rest)) by (simpl; lia).
  exact (fetch_served_from (b :: rest) [] [] Hne ltac:(done)).
Qed.

Lemma wp_fetch_all_takes_every_page_witness :
  wp_fetch_all_pages 2 (served [[1; 2]; [3]]) = Some (Done [1; 2; 3]).
Proof.
  apply (wp_fetch_all_takes_every_page [[1; 2]; [3]] 2).
  - repeat constructor; discriminate.
  - simpl. lia.
Defined.

Lemma fetch_ends {A} (get : Z -> page_reply A) (T : Z) :
  (forall p batch n, get p = Batch batch (HeaderInt n) -> n <= T) ->
  forall fuel page items,
    1 <= page -> (1 <= fuel)%nat -> T - page + 1 <= Z.of_nat fuel ->
    is_Some (wp_fetch_pages fuel get page items).
Proof.
  intros HT fuel. induction fuel as [|fuel IH]; intros page items H0 H1 H2; [lia|].
  simpl. destruct (get page) as [| |[|x batch] h] eqn:Hg; try (by eexists).
  destruct h as [| |n]; simpl; try (by eexists).
  - destruct (1 <=? page) eqn:Hp; [by eexists|]. apply Z.leb_gt in Hp. lia.
  - destruct (n <=? page) eqn:Hp; [by eexists|]. apply Z.leb_gt in Hp.
    pose proof (HT _ _ _ Hg). apply IH; lia.
Qed.

(** X13.  The loop of [wp_fetch_all] ends: when no reply announces more
    than [T] pages, it has ended after at most [T] requests (one, when
    [T] is smaller).  A first page without the header is the only page
    taken, and a request that fails ends the whole fetch with an
    exception, whatever was collected before. *)
Theorem wp_fetch_all_ends_within_the_total {A} (get : Z -> page_reply A) (T : Z) :
  (forall p batch n, get p = Batch batch (HeaderInt n) -> n <= T) ->
  is_Some (wp_fetch_all_pages (Z.to_nat (Z.max 1 T)) get)
  /\ (forall batch fuel, get 1 = Batch batch HeaderAbsent ->
        wp_fetch_all_pages (S fuel) get = Some (Done batch))
  /\ (forall fuel page items, get page = RequestFailed ->
        wp_fetch_pages (S fuel) get page items = Some Raised).
Proof.
  intros HT. split; [|split].
  - apply (fetch_ends get T HT); lia.
  - intros batch fuel Hg. unfold wp_fetch_all_pages. simpl. rewrite Hg.
    destruct batch; reflexivity.
  - intros fuel page items Hg. simpl. by rewrite Hg.
Qed.

Lemma wp_fetch_all_ends_within_the_total_witness :
  is_Some (wp_fetch_all_pages 2 (served [[1; 2]; [3]])).
Proof.
  apply (wp_fetch_all_ends_within_the_total (served [[1; 2]; [3]]) 2).
  intros p batch n H. unfold served in H.
  destruct (p <? 1); [discriminate|].
  destruct (_ !! _); [|discriminate]. injection H as _ <-. simpl. lia.
Defined.

End WpSourceFacts.

(** ** wp_migrate.py: the flags of main *)

Module MigrateMainFacts.
Import Migrate MigrateFacts MigrateMore MigrateMain.

(** X14.  What the flags of [main] come to.  [--reset] removes the state
    file and does nothing else, whatever the other flags say; [--status]
    changes nothing at all; without a token, a run that is not a dry run
    ends before any step; and a dry run, which asks for no token, sends
    no POST, PATCH or upload to a target service. *)
Theorem main_flags (E : env) (auth : option pystr) (a : args) (w : world) :
  (arg_reset a = true ->
   main E auth a w = (Done tt, World (mem w) None (cache w) (trace w)))
  /\ (arg_reset a = false -> arg_status a = true -> main E auth a w = (Done tt, w))
  /\ (arg_reset a = false -> arg_status a = false -> arg_dry_run a = false ->
      auth = None -> main E auth a w = (Raised, w))
  /\ (arg_dry_run a = true ->
      main E auth a w = main E None a w
      /\ remote_writes (final (main E auth a) w) = remote_writes w).
Proof.
  unfold main. split; [|split; [|split]].
  - intros ->. reflexivity.
  - intros -> ->. reflexivity.
  - intros -> -> -> ->. reflexivity.
  - intros ->. split; [reflexivity|].
    destruct (arg_reset a); [reflexivity|].
    destruct (arg_status a); [reflexivity|].
    unfold final, bind, ret.
    destruct (arg_step a) as [name|].
    + by apply (dry_run_step_no_remote_write E _ name (remote_writes w) w).
    + apply (preserves_for_each (fun w' => remote_writes w' = remote_writes w)); [|done].
      intros name. apply dry_run_step_no_remote_write.
Qed.

End MigrateMainFacts.

(** ** wp_import_images.py: the featured image of a post *)

Module FeaturedFacts.
Import Featured PayloadFacts.

Local Arguments py : simpl never.
Local Arguments assoc : simpl never.
Local Arguments pick_size : simpl never.

Ltac keys :=
  repeat first [ rewrite assoc_cons_eq
               | rewrite assoc_cons_ne by (intros Hk; vm_compute in Hk; discriminate Hk) ].

Lemma pick_size_dict sizes best :
  pick_size (JObj sizes) best size_keys
  = match assoc (py "medium_large") sizes with
    | Some entry => dict_get entry (py "source_url") best
    | None =>
        match assoc (py "large") sizes with
        | Some entry => dict_get entry (py "source_url") best
        | None =>
            match assoc (py "full") sizes with
            | Some entry => dict_get entry (py "source_url") best
            | None => Some best
            end
        end
    end.
Proof.
  unfold size_keys, pick_size, has_key, subscript. simpl.
  destruct (assoc (py "medium_large") sizes) as [e1|] eqn:H1.
  { rewrite bool_decide_eq_true_2 by (by eexists). reflexivity. }
  rewrite bool_decide_eq_false_2 by (intros [? ?]; done).
  destruct (assoc (py "large") sizes) as [e2|] eqn:H2.
  { rewrite bool_decide_eq_true_2 by (by eexists). reflexivity. }
  rewrite bool_decide_eq_false_2 by (intros [? ?]; done).
  destruct (assoc (py "full") sizes) as [e3|] eqn:H3.
  { rewrite bool_decide_eq_true_2 by (by eexists). reflexivity. }
  rewrite bool_decide_eq_false_2 by (intros [? ?]; done).
  reflexivity.
Qed.

(** X15.  For a post with an embedded featured media that has a URL of
    its own and a dict of sizes, the image is found, and its URL is the
    [source_url] of the medium-large size when there is one, else of the
    large one, else of the full one, and the media's own URL when the
    dict has none of the three (or the chosen size carries no URL).  A
    status other than 200 and a media without URL give no image. *)
Theorem featured_image_prefers_medium_large (source_url : pystr) (sizes : list (pystr * json)) :
  source_url <> [] ->
  let reply := post_with_media (media_with_sizes source_url sizes) in
  let chosen :=
    match assoc (py "medium_large") sizes with
    | Some entry => Some entry
    | None => match assoc (py "large") sizes with
              | Some entry => Some entry
              | None => assoc (py "full") sizes
              end
    end in
  (forall entry, chosen = Some (JObj entry) ->
     url <$> fetch_wp_featured_image reply
     = Some (default (JStr source_url) (assoc (py "source_url") entry)))
  /\ (chosen = None ->
      url <$> fetch_wp_featured_image reply = Some (JStr source_url))
  /\ (forall status body, status <> 200 ->
        fetch_wp_featured_image (Some (status, body)) = None)
  /\ fetch_wp_featured_image (post_with_media (JObj [ (py "source_url", JStr []) ])) = None.
Proof.
  intros Hurl reply chosen.
  assert (Hrun : url <$> fetch_wp_featured_image reply
                 = pick_size (JObj sizes) (JStr source_url) size_keys).
  { unfold reply, post_with_media, media_with_sizes, fetch_wp_featured_image.
    repeat (progress (simpl; keys)).
    rewrite (bool_decide_eq_false_2 _ Hurl).
    repeat (progress (simpl; keys)).
    destruct (pick_size (JObj sizes) (JStr source_url) size_keys); reflexivity. }
  rewrite Hrun, pick_size_dict. subst chosen.
  split; [|split; [|split]].
  - intros entry H.
    destruct (assoc (py "medium_large") sizes) as [e1|].
    { injection H as ->. reflexivity. }
    destruct (assoc (py "large") sizes) as [e2|].
    { injection H as ->. reflexivity. }
    rewrite H. reflexivity.
  - intros H.
    destruct (assoc (py "medium_large") sizes); [discriminate|].
    destruct (assoc (py "large") sizes); [discriminate|].
    rewrite H. reflexivity.
  - intros status body Hs. unfold fetch_wp_featured_image. simpl.
    by rewrite (proj2 (Z.eqb_neq status 200) Hs).
  - vm_compute. reflexivity.
Qed.

Lemma featured_image_prefers_medium_large_witness :
  url <$> fetch_wp_featured_image
            (post_with_media
               (media_with_sizes (py "https://wp/a.jpg")
                  [ (py "full", JObj [ (py "source_url", JStr (py "https://wp/a-full.jpg")) ]);
                    (py "large", JObj [ (py "source_url", JStr (py "https://wp/a-1024.jpg")) ]) ]))
  = Some (JStr (py "https://wp/a-1024.jpg")).
Proof.
  set (sizes := [ (py "full", JObj [ (py "source_url", JStr (py "https://wp/a-full.jpg")) ]);
                  (py "large", JObj [ (py "source_url", JStr (py "https://wp/a-1024.jpg")) ]) ]).
  assert (Hurl : py "https://wp/a.jpg" <> []) by discriminate.
  exact (proj1 (featured_image_prefers_medium_large (py "https://wp/a.jpg") sizes Hurl)
               [ (py "source_url", JStr (py "https://wp/a-1024.jpg")) ] eq_refl).
Defined.

End FeaturedFacts.

(** ** wp_import_images.py: the loop, the cache, the store and the database *)

Module ImporterMore.
Import ImportImages ImportImagesFacts.

Local Arguments py : simpl never.
Local Arguments cache_path : simpl never.
Local Arguments resize_image : simpl never.
Local Arguments len : simpl never.
Local Arguments from_option : simpl never.

(** ** Taking the import up again *)

Lemma import_article_imported E dry count a w :
  is_Some (imported (st w) !! art_slug a) -> import_article E dry count a w = (Done count, w).
Proof.
  intros H. unfold import_article, bind, get_state. simpl.
  destruct (decide _); [reflexivity | contradiction].
Qed.

(** X16.  Articles whose slug is in [state["imported"]] are passed over:
    the loop over them makes no request, writes nothing and leaves the
    count as it is. *)
Theorem imported_articles_are_passed_over (E : env) (dry : bool) (count : Z)
    (articles : list article) (w : world) :
  (forall a, a ∈ articles -> is_Some (imported (st w) !! art_slug a)) ->
  import_loop E dry count articles w = (Done count, w).
Proof.
  induction articles as [|a rest IH]; intros H; [reflexivity|].
  simpl. rewrite (bind_done _ _ w count w).
  - apply IH. intros b Hb. apply H. by right.
  - apply import_article_imported, H. by left.
Qed.

Lemma imported_articles_are_passed_over_witness :
  let a := Article (py "1") (py "a") None in
  let E := ImageFixtures.static_env [a] None Refused StoreError false in
  let w := World (State {[ py "a" := py "m-1" ]} [] []) None ∅ [] in
  import_loop E false 0 [a] w = (Done 0, w).
Proof.
  intros a E w. apply imported_articles_are_passed_over.
  intros b Hb. apply elem_of_cons in Hb as [->|Hb]; [|by apply elem_of_nil in Hb].
  simpl. rewrite lookup_singleton_eq. by eexists.
Defined.

(** ** What a turn of the loop may change *)

Lemma state_grows_refl s : state_grows s s.
Proof. repeat split; reflexivity. Qed.

Lemma state_grows_trans s1 s2 s3 : state_grows s1 s2 -> state_grows s2 s3 -> state_grows s1 s3.
Proof. intros (A & B & C) (A' & B' & C'). repeat split; etrans; eassumption. Qed.

Lemma import_article_grows E dry count a w :
  state_grows (st w) (st (final (import_article E dry count a) w)).
Proof.
  unfold final. destruct (import_article E dry count a w) as [r w'] eqn:H. simpl snd.
  exec H; simpl; unfold state_grows; simpl; repeat split; try reflexivity;
    try (by apply prefix_app_r);
    apply insert_subseteq, eq_None_not_Some; assumption.
Qed.

Lemma import_loop_grows E dry articles count w :
  state_grows (st w) (st (final (import_loop E dry count articles) w)).
Proof.
  revert count w. induction articles as [|a rest IH]; intros count w; simpl.
  - apply state_grows_refl.
  - unfold final, bind. pose proof (import_article_grows E dry count a w) as Ha.
    unfold final in Ha. destruct (import_article E dry count a w) as [[c|] w1]; simpl in *.
    + exact (state_grows_trans _ _ _ Ha (IH c w1)).
    + exact Ha.
Qed.

(** X17.  The importer only adds to its state: whatever [main] does and
    however it ends, every slug that was imported keeps its media id, and
    the lists of failed and skipped slugs are extended at their end. *)
Theorem importer_state_is_append_only (E : env) (dry : bool) (limit : Z) (w : world) :
  state_grows (st w) (st (final (main E dry limit) w)).
Proof.
  unfold main, final, bind, emit, lift. simpl.
  destruct (db_articles E) as [articles|]; simpl; [|apply state_grows_refl].
  match goal with |- context [import_loop E dry 0 ?l ?w0] =>
    pose proof (import_loop_grows E dry l 0 w0) as Hl; unfold final in Hl;
    destruct (import_loop E dry 0 l w0) as [[c|] w1] end; simpl in *; exact Hl.
Qed.

(** ** The limit *)

Lemma lookups_cons ev t :
  lookups (ev :: t) = if is_lookup ev then S (lookups t) else lookups t.
Proof.
  unfold lookups. rewrite filter_cons.
  destruct (is_lookup ev); [rewrite decide_True by done | rewrite decide_False by done];
    reflexivity.
Qed.

Local Arguments lookups : simpl never.

Lemma import_article_lookups E dry count a w :
  (lookups (trace (final (import_article E dry count a) w)) <= lookups (trace w) + 1)%nat.
Proof.
  unfold final. destruct (import_article E dry count a w) as [r w'] eqn:H. simpl snd.
  exec H; simpl; rewrite ?lookups_cons; simpl; lia.
Qed.

Lemma import_loop_lookups E dry articles count w :
  (lookups (trace (final (import_loop E dry count articles) w))
   <= lookups (trace w) + length articles)%nat.
Proof.
  revert count w. induction articles as [|a rest IH]; intros count w; simpl.
  { unfold final, ret. simpl. lia. }
  unfold final, bind. pose proof (import_article_lookups E dry count a w) as Ha.
  unfold final in Ha. destruct (import_article E dry count a w) as [[c|] w1]; simpl in *.
  - specialize (IH c w1). unfold final in IH. lia.
  - lia.
Qed.

(** X18.  With [--limit n], [n > 0], at most [n] articles are looked up
    on the source: the run adds at most [n] lookups to the trace,
    however many rows the database returned. *)
Theorem limit_bounds_the_lookups (E : env) (dry : bool) (limit : Z) (w : world) :
  0 < limit ->
  (Z.of_nat (lookups (trace (final (main E dry limit) w)))
   <= Z.of_nat (lookups (trace w)) + limit)%Z.
Proof.
  intros Hl. unfold main, final, bind, emit, lift. simpl.
  destruct (db_articles E) as [articles|]; simpl; [|rewrite lookups_cons; simpl; lia].
  rewrite (proj2 (Z.ltb_lt 0 limit) Hl).
  assert (Hlen : (length (slice_to limit articles) <= Z.to_nat limit)%nat).
  { unfold slice_to. rewrite (proj2 (Z.leb_le 0 limit)) by lia. rewrite length_take. lia. }
  match goal with |- context [import_loop E dry 0 ?l ?w0] =>
    pose proof (import_loop_lookups E dry l 0 w0) as Hloop; unfold final in Hloop;
    destruct (import_loop E dry 0 l w0) as [[c|] w1] end; simpl in *.
  all: rewrite ?lookups_cons in *; simpl in *; lia.
Qed.

Lemma limit_bounds_the_lookups_witness :
  let rows := [Article (py "1") (py "a") None; Article (py "2") (py "b") None;
               Article (py "3") (py "c") None] in
  let E := ImageFixtures.static_env rows None Refused StoreError false in
  (Z.of_nat (lookups (trace (final (main E false 2) (boot None ∅)))) <= 0 + 2)%Z.
Proof.
  intros rows E. apply (limit_bounds_the_lookups E false 2 (boot None ∅)). lia.
Defined.

(** ** The image cache *)


(** ** The object store and the database *)

(** X20.  [upload_to_minio] asks whether the bucket exists first, makes
    the bucket only when the answer was no, and puts the object only once
    the bucket is there; it reports success exactly when the put was
    accepted. *)
Theorem upload_asks_before_it_makes_the_bucket (E : env) (key : pystr) (size : Z) (w : world) :
  let t := trace w in
  let exists_ := store E (BucketExists :: t) in
  let made := store E (MakeBucket :: BucketExists :: t) in
  exists ok new,
    upload_to_minio E key size w
    = (Done ok, World (st w) (state_file w) (media_cache w) (new ++ t))
    /\ (new = [BucketExists] /\ exists_ = StoreError /\ ok = false
        \/ new = [PutObject key size; BucketExists] /\ exists_ = StoreYes
           /\ ok = match store E (new ++ t) with StoreError => false | _ => true end
        \/ new = [MakeBucket; BucketExists] /\ exists_ = StoreNo /\ made = StoreError /\ ok = false
        \/ new = [PutObject key size; MakeBucket; BucketExists] /\ exists_ = StoreNo
           /\ made <> StoreError
           /\ ok = match store E (new ++ t) with StoreError => false | _ => true end).
Proof.
  intros t exists_ made. subst t exists_ made.
  unfold upload_to_minio, ask_store, bind, emit, history, ret. simpl.
  destruct (store E (BucketExists :: trace w)) eqn:H1; simpl.
  - eexists _, [_; _]. split; [reflexivity|]. right. left.
    split; [reflexivity|]. split; [reflexivity|]. simpl. by destruct (store E _).
  - destruct (store E (MakeBucket :: BucketExists :: trace w)) eqn:H2; simpl.
    + eexists _, [_; _; _]. split; [reflexivity|]. right. right. right.
      split; [reflexivity|]. split; [reflexivity|]. split; [discriminate|].
      simpl. by destruct (store E _).
    + eexists _, [_; _; _]. split; [reflexivity|]. right. right. right.
      split; [reflexivity|]. split; [reflexivity|]. split; [discriminate|].
      simpl. by destruct (store E _).
    + eexists _, [_; _]. split; [reflexivity|]. right. right. left. done.
  - eexists _, [_]. split; [reflexivity|]. left. done.
Qed.

(** X21.  [insert_records] is one transaction: the link is sent only
    after the insert went through and the commit only after both; the
    first statement that fails is followed by a rollback and by nothing
    else.  The result is true exactly when the commit was accepted; an
    exception escapes only when the rollback itself fails. *)
Theorem insert_records_is_one_transaction (E : env) (a : article)
    (media_id file_name object_key : pystr) (size width height : Z) (alt : pystr) (w : world) :
  let t := trace w in
  let ins := InsertMedia media_id file_name object_key size width height alt in
  let link := LinkArticle (art_id a) media_id in
  let m := insert_records E a media_id file_name object_key size width height alt in
  exists new,
    trace (final m w) = new ++ t
    /\ (new = [Commit; link; ins] /\ result m w = Done true
        /\ db_ok E (ins :: t) = true /\ db_ok E (link :: ins :: t) = true
        /\ db_ok E (new ++ t) = true
        \/ exists sent,
             new = Rollback :: sent
             /\ (sent = [ins] \/ sent = [link; ins] \/ sent = [Commit; link; ins])
             /\ db_ok E (sent ++ t) = false
             /\ result m w = if db_ok E (new ++ t) then Done false else Raised).
Proof.
  intros t ins link m. subst t ins link m.
  unfold result, final, insert_records, ask_db, bind, emit, history, ret, raise. simpl.
  destruct (db_ok E (InsertMedia _ _ _ _ _ _ _ :: trace w)) eqn:H1; simpl.
  - destruct (db_ok E (LinkArticle _ _ :: _ :: trace w)) eqn:H2; simpl.
    + destruct (db_ok E (Commit :: _ :: _ :: trace w)) eqn:H3; simpl.
      * eexists [_; _; _]. split; [reflexivity|]. left. done.
      * destruct (db_ok E (Rollback :: _)) eqn:H4; simpl;
          (eexists [_; _; _; _]; split; [reflexivity|]; right;
           eexists; split; [reflexivity|]; split; [right; right; reflexivity|];
           split; [exact H3|]; simpl; by rewrite H4).
    + destruct (db_ok E (Rollback :: _)) eqn:H4; simpl;
        (eexists [_; _; _]; split; [reflexivity|]; right;
         eexists; split; [reflexivity|]; split; [right; left; reflexivity|];
         split; [exact H2|]; simpl; by rewrite H4).
  - destruct (db_ok E (Rollback :: _)) eqn:H4; simpl;
      (eexists [_; _]; split; [reflexivity|]; right;
       eexists; split; [reflexivity|]; split; [left; reflexivity|];
       split; [exact H1|]; simpl; by rewrite H4).
Qed.

(** ** A dry run of the importer *)

(** What a dry run is to keep: the writes to store and database made so
    far, the map of imported slugs, the failed list and the image cache. *)
Definition dry_kept (w0 w : world) : Prop :=
  filter (fun ev => is_remote_write ev = true) (trace w)
  = filter (fun ev => is_remote_write ev = true) (trace w0)
  /\ imported (st w) = imported (st w0)
  /\ failed (st w) = failed (st w0)
  /\ media_cache w = media_cache w0.

Lemma dry_turn_keeps E count a w0 w :
  dry_kept w0 w -> dry_kept w0 (final (import_article E true count a) w).
Proof.
  intros Hw. unfold final.
  destruct (import_article E true count a w) as [r w'] eqn:H. simpl snd.
  exec H; exact Hw.
Qed.

Lemma dry_loop_keeps E articles count w0 w :
  dry_kept w0 w -> dry_kept w0 (final (import_loop E true count articles) w).
Proof.
  revert count w. induction articles as [|a rest IH]; intros count w Hw; simpl.
  { exact Hw. }
  unfold final, bind. pose proof (dry_turn_keeps E count a w0 w Hw) as Ha.
  unfold final in Ha. destruct (import_article E true count a w) as [[c|] w1]; simpl in *.
  - exact (IH c w1 Ha).
  - exact Ha.
Qed.

(** X22.  A dry run of the importer sends nothing to the object store or
    the database, downloads no image, and leaves the map of imported
    slugs and the list of failed ones as they are. *)
Theorem dry_run_imports_nothing (E : env) (limit : Z) (w : world) :
  let w' := final (main E true limit) w in
  filter (fun ev => is_remote_write ev = true) (trace w')
  = filter (fun ev => is_remote_write ev = true) (trace w)
  /\ imported (st w') = imported (st w)
  /\ failed (st w') = failed (st w)
  /\ media_cache w' = media_cache w.
Proof.
  intros w'. subst w'. change (dry_kept w (final (main E true limit) w)).
  unfold main, final, bind, emit, lift. simpl.
  destruct (db_articles E) as [articles|]; simpl; [|by repeat split].
  match goal with |- context [import_loop E true 0 ?l ?w0] =>
    pose proof (dry_loop_keeps E l 0 w w0) as Hl; unfold final in Hl;
    destruct (import_loop E true 0 l w0) as [[c|] w1] end; simpl in *;
    apply Hl; by repeat split.
Qed.

End ImporterMore.

(** ** wp_import_images.py: the new size fits the bounds *)

Module ResizeBounds.
Import ImportImages ResizeFacts.

(** Rounding goes up by less than one unit of the last digit kept. *)
Lemma binary_round_aux_upper sx mx ex lx d :
  bits mx d -> 53 <= d ->
  -1021 <= d + ex -> d + ex <= 1000 ->
  exists m e,
    binary_round_aux prec emax sx mx ex lx = S754_finite sx m e
    /\ bits (Zpos m) 53
    /\ ex + (d - 53) <= e <= ex + (d - 53) + 1
    /\ Zpos m * 2 ^ (e - ex) <= mx + 2 ^ (d - 53).
Proof.
  intros Hb Hd Hlo Hhi.
  destruct (binary_round_aux_bits sx mx ex lx d Hb Hd Hlo Hhi) as (m & e & Hr & Hm & He & Hle).
  exists m, e. split; [done|]. split; [done|]. split; [done|].
  set (n := d - 53) in *. pose proof (pow2_pos n ltac:(unfold n; lia)) as Hp.
  assert (Hdm := Z.div_mod mx (2 ^ n) ltac:(lia)).
  assert (Hmod := Z.mod_pos_bound mx (2 ^ n) Hp).
  apply Z.le_trans with ((mx / 2 ^ n + 1) * 2 ^ n); [|nia].
  apply Hle.
  - apply Z.mod_mul. lia.
  - assert (slack lx <= 1) by (destruct lx; simpl; lia). nia.
Qed.

(** A quotient of two 53-digit numbers is above the exact quotient by
    less than two units of [2^(e1 - e2 - 53)]. *)
Lemma SFdiv_upper m1 e1 m2 e2 :
  bits (Zpos m1) 53 -> bits (Zpos m2) 53 ->
  -900 <= e1 - e2 -> e1 - e2 <= 900 ->
  exists m delta,
    SFdiv prec emax (S754_finite false m1 e1) (S754_finite false m2 e2)
      = S754_finite false m (e1 - e2 - 53 + delta)
    /\ bits (Zpos m) 53
    /\ 0 <= delta <= 2
    /\ Zpos m * 2 ^ delta * Zpos m2 <= Zpos m1 * 2 ^ 53 + 2 * Zpos m2.
Proof.
  intros H1 H2 Hlo Hhi. unfold SFdiv.
  rewrite SFdiv_core_binary_spec by done.
  set (a := Zpos m1 * 2 ^ 53). set (b := Zpos m2).
  set (e' := e1 - e2 - 53).
  assert (Hb : 0 < b) by done.
  pose proof (Z.div_mod a b ltac:(lia)) as Hdm.
  pose proof (Z.mod_pos_bound a b Hb) as Hr.
  set (q := a / b) in *. set (r := a mod b) in *.
  assert (Hq : 2 ^ 52 <= q < 2 ^ 54).
  { destruct H1 as [H1a H1b], H2 as [H2a H2b]. change (53 - 1) with 52 in *.
    fold b in H2a, H2b. unfold a in Hdm. nia. }
  assert (Hd : exists d, 53 <= d <= 54 /\ bits q d).
  { destruct (Z_lt_le_dec q (2 ^ 53)).
    - exists 53. split; [lia|]. unfold bits. change (53 - 1) with 52. lia.
    - exists 54. split; [lia|]. unfold bits. change (54 - 1) with 53. lia. }
  destruct Hd as (d & Hd & Hbq).
  destruct (binary_round_aux_upper (xorb false false) q e' (new_location b r) d)
    as (m & e & -> & Hm & He & Hle); try (done || unfold e'; lia).
  exists m, (e - e'). split; [simpl; f_equal; lia|]. split; [done|]. split; [lia|].
  assert (H2d : 2 ^ (d - 53) <= 2).
  { change 2 with (2 ^ 1) at 2. apply Z.pow_le_mono_r; lia. }
  nia.
Qed.

Lemma to_float_digits z :
  0 < z < 2 ^ 53 ->
  exists m,
    Prim2SF (to_float z) = S754_finite false m (Zdigits2 z - 53)
    /\ bits (Zpos m) 53 /\ 1 <= Zdigits2 z <= 53
    /\ Zpos m = z * 2 ^ (53 - Zdigits2 z).
Proof.
  intros Hz. destruct (to_float_spec z Hz) as (m & d & E & Hb & Hd & Hr & Hm).
  assert (d = Zdigits2 z) as ->.
  { destruct z as [|p|p]; try lia. symmetry. apply Zdigits2_unique; [lia | done]. }
  by exists m.
Qed.

(** [A / w] is above the exact quotient by less than two units of the
    last place. *)
Lemma div_to_float_upper A w :
  0 < A < 2 ^ 53 -> 0 < w < 2 ^ 53 ->
  let dA := Zdigits2 A in
  let dw := Zdigits2 w in
  exists m delta,
    Prim2SF (to_float A / to_float w) = S754_finite false m (dA - dw - 53 + delta)
    /\ bits (Zpos m) 53
    /\ 0 <= delta <= 2
    /\ Zpos m * 2 ^ delta * (w * 2 ^ (53 - dw))
       <= A * 2 ^ (53 - dA) * 2 ^ 53 + 2 * (w * 2 ^ (53 - dw)).
Proof.
  intros HA Hw dA dw.
  destruct (to_float_digits A HA) as (mA & EA & HbA & HrA & HmA).
  destruct (to_float_digits w Hw) as (mw & Ew & Hbw & Hrw & Hmw).
  fold dA in EA, HrA, HmA. fold dw in Ew, Hrw, Hmw.
  rewrite div_spec, EA, Ew. unfold SF64div.
  destruct (SFdiv_upper mA (dA - 53) mw (dw - 53)) as (m & delta & Hr & Hm & Hd & Hle);
    try (done || lia).
  exists m, delta. split; [rewrite Hr; f_equal; lia|]. split; [done|]. split; [done|].
  by rewrite <- HmA, <- Hmw.
Qed.

(** *** The smaller of two ratios is below both *)

Lemma float_min_below a b ma ea mb eb :
  Prim2SF a = S754_finite false ma ea -> Prim2SF b = S754_finite false mb eb ->
  exists m e,
    Prim2SF (float_min a b) = S754_finite false m e
    /\ (m = ma /\ e = ea \/ m = mb /\ e = eb)
    /\ float_le m e ma ea /\ float_le m e mb eb.
Proof.
  intros Ea Eb. unfold float_min, float_le.
  rewrite ltb_spec, Ea, Eb. unfold SFltb, SFcompare.
  destruct (Z.compare_spec eb ea) as [Heq|Hlt|Hgt].
  - subst eb. change (Pos.compare_cont Eq mb ma) with (Pos.compare mb ma).
    destruct (Pos.compare_spec mb ma) as [Hm|Hm|Hm].
    + subst mb. exists ma, ea. split; [done|]. split; [by left|]. split; right; (split; [done|lia]).
    + exists mb, ea. split; [done|]. split; [by right|]. split; right; (split; [done|lia]).
    + exists ma, ea. split; [done|]. split; [by left|]. split; right; (split; [done|lia]).
  - exists mb, eb. split; [done|]. split; [by right|]. split; [by left | right; split; [done|lia]].
  - exists ma, ea. split; [done|]. split; [by left|]. split; [right; split; [done|lia] | by left].
Qed.

(** *** Multiplication by a ratio that is at most [A / w], rounded *)

Lemma float_le_mantissa mr er m e :
  bits (Zpos mr) 53 -> bits (Zpos m) 53 -> float_le mr er m e ->
  er <= e /\ Zpos mr <= Zpos m * 2 ^ (e - er).
Proof.
  intros [_ Hr] [Hm _] [Hlt|[-> Hle]]. change (53 - 1) with 52 in Hm.
  - split; [lia|].
    assert (2 ^ 1 <= 2 ^ (e - er)) by (apply Z.pow_le_mono_r; lia).
    change (2 ^ 53) with (2 ^ 52 * 2 ^ 1) in Hr. nia.
  - split; [lia|]. rewrite Z.sub_diag. simpl. lia.
Qed.

Lemma truncation_within A mp ep ex :
  ex + 52 <= ep -> ex <= -1 ->
  Zpos mp * 2 ^ (ep - ex) <= (2 * A + 1) * 2 ^ (- ex - 1) ->
  0 <= (if 0 <=? ep then Zpos mp * 2 ^ ep else Zpos mp / 2 ^ (- ep)) <= A.
Proof.
  intros He Hex H.
  destruct (0 <=? ep) eqn:He0.
  - apply Z.leb_le in He0.
    split; [apply Z.mul_nonneg_nonneg; [lia | apply Z.pow_nonneg; lia]|].
    replace (ep - ex) with (ep + 1 + (- ex - 1)) in H by lia.
    rewrite Z.pow_add_r, Z.mul_assoc in H by lia.
    apply Z.mul_le_mono_pos_r in H; [|apply pow2_pos; lia].
    rewrite Z.pow_add_r in H by lia. change (2 ^ 1) with 2 in H. lia.
  - apply Z.leb_gt in He0. pose proof (pow2_pos (- ep) ltac:(lia)) as Hp.
    split; [apply Z.div_pos; lia|].
    replace (- ex - 1) with (- ep - 1 + (ep - ex)) in H by lia.
    rewrite Z.pow_add_r, Z.mul_assoc in H by lia.
    apply Z.mul_le_mono_pos_r in H; [|apply pow2_pos; lia].
    assert (Hpp : 2 ^ (- ep) = 2 * 2 ^ (- ep - 1)).
    { replace (- ep) with (1 + (- ep - 1)) at 1 by lia. rewrite Z.pow_add_r by lia. reflexivity. }
    apply Z.lt_succ_r, Z.div_lt_upper_bound; [lia|]. rewrite Hpp.
    pose proof (pow2_pos (- ep - 1) ltac:(lia)). nia.
Qed.

(** [int(w * r)] for a ratio [r] not above the rounded [A / w]. *)
Lemma scaled_within A w r mr er m delta :
  0 < A < 2 ^ 51 -> 0 < w < 2 ^ 53 ->
  let dA := Zdigits2 A in
  let dw := Zdigits2 w in
  Prim2SF r = S754_finite false mr er -> bits (Zpos mr) 53 -> -400 <= er ->
  bits (Zpos m) 53 -> 0 <= delta <= 2 ->
  float_le mr er m (dA - dw - 53 + delta) ->
  Zpos m * 2 ^ delta * (w * 2 ^ (53 - dw)) <= A * 2 ^ (53 - dA) * 2 ^ 53 + 2 * (w * 2 ^ (53 - dw)) ->
  exists n, int_of_float (to_float w * r) = Some n /\ 0 <= n <= A.
Proof.
  intros HA Hw dA dw Er Hbr Hlo Hbm Hdelta Hfl HU.
  assert (HdA : 1 <= dA <= 51).
  { destruct A as [|p|p]; try lia. pose proof (Zdigits2_bits p) as [Hb _]. fold dA in Hb.
    split; [unfold dA; simpl; lia|].
    destruct (Z_le_gt_dec dA 51); [done|].
    assert (2 ^ 51 <= 2 ^ (dA - 1)) by (apply Z.pow_le_mono_r; lia). lia. }
  assert (HA2 : 2 * A + 1 < 2 ^ (dA + 1)).
  { destruct A as [|p|p]; try lia. pose proof (Zdigits2_bits p) as [_ Hb]. fold dA in Hb.
    rewrite Z.pow_add_r by lia. change (2 ^ 1) with 2. lia. }
  destruct (to_float_digits w Hw) as (mw & Ew & Hbw & Hrw & Hmw). fold dw in Ew, Hrw, Hmw.
  rewrite <- Hmw in HU.
  destruct (float_le_mantissa mr er m _ Hbr Hbm Hfl) as [Hee Hmr].
  set (e := dA - dw - 53 + delta) in *. set (ex := dw - 53 + er).
  unfold int_of_float. rewrite mul_spec, Ew, Er. unfold SF64mul, SFmul.
  rewrite Pos2Z.inj_mul. fold ex. set (P := Zpos mw * Zpos mr).
  assert (HP : 2 ^ 104 <= P < 2 ^ 106).
  { destruct Hbw as [Hw1 Hw2], Hbr as [Hr1 Hr2]. change (53 - 1) with 52 in *.
    change (2 ^ 104) with (2 ^ 52 * 2 ^ 52). change (2 ^ 106) with (2 ^ 53 * 2 ^ 53).
    unfold P. nia. }
  assert (Hd : exists d, 105 <= d <= 106 /\ bits P d).
  { destruct (Z_lt_le_dec P (2 ^ 105)).
    - exists 105. split; [lia|]. unfold bits. change (105 - 1) with 104. lia.
    - exists 106. split; [lia|]. unfold bits. change (106 - 1) with 105. lia. }
  destruct Hd as (d & Hd & HbP).
  destruct (binary_round_aux_bits (xorb false false) P ex loc_Exact d)
    as (mp & ep & -> & Hmp & Hep & Hle); try (done || unfold ex, e in *; lia).
  eexists. split; [reflexivity|].
  (* the bound, in units of [2^ex] *)
  set (X := 2 ^ (53 - dA + 52 - delta)).
  assert (HX : X * 2 ^ delta = 2 ^ (53 - dA) * 2 ^ 52).
  { unfold X. rewrite <- !Z.pow_add_r by lia. f_equal. lia. }
  assert (HXpos : 0 < X) by (apply pow2_pos; lia).
  assert (Hdp : 0 < 2 ^ delta) by (apply pow2_pos; lia).
  assert (Hmwm : Zpos mw * Zpos m <= (2 * A + 1) * X).
  { apply (Z.mul_le_mono_pos_r _ _ (2 ^ delta)); [done|].
    assert (4 <= 2 ^ (53 - dA)).
    { change 4 with (2 ^ 2). apply Z.pow_le_mono_r; lia. }
    destruct Hbw as [_ Hw2]. change (2 ^ 53) with (2 * 2 ^ 52) in Hw2.
    change (2 ^ 53) with (2 * 2 ^ 52) in HU. nia. }
  assert (HK : - ex - 1 = 53 - dA + 52 - delta + (e - er)) by (unfold ex, e; lia).
  assert (HPK : P <= (2 * A + 1) * 2 ^ (- ex - 1)).
  { rewrite HK, Z.pow_add_r by lia. fold X.
    pose proof (pow2_pos (e - er) ltac:(lia)). unfold P. nia. }
  assert (Hdex : d - 53 <= - ex - 2).
  { assert (2 ^ (d - 1) < 2 ^ (dA + 1 + (- ex - 1))).
    { rewrite Z.pow_add_r by lia. destruct HbP as [HbP _].
      pose proof (pow2_pos (- ex - 1) ltac:(lia)). nia. }
    apply Z.pow_lt_mono_r_iff in H; lia. }
  simpl xorb. cbv iota.
  apply (truncation_within A mp ep ex); [lia | lia |].
  apply Hle; [|simpl; lia].
  replace (- ex - 1) with (- ex - 1 - (d - 53) + (d - 53)) by lia.
  rewrite Z.pow_add_r, Z.mul_assoc by lia.
  apply Z.mod_mul. pose proof (pow2_pos (d - 53) ltac:(lia)). lia.
Qed.

(** X23.  The size [resize_dims] returns fits the bounds: for an image
    of [w] by [h] pixels, both positive and below 2^53, the new width is
    at most 1200 and the new height at most 800, in the binary64
    arithmetic the script computes in. *)
Theorem resize_fits_the_bounds (w h : Z) :
  0 < w < 2 ^ 53 -> 0 < h < 2 ^ 53 ->
  exists new_w new_h,
    resize_dims w h = Some (new_w, new_h)
    /\ 0 <= new_w <= MAX_WIDTH /\ 0 <= new_h <= MAX_HEIGHT.
Proof.
  intros Hw Hh. unfold resize_dims.
  destruct ((MAX_WIDTH <? w) || (MAX_HEIGHT <? h)) eqn:Hguard.
  2: { apply orb_false_elim in Hguard as [H1 H2].
       apply Z.ltb_ge in H1, H2. exists w, h. split; [done|]. lia. }
  replace ((w =? 0) || (h =? 0)) with false
    by (symmetry; apply orb_false_intro; apply Z.eqb_neq; lia).
  destruct (div_to_float_upper MAX_WIDTH w) as (ma & da & Ea & Hba & Hda & HUa); [done | done |].
  destruct (div_to_float_upper MAX_HEIGHT h) as (mb & db & Eb & Hbb & Hdb & HUb); [done | done |].
  destruct (float_min_below _ _ _ _ _ _ Ea Eb) as (m & e & Er & Hwhich & Hla & Hlb).
  assert (Hbm : bits (Zpos m) 53) by (destruct Hwhich as [[-> _]|[-> _]]; done).
  assert (Hdw : 1 <= Zdigits2 w <= 53) by (destruct (to_float_digits w Hw) as (? & ? & ? & ? & ?); done).
  assert (Hdh : 1 <= Zdigits2 h <= 53) by (destruct (to_float_digits h Hh) as (? & ? & ? & ? & ?); done).
  assert (He : -400 <= e).
  { change (Zdigits2 MAX_WIDTH) with 11 in *. change (Zdigits2 MAX_HEIGHT) with 10 in *.
    destruct Hwhich as [[_ ->]|[_ ->]]; lia. }
  cbv zeta. set (r := float_min _ _) in *.
  destruct (scaled_within MAX_WIDTH w r m e ma da) as (nw & -> & Hnw); try done.
  destruct (scaled_within MAX_HEIGHT h r m e mb db) as (nh & -> & Hnh); try done.
  exists nw, nh. done.
Qed.

Lemma resize_fits_the_bounds_witness :
  exists new_w new_h,
    resize_dims 5000 3334 = Some (new_w, new_h) /\ new_w <= 1200 /\ new_h <= 800.
Proof.
  destruct (resize_fits_the_bounds 5000 3334) as (nw & nh & Hr & [_ Hnw] & [_ Hnh]).
  - split; reflexivity.
  - split; reflexivity.
  - exists nw, nh. split; [exact Hr|]. split; [exact Hnw | exact Hnh].
Defined.

End ResizeBounds.
